(** * multielo: the player tracker

    A shallow embedding of [src/multielo/player_tracker.py]: the [Player]
    class (current rating, append-only rating history, as-of-date lookup)
    and the [Tracker] class (the registry of players, matchup processing,
    standings and history export).

    Conventions of the embedding.
    - A rating is a Python [float]: Rocq's primitive binary64 [float].
    - A player ID and a date are Python [str] (see the docstrings): [string],
      compared with [String.eqb] and [String.leb] (lexicographic order).
    - A date slot may also hold Python [None] (the default of every [date]
      argument) or the missing value of a DataFrame column (nan / NaT).
      [x is None] and [isna(x)] tell the two apart, so the embedding does too.
      In a column of string dates the missing value is the float nan.
    - The methods of [Tracker] mutate the tracker, log, and may raise: they
      are computations in a state-and-error monad over the tracker.  *)

From Stdlib Require Import String ZArith Bool Floats Lia List Permutation Sorted.
Import ListNotations.
Local Open Scope string_scope.
Local Open Scope list_scope.

(** ** Dates *)

Inductive date : Type :=
| PyNone                (* Python [None] *)
| NaT                   (* nan / NaT: a missing cell of a DataFrame *)
| Date (s : string).    (* a date given as a string *)

(** [pd.isna(x)] / [Series.isna()] *)
Definition isna (d : date) : bool :=
  match d with Date _ => false | _ => true end.

(** [x is None] *)
Definition is_None (d : date) : bool :=
  match d with PyNone => true | _ => false end.

(** ** Player *)

(** One entry of [Player.rating_history]: a [(date, rating)] tuple. *)
Definition entry : Type := (date * float)%type.

Record Player : Type := mkPlayer {
  id : string;
  rating : float;
  rating_history : list entry
}.

(** [Player._update_rating_history]: [self.rating_history.append((date, rating))] *)
Definition _update_rating_history (self : Player) (r : float) (d : date) : Player :=
  {| id := id self;
     rating := rating self;
     rating_history := (rating_history self ++ [(d, r)])%list |}.

(** [Player.__init__(player_id, rating, rating_history, date)]; the history
    argument is [None] or a list. *)
Definition Player_init (player_id : string) (r : float)
    (history : option (list entry)) (d : date) : Player :=
  match history with
  | None => _update_rating_history
              {| id := player_id; rating := r; rating_history := [] |} r d
  | Some h => {| id := player_id; rating := r; rating_history := h |}
  end.

(** [Player.update_rating(new_rating, date)] *)
Definition update_rating (self : Player) (new_rating : float) (d : date) : Player :=
  _update_rating_history
    {| id := id self; rating := new_rating; rating_history := rating_history self |}
    new_rating d.

(** [Player.count_games]: [len(self.rating_history) - 1], a Python int. *)
Definition count_games (self : Player) : Z :=
  Z.of_nat (List.length (rating_history self)) - 1.

(** *** The as-of-date lookup

    [history_df.groupby(["date"]).rank(method="first", ascending=False)]
    ranks the only other column, [rating], inside each group of equal dates:
    rank 1 is the highest rating of the group, equal ratings are ranked in
    order of appearance.  Rows whose group key is null belong to no group and
    rows whose rating is nan get no rank (their rank is nan). *)

Definition in_group (d : string) (e : entry) : bool :=
  match fst e with Date s => String.eqb s d | _ => false end.

Definition higher_in_group (d : string) (r : float) (e : entry) : bool :=
  in_group d e && PrimFloat.ltb r (snd e).

Definition tied_in_group (d : string) (r : float) (e : entry) : bool :=
  in_group d e && PrimFloat.eqb (snd e) r.

(** The rank of row [e], given the rows [before] it and [all] the rows. *)
Definition group_rank (before all : list entry) (e : entry) : option nat :=
  match fst e with
  | Date d =>
      if PrimFloat.is_nan (snd e) then None
      else Some (1 + List.length (filter (higher_in_group d (snd e)) all)
                   + List.length (filter (tied_in_group d (snd e)) before))
  | _ => None
  end.

(** The frame with its new column ["r"]. *)
Fixpoint rank_column (before rest all : list entry) : list (entry * option nat) :=
  match rest with
  | [] => []
  | e :: rest' => (e, group_rank before all e) :: rank_column (e :: before) rest' all
  end.

(** [history_df["r"] == 1] *)
Definition r_is_1 (row : entry * option nat) : bool :=
  match snd row with Some 1%nat => true | _ => false end.

(** [history_df["date"] <= date], on the rows that are left: the rows with
    a null date have no rank and are gone. *)
Definition on_or_before (d : string) (row : entry * option nat) : list (string * float) :=
  match fst (fst row) with
  | Date s => if (s <=? d)%string then [(s, snd (fst row))] else []
  | _ => []
  end.

(** [sort_values("date", ascending=False)].  One row per distinct date is
    left, so the order of the result does not depend on the sorting
    algorithm; an insertion sort computes it. *)
Fixpoint insert_date_desc (x : string * float) (l : list (string * float)) :=
  match l with
  | [] => [x]
  | y :: l' => if (fst y <=? fst x)%string then x :: y :: l'
               else y :: insert_date_desc x l'
  end.

Definition sort_date_desc (l : list (string * float)) : list (string * float) :=
  fold_right insert_date_desc [] l.

(** [Player.get_rating_as_of_date(date, default_rating)]: what the method
    returns when the comparison of line 77 goes through (see
    [get_rating_as_of_date_call] for the call as a whole). *)
Definition get_rating_as_of_date (self : Player) (d : string) (default_rating : float) : float :=
  let history_df := rank_column [] (rating_history self) (rating_history self) in
  let history_df := filter r_is_1 history_df in
  let history_df := sort_date_desc (flat_map (on_or_before d) history_df) in
  match history_df with
  | [] => default_rating
  | (_, r) :: _ => r
  end.

(** [DataFrame(self.rating_history, columns=["date", "rating"])] infers the
    dtype of the [date] column from its values: [object] when a date is a
    [str], and also when none is nan (every date is [None], or there is no
    entry); [float64] when the dates are [None] and nan with a nan among
    them. *)
Definition holds_string_date (h : list entry) : bool :=
  existsb (fun e => match fst e with Date _ => true | _ => false end) h.

Definition holds_nan_date (h : list entry) : bool :=
  existsb (fun e => match fst e with NaT => true | _ => false end) h.

Definition date_column_is_object (h : list entry) : bool :=
  holds_string_date h || negb (holds_nan_date h).

(** The call [self.get_rating_as_of_date(date, default_rating)] with a [str]
    for [date].  [history_df["date"] <= date] (line 77) compares the [date]
    column with a [str]: on a [float64] column this raises [TypeError], also
    when no row is left in the frame.  [None] stands for that exception. *)
Definition get_rating_as_of_date_call (self : Player) (d : string) (default_rating : float)
    : option float :=
  if date_column_is_object (rating_history self)
  then Some (get_rating_as_of_date self d default_rating)
  else None.

(** *** Comparison operators

    [Player.__eq__], [__lt__], [__le__], [__gt__] and [__ge__] compare
    [self.rating] with [other], whatever [other] is.  When [other] is a
    number this is the comparison of two floats.  When [other] is a [Player],
    [float] does not know the type, so Python takes the reflected method of
    [other] with the float as argument ([x < q] becomes [q.__gt__(x)]).
    For any other object an ordering raises [TypeError] and [==] is false. *)

Inductive operand : Type :=
| Num (x : float)
| Obj (q : Player)
| Other.

Definition Player_eq (self : Player) (other : operand) : option bool :=
  match other with
  | Num x => Some (PrimFloat.eqb (rating self) x)
  | Obj q => Some (PrimFloat.eqb (rating q) (rating self))
  | Other => Some false
  end.

Definition Player_lt (self : Player) (other : operand) : option bool :=
  match other with
  | Num x => Some (PrimFloat.ltb (rating self) x)
  | Obj q => Some (PrimFloat.ltb (rating self) (rating q))
  | Other => None
  end.

Definition Player_le (self : Player) (other : operand) : option bool :=
  match other with
  | Num x => Some (PrimFloat.leb (rating self) x)
  | Obj q => Some (PrimFloat.leb (rating self) (rating q))
  | Other => None
  end.

Definition Player_gt (self : Player) (other : operand) : option bool :=
  match other with
  | Num x => Some (PrimFloat.ltb x (rating self))
  | Obj q => Some (PrimFloat.ltb (rating q) (rating self))
  | Other => None
  end.

Definition Player_ge (self : Player) (other : operand) : option bool :=
  match other with
  | Num x => Some (PrimFloat.leb x (rating self))
  | Obj q => Some (PrimFloat.leb (rating q) (rating self))
  | Other => None
  end.

(** ** Tracker *)

(** The exceptions the tracker raises or lets through. *)
Inductive error : Type :=
| NoPlayerFound (player_id : string)   (* ValueError: no player found with ID ... *)
| PlayerExists (player_id : string)    (* ValueError: a player with ID ... already exists *)
| IdsNotUnique                         (* ValueError: Player IDs must be unique *)
| RaterError                           (* whatever [elo.get_new_ratings] raises *)
| IndexError.                          (* an index out of range *)

(** What the tracker sends to its logger.  The text of a message is not
    modelled, its level and content are: the matchup record lists, for every
    participant, [player.id], the rating before and the rating after. *)
Inductive log_record : Type :=
| Info_created (player_id : string)
| Info_matchup (d : date) (changes : list (string * float * float))
| Warning_missing_dates (player_id : string).

(** [self.player_df] has one row per player, with columns [player_id] and
    [player]; every row holds a [Player] object of its own, so a reference to
    a player of the frame is modelled by the [player_id] of its row.
    [self.elo] is any object with [get_new_ratings], which returns the new
    ratings or raises. *)
Record Tracker : Type := mkTracker {
  elo : list float -> option (list float);
  initial_player_rating : float;
  player_df : list (string * Player);
  logger : list log_record
}.

Definition set_player_df (t : Tracker) (df : list (string * Player)) : Tracker :=
  {| elo := elo t; initial_player_rating := initial_player_rating t;
     player_df := df; logger := logger t |}.

(** *** The monad of tracker methods *)

Definition M (A : Type) : Type := Tracker -> (error + A) * Tracker.

Definition ret {A} (a : A) : M A := fun t => (inr a, t).

Definition raise {A} (e : error) : M A := fun t => (inl e, t).

Definition bind {A B} (m : M A) (k : A -> M B) : M B :=
  fun t => match m t with
           | (inl e, t') => (inl e, t')
           | (inr a, t') => k a t'
           end.

Declare Scope tracker_scope.
Delimit Scope tracker_scope with tracker.
Notation "x <- m ;; k" := (bind m (fun x => k))
  (at level 100, m at next level, right associativity) : tracker_scope.
Notation "m ;;; k" := (bind m (fun _ => k))
  (at level 100, right associativity) : tracker_scope.
Local Open Scope tracker_scope.

Definition gets {A} (f : Tracker -> A) : M A := fun t => (inr (f t), t).

Definition modify (f : Tracker -> Tracker) : M unit := fun t => (inr tt, f t).

Definition log (r : log_record) : M unit :=
  modify (fun t => {| elo := elo t; initial_player_rating := initial_player_rating t;
                      player_df := player_df t; logger := logger t ++ [r] |}).

Fixpoint mapM {A B} (f : A -> M B) (l : list A) : M (list B) :=
  match l with
  | [] => ret []
  | a :: l' => b <- f a ;; bs <- mapM f l' ;; ret (b :: bs)
  end.

(** *** Looking players up *)

(** [self.player_df["player_id"].tolist()] *)
Definition ids (t : Tracker) : list string := map fst (player_df t).

(** [x in l] *)
Definition mem (x : string) (l : list string) : bool := existsb (String.eqb x) l.

(** [Series.is_unique] *)
Fixpoint is_unique (l : list string) : bool :=
  match l with
  | [] => true
  | x :: l' => negb (mem x l') && is_unique l'
  end.

(** [sort_values("player_id")] in [_validate_player_df], which runs only
    when the IDs are unique: the result does not depend on the sorting
    algorithm, an insertion sort computes it. *)
Fixpoint insert_by_id (row : string * Player) (df : list (string * Player)) :=
  match df with
  | [] => [row]
  | y :: df' => if (fst row <=? fst y)%string then row :: y :: df'
                else y :: insert_by_id row df'
  end.

Definition sort_by_id (df : list (string * Player)) : list (string * Player) :=
  fold_right insert_by_id [] df.

(** [Tracker._validate_player_df]; the [player] column holds [Player]
    objects by its type. *)
Definition _validate_player_df : M unit :=
  fun t => if is_unique (ids t)
           then (inr tt, set_player_df t (sort_by_id (player_df t)))
           else (inl IdsNotUnique, t).

(** [Tracker.__init__(elo_rater, initial_rating, player_df, logger)]: the
    tracker, or the exception of the validation. *)
Definition Tracker_init (elo_rater : list float -> option (list float))
    (initial_rating : float) (df : option (list (string * Player))) : error + Tracker :=
  let df := match df with None => [] | Some df => df end in
  match _validate_player_df
          {| elo := elo_rater; initial_player_rating := initial_rating;
             player_df := df; logger := [] |} with
  | (inl e, _) => inl e
  | (inr _, t) => inr t
  end.

(** [self.player_df.loc[self.player_df["player_id"] == player_id, "player"].tolist()] *)
Definition players_with_id (player_id : string) (t : Tracker) : list Player :=
  map snd (filter (fun row => String.eqb (fst row) player_id) (player_df t)).

(** [Tracker.retrieve_existing_player] *)
Definition retrieve_existing_player (player_id : string) : M Player :=
  l <- gets ids ;;
  if mem player_id l then
    found <- gets (players_with_id player_id) ;;
    match found with
    | player :: _ => ret player
    | [] => raise IndexError
    end
  else raise (NoPlayerFound player_id).

(** [Tracker._create_new_player] *)
Definition _create_new_player (player_id : string) : M Player :=
  l <- gets ids ;;
  if mem player_id l then raise (PlayerExists player_id)
  else
    r <- gets initial_player_rating ;;
    let player := Player_init player_id r None PyNone in
    modify (fun t => set_player_df t (player_df t ++ [(player_id, player)])) ;;;
    _validate_player_df ;;;
    log (Info_created player_id) ;;;
    ret player.

(** [Tracker._get_or_create_player] *)
Definition _get_or_create_player (player_id : string) : M Player :=
  l <- gets ids ;;
  if mem player_id l then retrieve_existing_player player_id
  else _create_new_player player_id.

(** *** Matchup tables and sorting *)

(** One row of the matchup table: the date column and the place columns,
    first place to last; a place may be missing. *)
Record Row : Type := mkRow {
  row_date : date;
  places : list (option string)
}.

(** [DataFrame.sort_values(by)] computes an indexer from the column [by]
    alone (an argsort of its values) and takes the rows in that order.  An
    argsort returns positions of its column; a position outside the frame
    would have no row. *)
Definition take {A} (rows : list A) (indexer : list nat) : list A :=
  flat_map (fun i => match nth_error rows i with Some r => [r] | None => [] end) indexer.

(** What an argsort promises for a column [keys] ordered by [le]: a
    permutation of the positions that lists the keys in order.  It promises
    nothing about the order of equal keys: the tracker calls [sort_values]
    with the default [kind="quicksort"]. *)
Definition sorts {K} (le : K -> K -> Prop) (keys : list K) (indexer : list nat) : Prop :=
  Permutation indexer (seq 0 (List.length keys)) /\ StronglySorted le (take keys indexer).

(** The order of a date column, ascending, missing dates last. *)
Definition date_le (a b : date) : Prop :=
  match a, b with
  | Date s, Date s' => (s <=? s')%string = true
  | Date _, _ => True
  | _, Date _ => False
  | _, _ => True
  end.

(** The order of a column of players, descending: [b < a] never holds for
    [a] listed before [b], with the [<] of [Player]. *)
Definition player_ge (a b : Player) : Prop := Player_lt a (Obj b) = Some false.

(** The names of the participants of a row:
    [row[x] for x in place_cols if not pd.isna(row[x])] *)
Definition present (r : Row) : list string :=
  flat_map (fun x => match x with Some k => [k] | None => [] end) (places r).

Definition all_na (r : Row) : bool :=
  forallb (fun x => match x with None => true | Some _ => false end) (places r).

(** [dropna(how="all", axis=0, subset=place_cols)] *)
Definition dropna (rows : list Row) : list Row :=
  filter (fun r => negb (all_na r)) rows.

(** [player.update_rating(r, date=d)] on the player of the row [k] *)
Fixpoint update_player (k : string) (r : float) (d : date) (df : list (string * Player)) :=
  match df with
  | [] => []
  | row :: df' => if String.eqb (fst row) k
                  then (fst row, update_rating (snd row) r d) :: df'
                  else row :: update_player k r d df'
  end.

(** [for i, player in enumerate(players): player.update_rating(new_ratings[i], date=date)],
    from index [i] on. *)
Fixpoint update_players (d : date) (new_ratings : list float) (i : nat)
    (players : list string) : M unit :=
  match players with
  | [] => ret tt
  | k :: rest =>
      match nth_error new_ratings i with
      | None => raise IndexError
      | Some r =>
          modify (fun t => set_player_df t (update_player k r d (player_df t))) ;;;
          update_players d new_ratings (S i) rest
      end
  end.

(** The body of the loop of [process_data] for one row. *)
Definition process_row (row : Row) : M unit :=
  let d := row_date row in
  let names := present row in
  players <- mapM _get_or_create_player names ;;
  let initial_ratings := map rating players in
  rater <- gets elo ;;
  match rater initial_ratings with
  | None => raise RaterError
  | Some new_ratings =>
      update_players d new_ratings 0 names ;;;
      changes <- gets (fun t =>
        flat_map (fun kr => match players_with_id (fst kr) t with
                            | p :: _ => [(id p, snd kr, rating p)]
                            | [] => []
                            end) (combine names initial_ratings)) ;;
      log (Info_matchup d changes)
  end.

Fixpoint process_rows (rows : list Row) : M unit :=
  match rows with
  | [] => ret tt
  | row :: rows' => process_row row ;;; process_rows rows'
  end.

(** One row of the standings: columns [rank], [player_id], [n_games], [rating]. *)
Record standing : Type := mkStanding {
  rank : nat;
  player_id : string;
  n_games : Z;
  rating_col : float
}.

(** One row of the history export: columns [player_id], [date], [rating]. *)
Definition history_row : Type := (string * date * float)%type.

(** [player_history_df[~player_history_df["date"].isna()]] with its
    [player_id] column *)
Definition player_history_df (player : Player) : list history_row :=
  map (fun e => (id player, fst e, snd e))
      (filter (fun e => negb (isna (fst e))) (rating_history player)).

(** [any([x[0] is None for x in player.rating_history[1:]])] *)
Definition missing_dates (player : Player) : bool :=
  existsb (fun x => is_None (fst x)) (tl (rating_history player)).

(** [Tracker.get_history_df] *)
Definition get_history_df : M (list history_row) :=
  players <- gets (fun t => map snd (player_df t)) ;;
  frames <- mapM (fun player =>
                    (if missing_dates player
                     then log (Warning_missing_dates (id player))
                     else ret tt) ;;;
                    ret (player_history_df player)) players ;;
  ret (concat frames).

Section Sorting.

(** The argsort behind [sort_values(date_col)] and the one behind
    [sort_values("player", ascending=False)]. *)
Variable argsort_date : list date -> list nat.
Variable argsort_player_desc : list Player -> list nat.

(** [matchup_history_df.sort_values(date_col).reset_index(drop=True)] *)
Definition sort_values_date (rows : list Row) : list Row :=
  take rows (argsort_date (map row_date rows)).

(** [Tracker.process_data] *)
Definition process_data (matchup_history_df : list Row) : M unit :=
  let matchup_history_df := sort_values_date matchup_history_df in
  let matchup_history_df := dropna matchup_history_df in
  process_rows matchup_history_df.

(** [Tracker.get_current_ratings] *)
Definition get_current_ratings (t : Tracker) : list standing :=
  let df := map (fun row => (row, rating (snd row), count_games (snd row))) (player_df t) in
  let df := take df (argsort_player_desc (map (fun x => snd (fst (fst x))) df)) in
  map (fun ix => {| rank := fst ix;
                    player_id := fst (fst (fst (snd ix)));
                    n_games := snd (snd ix);
                    rating_col := snd (fst (snd ix)) |})
      (combine (seq 1 (List.length df)) df).

End Sorting.

(** *** The sort of the player column

    [df.sort_values("player", ascending=False)] (line 198) is pandas'
    [nargsort(items, kind="quicksort", ascending=False)] on the column of
    [Player] objects, none of which is null: the column is reversed
    ([items[::-1]], with its positions), numpy's [argsort(kind="quicksort")]
    sorts the reversed column in ascending order, the positions it finds
    are mapped back to positions of the column, and their list is reversed
    again.  On an array of at most 17 objects numpy's quicksort is its
    insertion sort: it goes through the positions from left to right and
    moves each one to the left as long as its object is [<] the object
    before it.  A longer array is partitioned first, which is not modelled:
    the definitions below are the sort on at most 17 rows. *)

(** [a < b] on two [Player] objects, as the sort evaluates it:
    [Player.__lt__]. *)
Definition player_ltb (a b : Player) : bool :=
  match Player_lt a (Obj b) with Some true => true | _ => false end.

(** One step of the insertion sort.  [placed] holds the positions placed so
    far with their objects, the last one first; [x] goes to the left as
    long as it is [<] the object before. *)
Fixpoint np_insert {A} (lt : A -> A -> bool) (x : nat * A) (placed : list (nat * A))
    : list (nat * A) :=
  match placed with
  | [] => [x]
  | y :: rest => if lt (snd x) (snd y) then y :: np_insert lt x rest else x :: placed
  end.

(** [v.argsort(kind="quicksort")] on at most 17 objects *)
Definition np_argsort_small {A} (lt : A -> A -> bool) (v : list A) : list nat :=
  map fst (rev (fold_left (fun placed x => np_insert lt x placed)
                          (combine (seq 0 (List.length v)) v) [])).

(** [nargsort(items, ascending=False)] on at most 17 objects, none null:
    position [q] of the reversed column is position [n - 1 - q] of the
    column. *)
Definition nargsort_desc_small {A} (lt : A -> A -> bool) (items : list A) : list nat :=
  let n := List.length items in
  rev (map (fun q => n - 1 - q) (np_argsort_small lt (rev items))).

(** *** Instances for examples

    A stable argsort for the date column (an insertion sort of the
    positions) and a small rater. *)

Fixpoint insert_key {K} (leb : K -> K -> bool) (x : nat * K) (l : list (nat * K)) :=
  match l with
  | [] => [x]
  | y :: l' => if leb (snd x) (snd y) then x :: y :: l' else y :: insert_key leb x l'
  end.

Definition insertion_argsort {K} (leb : K -> K -> bool) (keys : list K) : list nat :=
  map fst (fold_right (insert_key leb) [] (combine (seq 0 (List.length keys)) keys)).

Definition date_leb (a b : date) : bool :=
  match a, b with
  | Date s, Date s' => (s <=? s')%string
  | Date _, _ => true
  | _, Date _ => false
  | _, _ => true
  end.

Definition stable_argsort_date : list date -> list nat := insertion_argsort date_leb.

(** A rater in the manner of Elo, with a linear expected score: a player
    gains [32 * (1 - e)] against each player placed after it and loses
    [32 * e] against each player placed before it, where
    [e = 0.5 + (r - r') / 800].  It refuses fewer than two ratings. *)
Definition expected_score (r r' : float) : float := (0.5 + (r - r') / 800)%float.

Definition sum_float (l : list float) : float := fold_left PrimFloat.add l 0%float.

Fixpoint rate_from (before rest : list float) : list float :=
  match rest with
  | [] => []
  | r :: after =>
      (r + sum_float (map (fun r' => 32 * (0 - expected_score r r')) before)
         + sum_float (map (fun r' => 32 * (1 - expected_score r r')) after))%float
      :: rate_from (before ++ [r]) after
  end.

Definition linear_elo (ratings : list float) : option (list float) :=
  if (List.length ratings <? 2)%nat then None else Some (rate_from [] ratings).

(** ** Specification vocabulary *)

(** The entry appended last, if any. *)
Definition latest_entry (p : Player) : option entry :=
  List.last (map Some (rating_history p)) None.

(** The live rating is the rating of the entry appended last. *)
Definition rating_in_sync (p : Player) : Prop :=
  option_map snd (latest_entry p) = Some (rating p).

(** A player after a sequence of [update_rating] calls. *)
Definition record_results (p : Player) (results : list (float * date)) : Player :=
  fold_left (fun q u => update_rating q (fst u) (snd u)) results p.

(** The player the tracker creates for a new ID, and the tracker after it
    has registered that player. *)
Definition new_player (t : Tracker) (k : string) : Player :=
  Player_init k (initial_player_rating t) None PyNone.

Definition with_new_player (t : Tracker) (k : string) : Tracker :=
  {| elo := elo t;
     initial_player_rating := initial_player_rating t;
     player_df := sort_by_id (player_df t ++ [(k, new_player t k)]);
     logger := logger t ++ [Info_created k] |}.

(** A player without the history entries whose date is [missing]. *)
Definition drop_entries (missing : date -> bool) (p : Player) : Player :=
  {| id := id p;
     rating := rating p;
     rating_history := filter (fun e => negb (missing (fst e))) (rating_history p) |}.

(** A tracker with more records in its log. *)
Definition with_log (t : Tracker) (records : list log_record) : Tracker :=
  {| elo := elo t;
     initial_player_rating := initial_player_rating t;
     player_df := player_df t;
     logger := logger t ++ records |}.

(** The warnings of [get_history_df] for a list of players. *)
Definition warnings (players : list Player) : list log_record :=
  map (fun p => Warning_missing_dates (id p)) (filter missing_dates players).

(** The tracker [Tracker(elo_rater, initial_rating)] starts from. *)
Definition empty_tracker (elo_rater : list float -> option (list float))
    (initial_rating : float) : Tracker :=
  {| elo := elo_rater; initial_player_rating := initial_rating;
     player_df := []; logger := [] |}.

(** Two players at the same rating, as a frame handed to [Tracker]. *)
Definition two_tied : Tracker :=
  {| elo := linear_elo; initial_player_rating := 1000;
     player_df := [("A", Player_init "A" 1000 None PyNone);
                   ("B", Player_init "B" 1000 None PyNone)];
     logger := [] |}.

(** One matchup: B first, A second, C third. *)
Definition one_matchup : list Row :=
  [mkRow (Date "2024-01-01") [Some "B"; Some "A"; Some "C"]].

Definition after_one_matchup : Tracker :=
  snd (process_data stable_argsort_date one_matchup (empty_tracker linear_elo 1000)).

(** What the date order compares: the string of a date, nothing for a
    missing date (all missing dates sort alike, after the others). *)
Definition sort_key (d : date) : option string :=
  match d with Date s => Some s | _ => None end.

(** A table whose rows with a participant carry pairwise different dates
    (at most one of them without a date). *)
Definition distinct_dates (rows : list Row) : Prop :=
  NoDup (map (fun r => sort_key (row_date r)) (dropna rows)).

(** Two matchups of one day: A beats B, B beats A. *)
Definition a_beats_b : Row := mkRow (Date "2024-01-01") [Some "A"; Some "B"].
Definition b_beats_a : Row := mkRow (Date "2024-01-01") [Some "B"; Some "A"].

(** Two matchups given latest first. *)
Definition latest_first : list Row :=
  [mkRow (Date "2024-01-02") [Some "B"; Some "A"];
   mkRow (Date "2024-01-01") [Some "A"; Some "B"; None]].

(** How often [k] is listed among [names]. *)
Definition times (k : string) (names : list string) : nat :=
  List.length (filter (String.eqb k) names).

(** The number of place fields of [rows] that hold [k]. *)
Definition times_listed (k : string) (rows : list Row) : nat :=
  times k (flat_map present rows).

(** The number of matchups of [rows] in which [k] takes part. *)
Definition games_with (k : string) (rows : list Row) : nat :=
  List.length (filter (fun r => mem k (present r)) rows).

(** Row [row'] is row [row] after [n k] results dated [d] were appended to
    the history of its player, [k] being the ID of the row. *)
Definition appended (d : date) (n : string -> nat) (row row' : string * Player) : Prop :=
  fst row' = fst row
  /\ id (snd row') = id (snd row)
  /\ exists added,
       rating_history (snd row') = rating_history (snd row) ++ added
       /\ List.length added = n (fst row)
       /\ Forall (fun e => fst e = d) added.

(** The histories of a frame whose tracker started empty, with initial
    rating [r0], and has processed the matchups [done]: every player is under
    its own ID and its history is the creation entry, without a date,
    followed by one entry for every place field that holds its ID, dated as
    a matchup it took part in. *)
Definition histories (r0 : float) (done : list Row) (df : list (string * Player)) : Prop :=
  forall k p, In (k, p) df ->
    id p = k
    /\ exists games,
         rating_history p = (PyNone, r0) :: games
         /\ List.length games = times_listed k done
         /\ Forall (fun e => exists r, In r done /\ In k (present r)
                                       /\ fst e = row_date r) games.

(** The frame of such a tracker: in addition its IDs are unique and its
    players are the participants of [done]. *)
Definition tracked (r0 : float) (done : list Row) (df : list (string * Player)) : Prop :=
  NoDup (map fst df)
  /\ (forall k, In k (map fst df) <-> exists r, In r done /\ In k (present r))
  /\ histories r0 done df.

(** The tracker after it has registered new players under the IDs [created]. *)
Definition register (t : Tracker) (created : list string) : Tracker :=
  fold_left with_new_player created t.

(** A matchup that lists A twice. *)
Definition listed_twice : list Row :=
  [mkRow (Date "2024-01-01") [Some "A"; Some "A"]].

(** A matchup without a date. *)
Definition undated_matchup : list Row :=
  [mkRow NaT [Some "A"; Some "B"]].

(** The results of every player are in the order of their dates (missing
    dates last). *)
Definition in_date_order (df : list (string * Player)) : Prop :=
  forall k p, In (k, p) df ->
    StronglySorted date_le (map fst (tl (rating_history p))).

(** The rows of the history export that belong to the player [k]. *)
Definition rows_of (k : string) (export : list history_row) : list history_row :=
  filter (fun row => String.eqb (fst (fst row)) k) export.

(** The tracker after a matchup without a date. *)
Definition after_undated_matchup : Tracker :=
  snd (process_data stable_argsort_date undated_matchup (empty_tracker linear_elo 1000)).

(** A rater that accepts every matchup of two players or more and returns
    one new rating for each rating it is given. *)
Definition rates_matchups (rater : list float -> option (list float)) : Prop :=
  forall ratings, 2 <= List.length ratings ->
    exists new_ratings,
      rater ratings = Some new_ratings
      /\ List.length new_ratings = List.length ratings.

(** The dates of a history, entry by entry (nothing for an entry without). *)
Definition dates_of (h : list entry) : list string :=
  flat_map (fun e => match fst e with Date s => [s] | _ => [] end) h.

(** The dated entries of a history that are on or before [d]. *)
Definition candidates (d : string) (h : list entry) : list (string * float) :=
  flat_map (fun e => match fst e with
                     | Date s => if (s <=? d)%string then [(s, snd e)] else []
                     | _ => []
                     end) h.

(** A frame as [_validate_player_df] leaves it: unique IDs, in ascending
    order. *)
Definition frame_ok (t : Tracker) : Prop :=
  NoDup (ids t) /\ StronglySorted (fun a b => (a <=? b)%string = true) (ids t).

(** The rating and the history a name resolves to: those of the player
    stored under it, or those of the player the tracker would create. *)
Definition rating_of (t : Tracker) (k : string) : float :=
  match players_with_id k t with
  | p :: _ => rating p
  | [] => initial_player_rating t
  end.

Definition history_of (t : Tracker) (k : string) : list entry :=
  match players_with_id k t with
  | p :: _ => rating_history p
  | [] => [(PyNone, initial_player_rating t)]
  end.

(** Row [row'] is row [row] after some results were recorded for its
    player. *)
Definition updated (row row' : string * Player) : Prop :=
  fst row' = fst row /\ exists results, snd row' = record_results (snd row) results.

(** Tracker [t'] is tracker [t] after it registered players and recorded
    results: same rater, same initial rating, every player of [t] still
    there under its ID with more results, and every player of [t'] one of
    [t], or one created since, with results recorded. *)
Definition evolves (t t' : Tracker) : Prop :=
  elo t' = elo t
  /\ initial_player_rating t' = initial_player_rating t
  /\ (forall k p, In (k, p) (player_df t) ->
      exists results, In (k, record_results p results) (player_df t'))
  /\ (forall k p', In (k, p') (player_df t') ->
      exists p results,
        p' = record_results p results
        /\ (In (k, p) (player_df t) \/ (~ In k (ids t) /\ p = new_player t k))).

(** A table with a matchup of one player, which [linear_elo] refuses, after
    a matchup it accepts. *)
Definition refused_second : list Row :=
  [mkRow (Date "2024-01-01") [Some "A"; Some "B"];
   mkRow (Date "2024-01-02") [Some "C"; None]].

(** Row [row'] is row [row] after the loop over [names] wrote the new
    ratings, read from index [i] on: untouched when its ID is not among the
    names, otherwise with one result, the new rating at the place of its ID. *)
Definition written (d : date) (new_ratings : list float) (i : nat) (names : list string)
    (row row' : string * Player) : Prop :=
  fst row' = fst row
  /\ ((~ In (fst row) names /\ snd row' = snd row)
      \/ exists j x,
           nth_error names j = Some (fst row)
           /\ nth_error new_ratings (i + j) = Some x
           /\ snd row' = update_rating (snd row) x d).

(** A matchup with one participant. *)
Definition one_player : Row := mkRow (Date "2024-01-02") [Some "C"; None].

(** A later matchup, for a second call of [process_data]. *)
Definition next_day : list Row :=
  [mkRow (Date "2024-01-02") [Some "B"; Some "A"]].

(** A table whose rows have no participant. *)
Definition nobody : list Row :=
  [mkRow (Date "2024-01-01") [None; None]; mkRow NaT [None; None]].

(** The matchup records of a log, in its order: the date of each and the
    number of rating changes it lists. *)
Definition matchups_logged (records : list log_record) : list (date * nat) :=
  flat_map (fun x => match x with
                     | Info_matchup d changes => [(d, List.length changes)]
                     | _ => []
                     end) records.

(** The IDs of the creation records of a log, in its order. *)
Definition created_logged (records : list log_record) : list string :=
  flat_map (fun x => match x with Info_created k => [k] | _ => [] end) records.

(** The date of a matchup and the number of its participants. *)
Definition matchup_size (r : Row) : date * nat := (row_date r, List.length (present r)).

(** A player with results on two days. *)
Definition two_results : Player :=
  update_rating
    (update_rating (Player_init "A" 1000 None PyNone) 1016 (Date "2024-01-01"))
    990 (Date "2024-01-03").

(** A date that is not on or before [d]: a later one, or a missing one. *)
Definition later_or_missing (d : string) (dt : date) : Prop :=
  match dt with Date s => (s <=? d)%string = false | _ => True end.

(** The history entries dated on or before [d]. *)
Definition dated_until (d : string) (e : entry) : bool :=
  match fst e with Date s => (s <=? d)%string | _ => false end.

(** Row [row'] is row [row] with more history entries, all dated as [D]
    says. *)
Definition extended (D : date -> Prop) (row row' : string * Player) : Prop :=
  fst row' = fst row
  /\ exists added,
       rating_history (snd row') = (rating_history (snd row) ++ added)%list
       /\ Forall (fun e => D (fst e)) added.

(** Tracker [t'] has every player of [t], with more history entries dated
    as [D] says, and its other players have the creation entry followed by
    such entries. *)
Definition grows (D : date -> Prop) (t t' : Tracker) : Prop :=
  initial_player_rating t' = initial_player_rating t
  /\ (forall k p, In (k, p) (player_df t) ->
        exists p' added,
          In (k, p') (player_df t')
          /\ rating_history p' = (rating_history p ++ added)%list
          /\ Forall (fun e => D (fst e)) added)
  /\ (forall k p', In (k, p') (player_df t') ->
        (exists p added,
            In (k, p) (player_df t)
            /\ rating_history p' = (rating_history p ++ added)%list
            /\ Forall (fun e => D (fst e)) added)
        \/ (~ In k (ids t)
            /\ exists added,
                 rating_history p' = (PyNone, initial_player_rating t) :: added
                 /\ Forall (fun e => D (fst e)) added)).

(** What a tracker [t0] can become: [t0] itself, and what any number of
    [process_data] calls make of it, whatever they return. *)
Inductive processed (t0 : Tracker) : Tracker -> Prop :=
| processed_nothing : processed t0 t0
| processed_table (argsort_date : list date -> list nat) (rows : list Row) (t : Tracker) :
    processed t0 t -> processed t0 (snd (process_data argsort_date rows t)).





(** * Properties *)

(** ** Player: rating and history *)

Lemma last_snoc {A} (l : list A) (x d : A) : List.last (l ++ [x]) d = x.
Proof.
  induction l as [|a l IH]; simpl; [reflexivity|].
  destruct (l ++ [x]) eqn:E; [destruct l; discriminate|]. exact IH.
Qed.

Lemma update_rating_in_sync (p : Player) (r : float) (d : date) :
  rating_in_sync (update_rating p r d).
Proof.
  unfold rating_in_sync, latest_entry, update_rating, _update_rating_history; simpl.
  rewrite map_app; simpl. rewrite last_snoc. reflexivity.
Qed.

Lemma record_results_history (results : list (float * date)) (p : Player) :
  rating_history (record_results p results)
  = rating_history p ++ map (fun u => (snd u, fst u)) results.
Proof.
  revert p; induction results as [|u us IH]; intro p; simpl.
  - now rewrite app_nil_r.
  - unfold record_results in *; simpl. rewrite IH; simpl.
    now rewrite <- app_assoc.
Qed.

Lemma record_results_in_sync (results : list (float * date)) (p : Player) :
  rating_in_sync p -> rating_in_sync (record_results p results).
Proof.
  revert p; induction results as [|u us IH]; intros p Hp; simpl; [exact Hp|].
  apply IH, update_rating_in_sync.
Qed.

(** C4, as the code has it.  A player created without a history of its own
    (the way the tracker creates players) has its rating in its only entry;
    [update_rating] appends exactly one [(date, rating)] entry after the
    entries that were there, in their order, and leaves the rating in sync
    with it, whatever the player was before; so after any sequence of
    updates the history is the creation entry followed by the results in
    order and the live rating is that of the last entry. *)
Theorem C4_rating_follows_history :
  (forall player_id r d,
      rating_history (Player_init player_id r None d) = [(d, r)]
      /\ rating_in_sync (Player_init player_id r None d))
  /\ (forall p r d,
      rating_history (update_rating p r d) = rating_history p ++ [(d, r)]
      /\ rating (update_rating p r d) = r
      /\ id (update_rating p r d) = id p
      /\ rating_in_sync (update_rating p r d))
  /\ (forall player_id r d results,
      rating_history (record_results (Player_init player_id r None d) results)
      = (d, r) :: map (fun u => (snd u, fst u)) results
      /\ rating_in_sync (record_results (Player_init player_id r None d) results)).
Proof.
  split; [|split].
  - intros; split; reflexivity.
  - intros p r d. repeat split. apply update_rating_in_sync.
  - intros player_id r d results; split.
    + now rewrite record_results_history.
    + apply record_results_in_sync. reflexivity.
Qed.

(** C4 fails for a player built on a history handed to the constructor:
    [Player("A", rating=1000, rating_history=[(None, 900)])] has rating 1000
    while its last entry says 900. *)
Lemma C4_counterexample :
  rating (Player_init "A" 1000 (Some [(PyNone, 900%float)]) PyNone) = 1000%float
  /\ option_map snd (latest_entry (Player_init "A" 1000 (Some [(PyNone, 900%float)]) PyNone))
     = Some 900%float
  /\ (rating_in_sync (Player_init "A" 1000 (Some [(PyNone, 900%float)]) PyNone) -> False).
Proof.
  repeat split. unfold rating_in_sync; simpl. intro H.
  apply (f_equal (fun o => match o with
                           | Some x => PrimFloat.eqb x 1000
                           | None => false
                           end)) in H.
  vm_compute in H. discriminate H.
Qed.

(** ** Tracker: lookup and creation *)

Lemma mem_In (x : string) (l : list string) : mem x l = true <-> In x l.
Proof.
  unfold mem. rewrite existsb_exists. split.
  - intros [y [Hy E]]. apply String.eqb_eq in E. now subst.
  - intro H. exists x. split; [exact H|apply String.eqb_refl].
Qed.

Lemma mem_false (x : string) (l : list string) : mem x l = false <-> ~ In x l.
Proof.
  rewrite <- mem_In. destruct (mem x l); split; congruence.
Qed.

Lemma players_with_id_found (k : string) (t : Tracker) :
  In k (ids t) ->
  exists p rest, players_with_id k t = p :: rest /\ In (k, p) (player_df t).
Proof.
  unfold ids, players_with_id. induction (player_df t) as [|[k' p'] df IH]; simpl; [tauto|].
  intros [E|H].
  - subst k'. rewrite String.eqb_refl. simpl. eauto.
  - destruct (String.eqb_spec k' k) as [E|N]; simpl.
    + subst k'. eauto.
    + destruct (IH H) as (p & rest & E & Hin). eauto.
Qed.

Lemma retrieve_existing_player_found (k : string) (t : Tracker) :
  In k (ids t) ->
  exists p, retrieve_existing_player k t = (inr p, t)
            /\ In (k, p) (player_df t)
            /\ head (players_with_id k t) = Some p.
Proof.
  intro H. destruct (players_with_id_found k t H) as (p & rest & E & Hin).
  exists p. unfold retrieve_existing_player, bind, gets, ret.
  apply mem_In in H. rewrite H, E. auto.
Qed.

Lemma retrieve_existing_player_absent (k : string) (t : Tracker) :
  ~ In k (ids t) -> retrieve_existing_player k t = (inl (NoPlayerFound k), t).
Proof.
  intro H. apply mem_false in H.
  unfold retrieve_existing_player, bind, gets, raise. now rewrite H.
Qed.

(** C7.  Looking a player up leaves the tracker as it was, found or not, so
    whatever runs next runs as if the lookup had not happened; it raises
    the not-found error exactly when the ID is not in the frame, raises
    nothing else, and otherwise returns the player stored under that ID. *)
Theorem C7_retrieve_existing_player (k : string) (t : Tracker) :
  snd (retrieve_existing_player k t) = t
  /\ (forall A (next : M A), next (snd (retrieve_existing_player k t)) = next t)
  /\ (fst (retrieve_existing_player k t) = inl (NoPlayerFound k) <-> ~ In k (ids t))
  /\ (forall e, fst (retrieve_existing_player k t) = inl e -> e = NoPlayerFound k)
  /\ (In k (ids t) ->
      exists p, fst (retrieve_existing_player k t) = inr p
                /\ In (k, p) (player_df t)
                /\ head (players_with_id k t) = Some p).
Proof.
  destruct (in_dec string_dec k (ids t)) as [Hin|Hout].
  - destruct (retrieve_existing_player_found k t Hin) as (p & E & Hp & Hh).
    rewrite E; simpl. repeat split; try tauto; try discriminate.
    exists p. auto.
  - rewrite (retrieve_existing_player_absent k t Hout); simpl.
    repeat split; try tauto.
    intros e H. now injection H.
Qed.

Lemma is_unique_NoDup (l : list string) : is_unique l = true <-> NoDup l.
Proof.
  induction l as [|x l IH]; simpl.
  - split; [constructor|reflexivity].
  - rewrite andb_true_iff, negb_true_iff, mem_false, IH. split.
    + intros [H1 H2]. now constructor.
    + intro H. inversion H; subst. auto.
Qed.

Lemma insert_by_id_perm (row : string * Player) (df : list (string * Player)) :
  Permutation (insert_by_id row df) (row :: df).
Proof.
  induction df as [|y df IH]; simpl; [reflexivity|].
  destruct (fst row <=? fst y)%string; [reflexivity|].
  rewrite IH. apply perm_swap.
Qed.

Lemma sort_by_id_perm (df : list (string * Player)) : Permutation (sort_by_id df) df.
Proof.
  induction df as [|row df IH]; simpl; [reflexivity|].
  rewrite insert_by_id_perm. now constructor.
Qed.

Lemma ids_with_new_player (t : Tracker) (k : string) :
  Permutation (ids (with_new_player t k)) (k :: ids t).
Proof.
  unfold ids, with_new_player; simpl.
  rewrite (Permutation_map fst (sort_by_id_perm _)), map_app; simpl.
  rewrite Permutation_app_comm. reflexivity.
Qed.

Lemma create_new_player_fresh (k : string) (t : Tracker) :
  ~ In k (ids t) -> NoDup (ids t) ->
  _create_new_player k t = (inr (new_player t k), with_new_player t k).
Proof.
  intros Hout Hnd.
  assert (U : is_unique (ids t ++ [k]) = true).
  { apply is_unique_NoDup. apply (Permutation_NoDup (l := k :: ids t)).
    - rewrite Permutation_app_comm. reflexivity.
    - now constructor. }
  apply mem_false in Hout.
  unfold _create_new_player, bind, gets, modify, log, ret, _validate_player_df.
  rewrite Hout. unfold ids, set_player_df in *; simpl.
  rewrite map_app; simpl. rewrite U. reflexivity.
Qed.

Lemma create_new_player_exists (k : string) (t : Tracker) :
  In k (ids t) -> _create_new_player k t = (inl (PlayerExists k), t).
Proof.
  intro H. apply mem_In in H.
  unfold _create_new_player, bind, gets, raise. now rewrite H.
Qed.

Lemma get_or_create_existing (k : string) (t : Tracker) :
  In k (ids t) ->
  exists p, _get_or_create_player k t = (inr p, t)
            /\ In (k, p) (player_df t)
            /\ head (players_with_id k t) = Some p.
Proof.
  intro H. destruct (retrieve_existing_player_found k t H) as (p & E & Hp).
  exists p. split; [|exact Hp].
  apply mem_In in H. unfold _get_or_create_player, bind, gets.
  now rewrite H.
Qed.

Lemma get_or_create_new (k : string) (t : Tracker) :
  ~ In k (ids t) -> NoDup (ids t) ->
  _get_or_create_player k t = (inr (new_player t k), with_new_player t k).
Proof.
  intros Hout Hnd. rewrite <- (create_new_player_fresh k t Hout Hnd).
  apply mem_false in Hout. unfold _get_or_create_player, bind, gets.
  now rewrite Hout.
Qed.

(** C8.  Creating a player under an ID of the frame raises the
    already-exists error and changes nothing.  [_get_or_create_player]
    never raises that error; for an ID of the frame it returns the stored
    player and changes nothing; for a new ID, in a frame with unique IDs (as
    every validated frame is), it returns a new player whose rating and only
    history entry carry the tracker's initial rating, and the frame gains
    that ID and no other. *)
Theorem C8_create_and_get_or_create (k : string) (t : Tracker) :
  (In k (ids t) -> _create_new_player k t = (inl (PlayerExists k), t))
  /\ (forall k', fst (_get_or_create_player k t) <> inl (PlayerExists k'))
  /\ (In k (ids t) ->
      exists p, _get_or_create_player k t = (inr p, t)
                /\ In (k, p) (player_df t)
                /\ head (players_with_id k t) = Some p)
  /\ (~ In k (ids t) -> NoDup (ids t) ->
      _get_or_create_player k t = (inr (new_player t k), with_new_player t k)
      /\ id (new_player t k) = k
      /\ rating (new_player t k) = initial_player_rating t
      /\ rating_history (new_player t k) = [(PyNone, initial_player_rating t)]
      /\ Permutation (ids (with_new_player t k)) (k :: ids t)).
Proof.
  split; [apply create_new_player_exists|].
  split; [|split; [apply get_or_create_existing|]].
  - intro k'. destruct (in_dec string_dec k (ids t)) as [Hin|Hout].
    + destruct (get_or_create_existing k t Hin) as (p & E & _).
      rewrite E. discriminate.
    + apply mem_false in Hout.
      unfold _get_or_create_player, _create_new_player, bind, gets, modify, log,
        ret, _validate_player_df.
      rewrite Hout. cbv beta. rewrite Hout.
      match goal with |- context [is_unique ?l] => destruct (is_unique l) end;
        simpl; discriminate.
  - intros Hout Hnd. split; [now apply get_or_create_new|].
    repeat split. apply ids_with_new_player.
Qed.

(** An instance of C8 on a tracker with one player: asking for ["A"] again
    returns it, asking for ["B"] registers ["B"] at the initial rating. *)
Example C8_on_a_small_tracker :
  fst (_get_or_create_player "A" (with_new_player (mkTracker linear_elo 1000 [] []) "A"))
  = inr (new_player (mkTracker linear_elo 1000 [] []) "A")
  /\ ids (snd (_get_or_create_player "B"
                 (with_new_player (mkTracker linear_elo 1000 [] []) "A")))
     = ["A"; "B"].
Proof. split; reflexivity. Qed.

(** ** Player: the as-of-date lookup *)

Lemma rank_column_In (before rest all : list entry) (row : entry * option nat) :
  In row (rank_column before rest all) -> In (fst row) rest.
Proof.
  revert before; induction rest as [|e rest IH]; intros bef H; simpl in *; [exact H|].
  destruct H as [H|H]; [left; now subst|right; eauto].
Qed.

Lemma flat_map_nil {A B} (f : A -> list B) (l : list A) :
  (forall x, In x l -> f x = []) -> flat_map f l = [].
Proof.
  induction l as [|a l IH]; intro H; simpl; [reflexivity|].
  rewrite (H a (or_introl eq_refl)), IH; [reflexivity|].
  intros x Hx. apply H. now right.
Qed.

(** No dated entry on or before [d]: the value of the lookup is the default. *)
Lemma get_rating_as_of_date_default (p : Player) (d : string) (default_rating : float) :
  (forall s r, In (Date s, r) (rating_history p) -> (s <=? d)%string = false) ->
  get_rating_as_of_date p d default_rating = default_rating.
Proof.
  intro H. unfold get_rating_as_of_date.
  rewrite flat_map_nil; [reflexivity|].
  intros [[dt r] rk] Hin. apply filter_In in Hin. destruct Hin as [Hin _].
  apply rank_column_In in Hin. simpl in Hin.
  unfold on_or_before; simpl. destruct dt as [| |s]; try reflexivity.
  now rewrite (H s r Hin).
Qed.

Lemma filter_filter_implied {A} (f keep : A -> bool) (l : list A) :
  (forall x, f x = true -> keep x = true) -> filter f (filter keep l) = filter f l.
Proof.
  intro H. induction l as [|a l IH]; simpl; [reflexivity|].
  destruct (keep a) eqn:K; simpl.
  - now rewrite IH.
  - destruct (f a) eqn:F; [|exact IH].
    rewrite (H a F) in K. discriminate.
Qed.

Section KeepDated.

(** [keep] keeps every entry that has a date (it may drop entries without). *)
Variable keep : entry -> bool.
Hypothesis keep_dated : forall e, isna (fst e) = false -> keep e = true.

Lemma in_group_kept (d : string) (e : entry) : in_group d e = true -> keep e = true.
Proof.
  unfold in_group. intro H. apply keep_dated. destruct (fst e); try discriminate.
  reflexivity.
Qed.

Lemma group_rank_kept (before all : list entry) (e : entry) :
  group_rank (filter keep before) (filter keep all) e = group_rank before all e.
Proof.
  unfold group_rank. destruct (fst e) as [| |d]; try reflexivity.
  destruct (PrimFloat.is_nan (snd e)); [reflexivity|].
  rewrite !filter_filter_implied; [reflexivity| |];
    intros x Hx; apply andb_true_iff in Hx; destruct Hx as [Hx _];
    now apply (in_group_kept d).
Qed.

Lemma ranked_first_kept (before rest all : list entry) :
  filter r_is_1 (rank_column (filter keep before) (filter keep rest) (filter keep all))
  = filter r_is_1 (rank_column before rest all).
Proof.
  revert before; induction rest as [|e rest IH]; intro bef; simpl; [reflexivity|].
  destruct (keep e) eqn:K; simpl.
  - rewrite group_rank_kept. specialize (IH (e :: bef)). simpl in IH.
    rewrite K in IH. now rewrite IH.
  - specialize (IH (e :: bef)). simpl in IH. rewrite K in IH. rewrite IH.
    assert (N : group_rank bef all e = None).
    { unfold group_rank. destruct (fst e) as [| |d] eqn:E; try reflexivity.
      rewrite keep_dated in K; [discriminate|]. now rewrite E. }
    unfold r_is_1 at 2; simpl. now rewrite N.
Qed.

Lemma get_rating_as_of_date_kept (p : Player) (d : string) (default_rating : float) :
  get_rating_as_of_date
    {| id := id p; rating := rating p; rating_history := filter keep (rating_history p) |}
    d default_rating
  = get_rating_as_of_date p d default_rating.
Proof.
  unfold get_rating_as_of_date; simpl.
  change (rank_column [] (filter keep (rating_history p)))
    with (rank_column (filter keep []) (filter keep (rating_history p))).
  now rewrite ranked_first_kept.
Qed.

End KeepDated.

Lemma get_rating_as_of_date_drop_entries (missing : date -> bool) (p : Player)
    (d : string) (default_rating : float) :
  (forall x, missing x = true -> isna x = true) ->
  get_rating_as_of_date (drop_entries missing p) d default_rating
  = get_rating_as_of_date p d default_rating.
Proof.
  intro H. unfold drop_entries. apply get_rating_as_of_date_kept.
  intros e He. destruct (missing (fst e)) eqn:E; [|reflexivity].
  rewrite (H _ E) in He. discriminate.
Qed.

Lemma is_None_isna (x : date) : is_None x = true -> isna x = true.
Proof. destruct x; simpl; congruence. Qed.

(** C1 where the code departs from it.  Two entries share the latest date
    on or before the query: [Player("A", 1000, date="2024-01-01")] followed
    by [update_rating(980, "2024-01-01")].  The lookup answers 1000, the
    rating of the creation entry, not 980, the rating appended last: the
    rank is taken over the ratings of the date, highest first.  The same
    happens in the tracker when a player has two results on one date and
    the second lowers its rating: A beats B, then B beats A, both on
    2024-01-01; the lookup on that date answers more than A's rating after
    the two results (the list is in the order of the frame, A then B). *)
Theorem C1_same_date_highest_rating_wins :
  rating_history
    (update_rating (Player_init "A" 1000 None (Date "2024-01-01")) 980 (Date "2024-01-01"))
  = [(Date "2024-01-01", 1000%float); (Date "2024-01-01", 980%float)]
  /\ get_rating_as_of_date
       (update_rating (Player_init "A" 1000 None (Date "2024-01-01")) 980 (Date "2024-01-01"))
       "2024-01-01" 1500
     = 1000%float
  /\ map (fun row => (fst row, List.length (rating_history (snd row)),
                      PrimFloat.ltb (rating (snd row))
                        (get_rating_as_of_date (snd row) "2024-01-01" 1000)))
         (player_df
            (snd (process_data stable_argsort_date
                    [mkRow (Date "2024-01-01") [Some "A"; Some "B"];
                     mkRow (Date "2024-01-01") [Some "B"; Some "A"]]
                    (empty_tracker linear_elo 1000))))
     = [("A", 3%nat, true); ("B", 3%nat, false)].
Proof.
  split; [reflexivity|]. split; vm_compute; reflexivity.
Qed.

(** ** Tracker: the history export *)

Lemma with_log_nil (t : Tracker) : with_log t [] = t.
Proof. destruct t; unfold with_log; simpl. now rewrite app_nil_r. Qed.

Lemma with_log_app (t : Tracker) (a b : list log_record) :
  with_log (with_log t a) b = with_log t (a ++ b).
Proof. unfold with_log; simpl. now rewrite app_assoc. Qed.

Lemma history_frames (players : list Player) (t : Tracker) :
  mapM (fun player =>
          (if missing_dates player
           then log (Warning_missing_dates (id player))
           else ret tt) ;;;
          ret (player_history_df player)) players t
  = (inr (map player_history_df players), with_log t (warnings players)).
Proof.
  revert t; induction players as [|p players IH]; intro t; simpl.
  - unfold ret, warnings; simpl. now rewrite with_log_nil.
  - unfold bind at 1. unfold bind at 1. unfold warnings; simpl.
    destruct (missing_dates p); simpl.
    + unfold log, modify. fold (with_log t [Warning_missing_dates (id p)]).
      unfold ret at 1. unfold bind. rewrite IH. unfold ret.
      now rewrite with_log_app.
    + unfold ret at 1 2. unfold bind. rewrite IH. reflexivity.
Qed.

Lemma get_history_df_eq (t : Tracker) :
  get_history_df t
  = (inr (concat (map player_history_df (map snd (player_df t)))),
     with_log t (warnings (map snd (player_df t)))).
Proof.
  unfold get_history_df, bind, gets. rewrite history_frames. reflexivity.
Qed.

Lemma missing_dates_iff (p : Player) :
  missing_dates p = true <-> exists e, In e (tl (rating_history p)) /\ fst e = PyNone.
Proof.
  unfold missing_dates. rewrite existsb_exists. split; intros [e [H1 H2]]; exists e; split; auto.
  - destruct (fst e); simpl in H2; congruence.
  - now rewrite H2.
Qed.

Lemma player_history_df_drop (p : Player) :
  player_history_df (drop_entries is_None p) = player_history_df p.
Proof.
  unfold player_history_df, drop_entries; simpl.
  rewrite filter_filter_implied; [reflexivity|].
  intros e H. destruct (fst e); simpl in *; congruence.
Qed.

Lemma player_history_df_dated (p : Player) (row : history_row) :
  In row (player_history_df p) -> isna (snd (fst row)) = false.
Proof.
  unfold player_history_df. rewrite in_map_iff. intros [e [E H]]. subst row; simpl.
  apply filter_In in H. destruct H as [_ H]. now apply negb_true_iff in H.
Qed.

Lemma existsb_filter_implied {A} (f keep : A -> bool) (l : list A) :
  (forall x, f x = true -> keep x = true) -> existsb f (filter keep l) = existsb f l.
Proof.
  intro H. induction l as [|a l IH]; simpl; [reflexivity|].
  destruct (keep a) eqn:K; simpl.
  - now rewrite IH.
  - destruct (f a) eqn:F; [|exact IH].
    rewrite (H a F) in K. discriminate.
Qed.

(** Dropping the entries dated [None] does not change the dtype of the date
    column. *)
Lemma date_column_is_object_drop_None (h : list entry) :
  date_column_is_object (filter (fun e => negb (is_None (fst e))) h)
  = date_column_is_object h.
Proof.
  unfold date_column_is_object, holds_string_date, holds_nan_date.
  rewrite !existsb_filter_implied; [reflexivity| |];
    intros [dt x]; simpl; destruct dt; simpl; congruence.
Qed.

Lemma get_rating_as_of_date_call_drop_None (p : Player) (d : string) (default_rating : float) :
  get_rating_as_of_date_call (drop_entries is_None p) d default_rating
  = get_rating_as_of_date_call p d default_rating.
Proof.
  unfold get_rating_as_of_date_call.
  rewrite (get_rating_as_of_date_drop_entries is_None p d default_rating is_None_isna).
  unfold drop_entries at 1. simpl. now rewrite date_column_is_object_drop_None.
Qed.

(** Entries without a date.  History entries whose date is [None] count for
    nothing in the as-of-date lookup (the call returns or raises the same
    without them) and for nothing in the history export, whose rows all
    carry a date.  An update dated [None] still sets the live rating, and
    is seen neither by the lookup nor by the export.  [get_history_df]
    returns the dated entries of all players and logs one warning for each
    player with a [None] date after its first entry, and nothing else. *)
Theorem missing_dates_excluded (p : Player) (t : Tracker) (d : string) (default_rating r : float) :
  get_rating_as_of_date_call (drop_entries is_None p) d default_rating
  = get_rating_as_of_date_call p d default_rating
  /\ (player_history_df (drop_entries is_None p) = player_history_df p
      /\ forall row, In row (player_history_df p) ->
           isna (snd (fst row)) = false /\ is_None (snd (fst row)) = false)
  /\ (rating (update_rating p r PyNone) = r
      /\ get_rating_as_of_date_call (update_rating p r PyNone) d default_rating
         = get_rating_as_of_date_call p d default_rating
      /\ player_history_df (update_rating p r PyNone) = player_history_df p)
  /\ (get_history_df t
      = (inr (concat (map player_history_df (map snd (player_df t)))),
         with_log t (warnings (map snd (player_df t))))
      /\ forall q, In q (map snd (player_df t)) ->
           ((exists e, In e (tl (rating_history q)) /\ fst e = PyNone) <->
            In (Warning_missing_dates (id q)) (warnings [q]))
           /\ (In (Warning_missing_dates (id q)) (warnings [q]) ->
               In (Warning_missing_dates (id q)) (logger (snd (get_history_df t))))).
Proof.
  split; [|split; [|split]].
  - apply get_rating_as_of_date_call_drop_None.
  - split; [apply player_history_df_drop|].
    intros row H. apply player_history_df_dated in H. split; [exact H|].
    destruct (snd (fst row)); simpl in *; congruence.
  - split; [reflexivity|]. split.
    + rewrite <- (get_rating_as_of_date_call_drop_None (update_rating p r PyNone)).
      rewrite <- (get_rating_as_of_date_call_drop_None p).
      unfold get_rating_as_of_date_call, get_rating_as_of_date.
      unfold drop_entries, update_rating, _update_rating_history; simpl.
      rewrite filter_app; simpl. now rewrite app_nil_r.
    + unfold player_history_df, update_rating, _update_rating_history; simpl.
      rewrite filter_app; simpl. now rewrite app_nil_r.
  - split; [apply get_history_df_eq|].
    intros q Hq. split.
    + rewrite <- missing_dates_iff. unfold warnings; simpl.
      destruct (missing_dates q); simpl; split; auto; try discriminate;
        try tauto.
    + rewrite get_history_df_eq; simpl. unfold warnings; simpl.
      destruct (missing_dates q) eqn:E; simpl; [|intros []].
      intros _. apply in_or_app. right. apply in_map_iff. exists q. split; [reflexivity|].
      apply filter_In. auto.
Qed.

(** C6 where the code departs from it.  A matchup row without a date (a
    missing cell, nan or NaT) gives each participant a history entry with
    that missing date, after the creation entry.  The export leaves these
    entries out, as it does every entry whose date [isna]; but
    the check before the warning is [x[0] is None], which a missing cell is
    not, and [get_history_df] logs nothing.  The same result recorded with
    the date [None] is reported. *)
Theorem C6_missing_cell_raises_no_warning :
  map (fun row => (fst row, map fst (rating_history (snd row))))
      (player_df after_undated_matchup)
  = [("A", [PyNone; NaT]); ("B", [PyNone; NaT])]
  /\ map (fun row => missing_dates (snd row)) (player_df after_undated_matchup)
     = [false; false]
  /\ fst (get_history_df after_undated_matchup) = inr []
  /\ logger (snd (get_history_df after_undated_matchup)) = logger after_undated_matchup
  /\ missing_dates (update_rating (Player_init "A" 1000 None PyNone) 1016 NaT) = false
  /\ missing_dates (update_rating (Player_init "A" 1000 None PyNone) 1016 PyNone) = true.
Proof.
  repeat split; vm_compute; reflexivity.
Qed.

(** ** Sorting a frame *)

Lemma take_from {A} (pre rows : list A) :
  flat_map (fun i => match nth_error (pre ++ rows) i with Some r => [r] | None => [] end)
           (seq (List.length pre) (List.length rows))
  = rows.
Proof.
  revert pre; induction rows as [|a rows IH]; intro pre; simpl; [reflexivity|].
  rewrite nth_error_app2, Nat.sub_diag by lia. simpl. f_equal.
  specialize (IH (pre ++ [a])).
  rewrite <- app_assoc, length_app, Nat.add_1_r in IH. exact IH.
Qed.

Lemma take_all {A} (rows : list A) : take rows (seq 0 (List.length rows)) = rows.
Proof. exact (take_from [] rows). Qed.

Lemma take_map {A B} (f : A -> B) (rows : list A) (indexer : list nat) :
  map f (take rows indexer) = take (map f rows) indexer.
Proof.
  unfold take. induction indexer as [|i indexer IH]; simpl; [reflexivity|].
  rewrite map_app, IH, nth_error_map. now destruct (nth_error rows i).
Qed.

Lemma take_perm {A} (rows : list A) (indexer : list nat) :
  Permutation indexer (seq 0 (List.length rows)) -> Permutation (take rows indexer) rows.
Proof.
  intro H. rewrite <- (take_all rows) at 2. unfold take.
  now apply Permutation_flat_map.
Qed.

Lemma StronglySorted_map {A B} (f : A -> B) (R : B -> B -> Prop) (l : list A) :
  StronglySorted R (map f l) <-> StronglySorted (fun a b => R (f a) (f b)) l.
Proof.
  induction l as [|a l IH]; simpl.
  - split; constructor.
  - split; intro H; inversion H as [|x l' HS HF]; subst; constructor.
    + now apply IH.
    + exact (proj1 (Forall_map f (R (f a)) l) HF).
    + now apply IH.
    + exact (proj2 (Forall_map f (R (f a)) l) HF).
Qed.

Lemma StronglySorted_impl {A} (R R' : A -> A -> Prop) (l : list A) :
  (forall a b, R a b -> R' a b) -> StronglySorted R l -> StronglySorted R' l.
Proof.
  intros H S. induction S; constructor; [assumption|].
  eapply Forall_impl; [|eassumption]. auto.
Qed.

(** What [sort_values] returns when its argsort keeps its promise. *)
Lemma sorts_take {A K} (le : K -> K -> Prop) (key : A -> K) (rows : list A)
    (indexer : list nat) :
  sorts le (map key rows) indexer ->
  Permutation (take rows indexer) rows
  /\ StronglySorted le (map key (take rows indexer)).
Proof.
  intros [P S]. rewrite length_map in P. split.
  - now apply take_perm.
  - now rewrite take_map.
Qed.

(** ** Tracker: the standings *)

Lemma numbered_standings (a : nat) (rows : list (string * Player)) :
  let df := map (fun row => (row, rating (snd row), count_games (snd row))) rows in
  let out := map (fun ix => {| rank := fst ix;
                               player_id := fst (fst (fst (snd ix)));
                               n_games := snd (snd ix);
                               rating_col := snd (fst (snd ix)) |})
                 (combine (seq a (List.length df)) df) in
  map (fun s => (player_id s, n_games s, rating_col s)) out
  = map (fun row => (fst row, count_games (snd row), rating (snd row))) rows
  /\ map rank out = seq a (List.length rows)
  /\ map rating_col out = map rating (map snd rows).
Proof.
  revert a; induction rows as [|row rows IH]; intro a; simpl; [auto|].
  destruct (IH (S a)) as (H1 & H2 & H3). simpl in *.
  rewrite H1, H2, H3. auto.
Qed.

Lemma get_current_ratings_eq (argsort_player_desc : list Player -> list nat) (t : Tracker) :
  get_current_ratings argsort_player_desc t
  = map (fun ix => {| rank := fst ix;
                      player_id := fst (fst (fst (snd ix)));
                      n_games := snd (snd ix);
                      rating_col := snd (fst (snd ix)) |})
        (combine
           (seq 1 (List.length
                     (map (fun row => (row, rating (snd row), count_games (snd row)))
                          (take (player_df t)
                                (argsort_player_desc (map snd (player_df t)))))))
           (map (fun row => (row, rating (snd row), count_games (snd row)))
                (take (player_df t) (argsort_player_desc (map snd (player_df t)))))).
Proof.
  unfold get_current_ratings. cbv zeta. rewrite map_map. cbn [fst snd].
  rewrite <- take_map. reflexivity.
Qed.

(** *** The order of floats *)

Ltac sf_cases :=
  repeat match goal with
         | s : bool |- _ => destruct s
         end;
  simpl; try reflexivity; try discriminate;
  repeat match goal with
         | |- context [PosDef.Pos.compare_cont Eq ?a ?b] =>
             change (PosDef.Pos.compare_cont Eq a b) with (Pos.compare a b)
         | H : context [PosDef.Pos.compare_cont Eq ?a ?b] |- _ =>
             change (PosDef.Pos.compare_cont Eq a b) with (Pos.compare a b) in H
         end;
  repeat match goal with
         | H : context [(?a ?= ?b)%Z] |- _ => destruct (Z.compare_spec a b); simpl in H
         | H : context [(?a ?= ?b)%positive] |- _ => destruct (Pos.compare_spec a b); simpl in H
         end;
  try discriminate;
  repeat match goal with
         | |- context [(?a ?= ?b)%Z] => destruct (Z.compare_spec a b); simpl
         | |- context [(?a ?= ?b)%positive] => destruct (Pos.compare_spec a b); simpl
         end;
  try reflexivity; try discriminate; try (exfalso; subst; lia).

Lemma SFltb_asym (a b : spec_float) : SFltb a b = true -> SFltb b a = false.
Proof.
  unfold SFltb, SFcompare. destruct a, b; intro H; sf_cases.
Qed.

Lemma SFltb_negtrans (a b c : spec_float) :
  SFeqb b b = true -> SFltb a b = false -> SFltb b c = false -> SFltb a c = false.
Proof.
  unfold SFltb, SFeqb, SFcompare. destruct a, b, c; intros N H1 H2; sf_cases.
Qed.

Lemma SFeqb_tie (a b v : spec_float) :
  SFeqb a v = true -> SFeqb b v = true -> SFltb a b = false.
Proof.
  unfold SFltb, SFeqb, SFcompare. destruct a, b, v; intros H1 H2; sf_cases.
Qed.

Lemma float_ltb_asym (a b : float) : PrimFloat.ltb a b = true -> PrimFloat.ltb b a = false.
Proof. rewrite !ltb_spec. apply SFltb_asym. Qed.

(** [>=] is transitive through a float that is not nan. *)
Lemma float_ltb_negtrans (a b c : float) :
  PrimFloat.is_nan b = false ->
  PrimFloat.ltb a b = false -> PrimFloat.ltb b c = false -> PrimFloat.ltb a c = false.
Proof.
  unfold PrimFloat.is_nan. rewrite !ltb_spec, eqb_spec. intro N.
  apply SFltb_negtrans. now destruct (SFeqb (Prim2SF b) (Prim2SF b)).
Qed.

Lemma float_eqb_tie (a b v : float) :
  PrimFloat.eqb a v = true -> PrimFloat.eqb b v = true -> PrimFloat.ltb a b = false.
Proof. rewrite !ltb_spec, !eqb_spec. apply SFeqb_tie. Qed.

(** *** The insertion sort of the positions *)

Lemma take_positions {A} (rows : list A) (l : list (nat * A)) :
  (forall x, In x l -> nth_error rows (fst x) = Some (snd x)) ->
  take rows (map fst l) = map snd l.
Proof.
  induction l as [|x l IH]; intro H; simpl; [reflexivity|].
  rewrite (H x (or_introl eq_refl)). simpl. f_equal. apply IH.
  intros y Hy. apply H. now right.
Qed.

Lemma In_combine_seq {A} (a : nat) (rows : list A) (x : nat * A) :
  In x (combine (seq a (List.length rows)) rows) ->
  a <= fst x /\ nth_error rows (fst x - a) = Some (snd x).
Proof.
  revert a; induction rows as [|r rows IH]; intro a; simpl; [tauto|].
  intros [<-|H]; simpl.
  - rewrite Nat.sub_diag. auto.
  - destruct (IH (S a) H) as [L E]. split; [lia|].
    replace (fst x - a) with (S (fst x - S a)) by lia. exact E.
Qed.

Lemma map_snd_combine_seq {A} (a : nat) (rows : list A) :
  map snd (combine (seq a (List.length rows)) rows) = rows.
Proof.
  revert a; induction rows as [|r rows IH]; intro a; simpl; [reflexivity|].
  now rewrite IH.
Qed.

Lemma combine_seq_snoc {A} (a : nat) (l : list A) (x : A) :
  combine (seq a (List.length (l ++ [x]))) (l ++ [x])
  = combine (seq a (List.length l)) l ++ [(a + List.length l, x)].
Proof.
  revert a; induction l as [|y l IH]; intro a; simpl.
  - now rewrite Nat.add_0_r.
  - rewrite IH. simpl. now rewrite Nat.add_succ_r.
Qed.

Lemma combine_seq_shift {A} (a : nat) (l : list A) :
  combine (seq (S a) (List.length l)) l
  = map (fun y => (S (fst y), snd y)) (combine (seq a (List.length l)) l).
Proof.
  revert a; induction l as [|y l IH]; intro a; simpl; [reflexivity|].
  now rewrite IH.
Qed.

Section Insertion.
Context {A : Type} (lt : A -> A -> bool).

Lemma np_insert_perm (x : nat * A) (l : list (nat * A)) :
  Permutation (np_insert lt x l) (x :: l).
Proof.
  induction l as [|y l IH]; simpl; [reflexivity|].
  destruct (lt (snd x) (snd y)); [|reflexivity].
  rewrite IH. apply perm_swap.
Qed.

Lemma np_sorted_perm (l : list (nat * A)) :
  Permutation (fold_right (np_insert lt) [] l) l.
Proof.
  induction l as [|x l IH]; simpl; [reflexivity|].
  rewrite np_insert_perm. now constructor.
Qed.

Lemma np_insert_relabel (g : nat -> nat) (x : nat * A) (l : list (nat * A)) :
  map (fun y => (g (fst y), snd y)) (np_insert lt x l)
  = np_insert lt (g (fst x), snd x) (map (fun y => (g (fst y), snd y)) l).
Proof.
  induction l as [|y l IH]; simpl; [reflexivity|].
  destruct (lt (snd x) (snd y)); simpl; [now rewrite IH|reflexivity].
Qed.

Lemma np_fold_relabel (g : nat -> nat) (l acc : list (nat * A)) :
  map (fun y => (g (fst y), snd y)) (fold_left (fun placed x => np_insert lt x placed) l acc)
  = fold_left (fun placed x => np_insert lt x placed)
      (map (fun y => (g (fst y), snd y)) l) (map (fun y => (g (fst y), snd y)) acc).
Proof.
  revert acc; induction l as [|x l IH]; intro acc; simpl; [reflexivity|].
  rewrite IH. f_equal. apply np_insert_relabel.
Qed.

Lemma combine_seq_rev (l : list A) :
  map (fun y => (List.length l - 1 - fst y, snd y))
      (combine (seq 0 (List.length (rev l))) (rev l))
  = rev (combine (seq 0 (List.length l)) l).
Proof.
  induction l as [|x l IH] using rev_ind; [reflexivity|].
  rewrite rev_app_distr. simpl rev at 1 2. simpl app.
  rewrite combine_seq_snoc, rev_app_distr. simpl.
  rewrite length_app. simpl. f_equal.
  - f_equal. lia.
  - rewrite combine_seq_shift, map_map. simpl. rewrite <- IH.
    apply map_ext. intros [q y]. simpl. f_equal. lia.
Qed.

(** pandas' descending argsort is an insertion of the positions from the
    last to the first. *)
Lemma nargsort_desc_small_eq (items : list A) :
  nargsort_desc_small lt items
  = map fst (fold_right (np_insert lt) [] (combine (seq 0 (List.length items)) items)).
Proof.
  unfold nargsort_desc_small, np_argsort_small. cbv zeta.
  rewrite !map_rev, rev_involutive, map_map.
  transitivity (map fst (map (fun y : nat * A => (List.length items - 1 - fst y, snd y))
                   (fold_left (fun placed x => np_insert lt x placed)
                      (combine (seq 0 (List.length (rev items))) (rev items)) []))).
  { now rewrite map_map. }
  rewrite np_fold_relabel. simpl map at 2.
  rewrite combine_seq_rev, <- fold_left_rev_right, rev_involutive. reflexivity.
Qed.


Lemma np_insert_filter (P : A -> bool) (x : nat * A) (l : list (nat * A)) :
  (forall a b, P a = true -> P b = true -> lt a b = false) ->
  filter (fun y => P (snd y)) (np_insert lt x l) = filter (fun y => P (snd y)) (x :: l).
Proof.
  intro H. induction l as [|y l IH]; [reflexivity|].
  simpl np_insert. destruct (lt (snd x) (snd y)) eqn:E; [|reflexivity].
  simpl in *. rewrite IH. destruct (P (snd x)) eqn:Px; [|reflexivity].
  destruct (P (snd y)) eqn:Py; [|reflexivity].
  rewrite (H _ _ Px Py) in E. discriminate.
Qed.

(** The sort is stable: it keeps the order of the objects of which none is
    [<] another. *)
Lemma np_sorted_filter (P : A -> bool) (l : list (nat * A)) :
  (forall a b, P a = true -> P b = true -> lt a b = false) ->
  filter (fun y => P (snd y)) (fold_right (np_insert lt) [] l)
  = filter (fun y => P (snd y)) l.
Proof.
  intro H. induction l as [|x l IH]; [reflexivity|].
  simpl fold_right. rewrite (np_insert_filter P x _ H). simpl. now rewrite IH.
Qed.

Lemma np_insert_sorted (x : nat * A) (l : list (nat * A)) :
  (forall a b, lt a b = true -> lt b a = false) ->
  (forall a b c, In b (map snd (x :: l)) ->
                 lt a b = false -> lt b c = false -> lt a c = false) ->
  StronglySorted (fun a b => lt (snd a) (snd b) = false) l ->
  StronglySorted (fun a b => lt (snd a) (snd b) = false) (np_insert lt x l).
Proof.
  intros Asym Neg. induction 1 as [|y l S IH F]; simpl; [repeat constructor|].
  destruct (lt (snd x) (snd y)) eqn:E.
  - constructor.
    + apply IH. intros a b c Hb. apply Neg. simpl in *. tauto.
    + apply Forall_forall. intros z Hz.
      apply (Permutation_in _ (np_insert_perm x l)) in Hz. destruct Hz as [<-|Hz].
      * now apply Asym.
      * rewrite Forall_forall in F. now apply F.
  - constructor; [now constructor|]. constructor; [exact E|].
    apply Forall_forall. intros z Hz. rewrite Forall_forall in F.
    apply (Neg (snd x) (snd y) (snd z)); [simpl; auto|exact E|now apply F].
Qed.

Lemma np_sorted_sorted (l : list (nat * A)) :
  (forall a b, lt a b = true -> lt b a = false) ->
  (forall a b c, In b (map snd l) -> lt a b = false -> lt b c = false -> lt a c = false) ->
  StronglySorted (fun a b => lt (snd a) (snd b) = false) (fold_right (np_insert lt) [] l).
Proof.
  intros Asym Neg. induction l as [|x l IH]; simpl; [constructor|].
  apply np_insert_sorted; [exact Asym| |].
  - intros a b c Hb. apply Neg. simpl in *. destruct Hb as [Hb|Hb]; [now left|right].
    apply in_map_iff in Hb. destruct Hb as (y & <- & Hy).
    apply in_map. exact (Permutation_in _ (np_sorted_perm l) Hy).
  - apply IH. intros a b c Hb. apply Neg. now right.
Qed.

End Insertion.

Lemma np_insert_map {A B} (lt : A -> A -> bool) (lt' : B -> B -> bool) (f : A -> B)
    (x : nat * A) (l : list (nat * A)) :
  (forall a b, lt' (f a) (f b) = lt a b) ->
  map (fun y => (fst y, f (snd y))) (np_insert lt x l)
  = np_insert lt' (fst x, f (snd x)) (map (fun y => (fst y, f (snd y))) l).
Proof.
  intro H. induction l as [|y l IH]; simpl; [reflexivity|].
  rewrite H. destruct (lt (snd x) (snd y)); simpl; [now rewrite IH|reflexivity].
Qed.

Lemma combine_seq_map {A B} (f : A -> B) (a : nat) (l : list A) :
  combine (seq a (List.length (map f l))) (map f l)
  = map (fun y => (fst y, f (snd y))) (combine (seq a (List.length l)) l).
Proof.
  revert a; induction l as [|x l IH]; intro a; simpl; [reflexivity|].
  now rewrite IH.
Qed.

(** Sorting a frame by a column of it: the rows in the order of the
    insertion sort. *)
Lemma take_nargsort {A B} (lt : B -> B -> bool) (f : A -> B) (rows : list A) :
  take rows (nargsort_desc_small lt (map f rows))
  = map snd (fold_right (np_insert (fun a b => lt (f a) (f b))) []
               (combine (seq 0 (List.length rows)) rows)).
Proof.
  rewrite nargsort_desc_small_eq, combine_seq_map.
  assert (E : forall l : list (nat * A),
             fold_right (np_insert lt) [] (map (fun y => (fst y, f (snd y))) l)
             = map (fun y => (fst y, f (snd y)))
                   (fold_right (np_insert (fun a b => lt (f a) (f b))) [] l)).
  { induction l as [|x l IH]; simpl; [reflexivity|].
    rewrite IH. symmetry. now apply np_insert_map. }
  rewrite E, map_map. simpl.
  apply take_positions. intros x Hx.
  apply (Permutation_in _ (np_sorted_perm (fun a b => lt (f a) (f b)) _)) in Hx.
  apply In_combine_seq in Hx. destruct Hx as [_ Hx]. now rewrite Nat.sub_0_r in Hx.
Qed.

Lemma player_ltb_rating (a b : Player) :
  player_ltb a b = PrimFloat.ltb (rating a) (rating b).
Proof. unfold player_ltb, Player_lt. now destruct (PrimFloat.ltb (rating a) (rating b)). Qed.

(** The frame in the order of [sort_values("player", ascending=False)]: a
    permutation of its rows, which keeps the order of the rows at a same
    rating, and which is descending when no rating is nan. *)
Lemma sort_values_player (df : list (string * Player)) :
  Permutation (take df (nargsort_desc_small player_ltb (map snd df))) df
  /\ (forall x,
        filter (fun row => PrimFloat.eqb (rating (snd row)) x)
               (take df (nargsort_desc_small player_ltb (map snd df)))
        = filter (fun row => PrimFloat.eqb (rating (snd row)) x) df)
  /\ ((forall k p, In (k, p) df -> PrimFloat.is_nan (rating p) = false) ->
      StronglySorted (fun a b => PrimFloat.ltb (rating (snd a)) (rating (snd b)) = false)
                     (take df (nargsort_desc_small player_ltb (map snd df)))).
Proof.
  rewrite take_nargsort.
  set (lt := fun a b : string * Player => player_ltb (snd a) (snd b)).
  set (ix := combine (seq 0 (List.length df)) df).
  assert (Hix : map snd ix = df) by apply map_snd_combine_seq.
  split; [|split].
  - rewrite (Permutation_map snd (np_sorted_perm lt ix)). now rewrite Hix.
  - intro x.
    rewrite (filter_map_swap (fun row => PrimFloat.eqb (rating (snd row)) x) snd).
    rewrite (np_sorted_filter lt (fun row => PrimFloat.eqb (rating (snd row)) x)).
    + rewrite <- (filter_map_swap (fun row : string * Player => PrimFloat.eqb (rating (snd row)) x)
                    snd ix).
      now rewrite Hix.
    + intros a b Ha Hb. unfold lt. rewrite player_ltb_rating.
      exact (float_eqb_tie _ _ _ Ha Hb).
  - intro Hn.
    apply (proj2 (StronglySorted_map snd
                    (fun a b => PrimFloat.ltb (rating (snd a)) (rating (snd b)) = false) _)).
    eapply StronglySorted_impl; [|apply (np_sorted_sorted lt ix)].
    + intros a b. unfold lt. now rewrite player_ltb_rating.
    + intros a b. unfold lt. rewrite !player_ltb_rating. apply float_ltb_asym.
    + intros a b c Hb. unfold lt. rewrite !player_ltb_rating.
      apply float_ltb_negtrans. rewrite Hix in Hb. destruct b as [k q].
      exact (Hn k q Hb).
Qed.




(** ** Tracker: the order of processing *)

Lemma date_le_antisym (a b : date) :
  date_le a b -> date_le b a -> sort_key a = sort_key b.
Proof.
  destruct a as [| |s], b as [| |s']; simpl; try tauto.
  intros H1 H2. f_equal. now apply String.leb_antisym.
Qed.

Lemma filter_perm {A} (f : A -> bool) (l l' : list A) :
  Permutation l l' -> Permutation (filter f l) (filter f l').
Proof.
  induction 1 as [|x l l' _ IH|x y l|l l' l'' _ IH1 _ IH2]; simpl.
  - constructor.
  - destruct (f x); [now constructor|assumption].
  - destruct (f x), (f y); try reflexivity. apply perm_swap.
  - now transitivity (filter f l').
Qed.

Lemma sorted_filter {A} (R : A -> A -> Prop) (f : A -> bool) (l : list A) :
  StronglySorted R l -> StronglySorted R (filter f l).
Proof.
  induction 1 as [|a l S IH F]; simpl; [constructor|].
  destruct (f a); [|assumption]. constructor; [assumption|].
  apply Forall_forall. intros x Hx. apply filter_In in Hx.
  rewrite Forall_forall in F. now apply F.
Qed.

Lemma sorted_dropna (rows : list Row) :
  StronglySorted date_le (map row_date rows) ->
  StronglySorted date_le (map row_date (dropna rows)).
Proof.
  intro H. apply (proj2 (StronglySorted_map row_date date_le (dropna rows))).
  apply sorted_filter.
  exact (proj1 (StronglySorted_map row_date date_le rows) H).
Qed.

(** A table sorted by date whose dates are pairwise different is the only
    sorted arrangement of its rows. *)
Lemma sorted_rows_unique (l1 l2 : list Row) :
  StronglySorted date_le (map row_date l1) ->
  StronglySorted date_le (map row_date l2) ->
  Permutation l1 l2 ->
  NoDup (map (fun r => sort_key (row_date r)) l1) ->
  l1 = l2.
Proof.
  revert l2; induction l1 as [|a l1 IH]; intros l2 S1 S2 P N.
  - apply Permutation_nil in P. now subst.
  - destruct l2 as [|b l2].
    { apply Permutation_sym, Permutation_nil in P. discriminate. }
    simpl in S1, S2, N. inversion S1 as [|? ? S1' F1]; subst.
    inversion S2 as [|? ? S2' F2]; subst. inversion N as [|? ? Nin N']; subst.
    assert (E : a = b).
    { assert (Ha : In a (b :: l2)) by (apply (Permutation_in _ P); now left).
      assert (Hb : In b (a :: l1))
        by (apply (Permutation_in _ (Permutation_sym P)); now left).
      destruct Ha as [Ha|Ha]; [now symmetry|].
      destruct Hb as [Hb|Hb]; [assumption|].
      exfalso. apply Nin.
      rewrite Forall_forall in F1, F2.
      assert (K : sort_key (row_date a) = sort_key (row_date b)).
      { apply date_le_antisym.
        - apply F1. now apply in_map.
        - apply F2. now apply in_map. }
      rewrite K. apply (in_map (fun r => sort_key (row_date r))). exact Hb. }
    subst b. f_equal. apply IH; try assumption.
    now apply Permutation_cons_inv in P.
Qed.

Lemma process_data_sorted (argsort_date : list date -> list nat) (rows rows' : list Row)
    (t : Tracker) :
  sorts date_le (map row_date rows) (argsort_date (map row_date rows)) ->
  distinct_dates rows ->
  Permutation rows rows' ->
  StronglySorted date_le (map row_date rows') ->
  process_data argsort_date rows t = process_rows (dropna rows') t.
Proof.
  intros H N P S'. apply sorts_take in H. destruct H as [Pt St].
  unfold process_data, sort_values_date. f_equal.
  apply sorted_rows_unique.
  - now apply sorted_dropna.
  - now apply sorted_dropna.
  - apply filter_perm. now transitivity rows.
  - unfold distinct_dates in N.
    eapply Permutation_NoDup; [|exact N].
    apply Permutation_map, filter_perm. now symmetry.
Qed.

(** C2, as the code has it.  [process_data] runs the loop over the rows in
    ascending date order (missing dates last), without the rows that have no
    participant.  When the rows with a participant carry pairwise different
    dates, the result is that of the loop over any arrangement of the rows
    that is sorted by date, and it is the same for every order in which the
    rows are given. *)
Theorem C2_order_of_rows (argsort_date : list date -> list nat) (rows : list Row)
    (t : Tracker) :
  sorts date_le (map row_date rows) (argsort_date (map row_date rows)) ->
  distinct_dates rows ->
  (exists sorted,
      process_data argsort_date rows t = process_rows sorted t
      /\ Permutation sorted (dropna rows)
      /\ StronglySorted date_le (map row_date sorted)
      /\ Forall (fun r => all_na r = false) sorted)
  /\ (forall rows',
      Permutation rows rows' ->
      StronglySorted date_le (map row_date rows') ->
      process_data argsort_date rows t = process_rows (dropna rows') t)
  /\ (forall rows',
      Permutation rows rows' ->
      sorts date_le (map row_date rows') (argsort_date (map row_date rows')) ->
      process_data argsort_date rows t = process_data argsort_date rows' t).
Proof.
  intros H N. split; [|split].
  - exists (dropna (sort_values_date argsort_date rows)).
    destruct (sorts_take _ _ _ _ H) as [Pt St].
    split; [reflexivity|]. split; [now apply filter_perm|].
    split; [now apply sorted_dropna|].
    apply Forall_forall. intros r Hr. apply filter_In in Hr.
    now apply negb_true_iff.
  - intros rows' P S'. now apply process_data_sorted.
  - intros rows' P H'.
    destruct (sorts_take _ _ _ _ H') as [Pt' St'].
    rewrite (process_data_sorted argsort_date rows
               (sort_values_date argsort_date rows') t H N).
    + reflexivity.
    + transitivity rows'; [assumption|now symmetry].
    + exact St'.
Qed.

(** C2 instantiated: two matchups of different days given latest first are
    processed as if given earliest first. *)
Lemma C2_order_of_rows_witness :
  sorts date_le (map row_date latest_first) (stable_argsort_date (map row_date latest_first))
  /\ distinct_dates latest_first
  /\ process_data stable_argsort_date latest_first (empty_tracker linear_elo 1000)
     = process_data stable_argsort_date (rev latest_first) (empty_tracker linear_elo 1000)
  /\ process_data stable_argsort_date latest_first (empty_tracker linear_elo 1000)
     = process_rows (rev latest_first) (empty_tracker linear_elo 1000).
Proof.
  assert (Hs : sorts date_le (map row_date latest_first)
                 (stable_argsort_date (map row_date latest_first))).
  { split; vm_compute; [apply perm_swap|repeat constructor]. }
  assert (Hd : distinct_dates latest_first).
  { unfold distinct_dates; simpl. repeat constructor; simpl; intuition discriminate. }
  destruct (C2_order_of_rows stable_argsort_date latest_first
              (empty_tracker linear_elo 1000) Hs Hd) as (_ & H2 & H3).
  split; [exact Hs|]. split; [exact Hd|]. split.
  - apply H3.
    + apply perm_swap.
    + split; vm_compute; [reflexivity|repeat constructor].
  - apply (H2 (rev latest_first)).
    + apply perm_swap.
    + simpl. repeat constructor.
Defined.

(** C2 as stated fails when two matchups share a date.  A beats B and B
    beats A on the same day: both arrangements of the two rows are sorted by
    date, and the tracker ends with A below 1000 and B above when the rows
    are given in one order, with A above and B below in the other, whether
    the rows go through the sort of [process_data] or straight into its
    loop. *)
Lemma C2_counterexample :
  Permutation [a_beats_b; b_beats_a] [b_beats_a; a_beats_b]
  /\ StronglySorted date_le (map row_date [a_beats_b; b_beats_a])
  /\ StronglySorted date_le (map row_date [b_beats_a; a_beats_b])
  /\ sorts date_le (map row_date [a_beats_b; b_beats_a])
           (stable_argsort_date (map row_date [a_beats_b; b_beats_a]))
  /\ sorts date_le (map row_date [b_beats_a; a_beats_b])
           (stable_argsort_date (map row_date [b_beats_a; a_beats_b]))
  /\ map (fun row => (fst row, PrimFloat.ltb (rating (snd row)) 1000))
         (player_df (snd (process_data stable_argsort_date [a_beats_b; b_beats_a]
                            (empty_tracker linear_elo 1000))))
     = [("A", true); ("B", false)]
  /\ map (fun row => (fst row, PrimFloat.ltb (rating (snd row)) 1000))
         (player_df (snd (process_data stable_argsort_date [b_beats_a; a_beats_b]
                            (empty_tracker linear_elo 1000))))
     = [("A", false); ("B", true)]
  /\ map (fun row => (fst row, PrimFloat.ltb (rating (snd row)) 1000))
         (player_df (snd (process_rows (dropna [b_beats_a; a_beats_b])
                            (empty_tracker linear_elo 1000))))
     = [("A", false); ("B", true)].
Proof.
  split; [apply perm_swap|].
  split; [simpl; repeat constructor|].
  split; [simpl; repeat constructor|].
  split; [split; vm_compute; [reflexivity|repeat constructor]|].
  split; [split; vm_compute; [reflexivity|repeat constructor]|].
  repeat split; vm_compute; reflexivity.
Qed.

(** ** Tracker: what processing a matchup does to the frame *)

Lemma Forall2_same {A} (R : A -> A -> Prop) (l : list A) :
  (forall x, In x l -> R x x) -> Forall2 R l l.
Proof.
  induction l as [|a l IH]; intro H; constructor.
  - apply H. now left.
  - apply IH. intros x Hx. apply H. now right.
Qed.

Lemma Forall2_compose {A} (R1 R2 R3 : A -> A -> Prop) (l1 l2 l3 : list A) :
  (forall a b c, R1 a b -> R2 b c -> R3 a c) ->
  Forall2 R1 l1 l2 -> Forall2 R2 l2 l3 -> Forall2 R3 l1 l3.
Proof.
  intros H F1. revert l3. induction F1 as [|a b l1 l2 Hab F1 IH]; intros l3 F2.
  - inversion F2. constructor.
  - inversion F2 as [|? c ? l3' Hbc F2']; subst. constructor; eauto.
Qed.

Lemma Forall2_In_r {A} (R : A -> A -> Prop) (l l' : list A) (y : A) :
  Forall2 R l l' -> In y l' -> exists x, In x l /\ R x y.
Proof.
  induction 1 as [|a b l l' Hab F IH]; simpl; [tauto|].
  intros [E|H].
  - subst. eauto.
  - destruct (IH H) as (x & Hx & Hr). eauto.
Qed.

Lemma appended_keys (d : date) (n : string -> nat) (df df' : list (string * Player)) :
  Forall2 (appended d n) df df' -> map fst df' = map fst df.
Proof.
  induction 1 as [|a b l l' Hab F IH]; simpl; [reflexivity|].
  destruct Hab as [E _]. now rewrite E, IH.
Qed.

Lemma appended_none (d : date) (n : string -> nat) (row : string * Player) :
  n (fst row) = 0%nat -> appended d n row row.
Proof.
  intro H. repeat split. exists []. rewrite app_nil_r, H. auto.
Qed.

Lemma appended_more (d : date) (n m : string -> nat) (a b c : string * Player) :
  appended d n a b -> appended d m b c -> appended d (fun k => (n k + m k)%nat) a c.
Proof.
  intros (E1 & I1 & l1 & H1 & L1 & F1) (E2 & I2 & l2 & H2 & L2 & F2).
  split; [congruence|]. split; [congruence|].
  exists (l1 ++ l2). split; [|split].
  - rewrite H2, H1. now rewrite app_assoc.
  - rewrite length_app, L1, L2. now rewrite E1.
  - apply Forall_app. auto.
Qed.

Lemma update_player_appended (k : string) (r : float) (d : date)
    (df : list (string * Player)) :
  NoDup (map fst df) ->
  Forall2 (appended d (fun k' => if String.eqb k' k then 1%nat else 0%nat))
          df (update_player k r d df).
Proof.
  induction df as [|row df IH]; intro N; simpl; [constructor|].
  inversion N as [|? ? Nin N']; subst.
  destruct (String.eqb_spec (fst row) k) as [E|NE].
  - constructor.
    + split; [reflexivity|]. split; [reflexivity|].
      exists [(d, r)]. simpl. rewrite E, String.eqb_refl. auto.
    + apply Forall2_same. intros x Hx. apply appended_none.
      destruct (String.eqb_spec (fst x) k) as [E'|]; [|reflexivity].
      exfalso. apply Nin. rewrite E, <- E'. now apply in_map.
  - constructor; [|now apply IH].
    apply appended_none. now apply String.eqb_neq in NE; rewrite NE.
Qed.

Lemma update_players_appended (d : date) (new_ratings : list float) (names : list string) :
  forall (i : nat) (t t' : Tracker),
    NoDup (ids t) ->
    update_players d new_ratings i names t = (inr tt, t') ->
    Forall2 (appended d (fun k => times k names)) (player_df t) (player_df t')
    /\ elo t' = elo t
    /\ initial_player_rating t' = initial_player_rating t
    /\ logger t' = logger t.
Proof.
  induction names as [|k names IH]; intros i t t' N H; simpl in H.
  - injection H as <-. split; [|auto].
    apply Forall2_same. intros x _. now apply appended_none.
  - destruct (nth_error new_ratings i) as [r|]; [|discriminate].
    unfold bind, modify in H.
    pose proof (update_player_appended k r d (player_df t) N) as F1.
    apply IH in H.
    + destruct H as (F2 & H). simpl in F2, H. split; [|exact H].
      eapply Forall2_compose; [|exact F1|exact F2].
      intros a b c Hab Hbc.
      pose proof (appended_more _ _ _ _ _ _ Hab Hbc) as Hac.
      destruct Hac as (E & I & added & Hh & Hl & Hf).
      split; [exact E|]. split; [exact I|]. exists added.
      split; [exact Hh|]. split; [|exact Hf].
      rewrite Hl. unfold times; simpl.
      now destruct (String.eqb (fst a) k).
    + unfold ids; simpl. rewrite (appended_keys _ _ _ _ F1). exact N.
Qed.

Lemma register_fields (created : list string) (t : Tracker) :
  elo (register t created) = elo t
  /\ initial_player_rating (register t created) = initial_player_rating t.
Proof.
  revert t; induction created as [|k created IH]; intro t; simpl; [auto|].
  destruct (IH (with_new_player t k)) as [H1 H2]. unfold register in *.
  rewrite H1, H2. auto.
Qed.

Lemma register_frame (created : list string) (t : Tracker) :
  Permutation (player_df (register t created))
              (player_df t ++ map (fun k => (k, new_player t k)) created).
Proof.
  revert t; induction created as [|k created IH]; intro t; simpl.
  - now rewrite app_nil_r.
  - unfold register in *. rewrite IH. simpl.
    rewrite sort_by_id_perm, <- app_assoc. reflexivity.
Qed.

Lemma register_ids (created : list string) (t : Tracker) :
  Permutation (ids (register t created)) (ids t ++ created).
Proof.
  unfold ids. rewrite (Permutation_map fst (register_frame created t)).
  rewrite map_app, map_map; simpl. now rewrite map_id.
Qed.

(** Resolving the participants of a row: every name gets a player, and the
    tracker registers the names it did not know, each once. *)
Lemma get_or_create_all (names : list string) :
  forall t, NoDup (ids t) ->
    exists players created,
      mapM _get_or_create_player names t = (inr players, register t created)
      /\ (forall k, In k created -> In k names /\ ~ In k (ids t))
      /\ NoDup created
      /\ (forall k, In k names -> In k (ids t) \/ In k created)
      /\ List.length players = List.length names.
Proof.
  induction names as [|k names IH]; intros t N.
  - exists [], []. simpl. repeat split; auto; try tauto. constructor.
  - destruct (in_dec string_dec k (ids t)) as [Hin|Hout].
    + destruct (get_or_create_existing k t Hin) as (p & E & _).
      destruct (IH t N) as (players & created & E' & C1 & C2 & C3 & C4).
      exists (p :: players), created. simpl. unfold bind. rewrite E, E'.
      split; [reflexivity|]. split; [|split; [exact C2|split]].
      * intros k' Hk'. destruct (C1 k' Hk'). auto.
      * intros k' [<-|Hk']; auto.
      * simpl. now rewrite C4.
    + pose proof (get_or_create_new k t Hout N) as E.
      pose proof (ids_with_new_player t k) as P.
      assert (N1 : NoDup (ids (with_new_player t k))).
      { apply (Permutation_NoDup (Permutation_sym P)). now constructor. }
      destruct (IH _ N1) as (players & created & E' & C1 & C2 & C3 & C4).
      exists (new_player t k :: players), (k :: created). simpl. unfold bind.
      rewrite E, E'. split; [reflexivity|]. split; [|split; [|split]].
      * intros k' [<-|Hk']; [auto|].
        destruct (C1 k' Hk') as [H1 H2]. split; [auto|].
        intro H. apply H2. apply (Permutation_in _ (Permutation_sym P)). now right.
      * constructor; [|exact C2]. intro H. destruct (C1 k H) as [_ H2].
        apply H2. apply (Permutation_in _ (Permutation_sym P)). now left.
      * intros k' [<-|Hk']; [right; now left|].
        destruct (C3 k' Hk') as [H|H]; [|right; now right].
        apply (Permutation_in _ P) in H. destruct H as [<-|H]; [right; now left|now left].
      * simpl. now rewrite C4.
Qed.

Lemma times_pos_In (k : string) (names : list string) :
  times k names <> 0%nat -> In k names.
Proof.
  unfold times. induction names as [|x names IH]; simpl; [congruence|].
  destruct (String.eqb_spec k x) as [E|NE]; [now left|].
  intro H. right. now apply IH.
Qed.

Lemma times_absent (k : string) (names : list string) :
  ~ In k names -> times k names = 0%nat.
Proof.
  intro H. destruct (times k names) eqn:E; [reflexivity|].
  exfalso. apply H, times_pos_In. congruence.
Qed.

Lemma times_listed_snoc (k : string) (done : list Row) (r : Row) :
  times_listed k (done ++ [r]) = (times_listed k done + times k (present r))%nat.
Proof.
  unfold times_listed, times. rewrite flat_map_app, filter_app, length_app; simpl.
  now rewrite app_nil_r.
Qed.

Lemma times_listed_absent (k : string) (done : list Row) :
  (forall r, In r done -> ~ In k (present r)) -> times_listed k done = 0%nat.
Proof.
  intro H. apply times_absent. intro Hin. apply in_flat_map in Hin.
  destruct Hin as (r & Hr & Hk). exact (H r Hr Hk).
Qed.

Lemma histories_register (r0 : float) (done : list Row) (t : Tracker)
    (created : list string) :
  initial_player_rating t = r0 ->
  histories r0 done (player_df t) ->
  (forall k r, In k created -> In r done -> ~ In k (present r)) ->
  histories r0 done (player_df (register t created)).
Proof.
  intros I H C k p Hin.
  apply (Permutation_in _ (register_frame created t)) in Hin.
  apply in_app_or in Hin. destruct Hin as [Hin|Hin]; [now apply H|].
  apply in_map_iff in Hin. destruct Hin as (k' & E & Hk'). injection E as <- <-.
  split; [reflexivity|]. exists []. simpl. rewrite I.
  split; [reflexivity|]. split; [|constructor].
  symmetry. apply times_listed_absent. intros r Hr. now apply C.
Qed.

Lemma histories_appended (r0 : float) (done : list Row) (r : Row)
    (df df' : list (string * Player)) :
  histories r0 done df ->
  Forall2 (appended (row_date r) (fun k => times k (present r))) df df' ->
  histories r0 (done ++ [r]) df'.
Proof.
  intros H F k p' Hin.
  destruct (Forall2_In_r _ _ _ _ F Hin) as ([k1 p] & Hp & E & I & added & Hh & Hl & Hf).
  simpl in E, I, Hh, Hl. subst k1.
  destruct (H k p Hp) as (Hid & games & Hg & Hlen & Hdates).
  split; [congruence|]. exists (games ++ added). split; [|split].
  - rewrite Hh, Hg. reflexivity.
  - rewrite length_app, times_listed_snoc, Hlen. f_equal. exact Hl.
  - apply Forall_app. split.
    + eapply Forall_impl; [|exact Hdates]. intros e (r' & Hr' & Hk & Hd).
      exists r'. split; [apply in_or_app; now left|auto].
    + assert (Hk : added <> [] -> In k (present r)).
      { intro Hne. apply times_pos_In. rewrite <- Hl. now destruct added. }
      apply Forall_forall. intros e He. exists r.
      split; [apply in_or_app; right; now left|]. split.
      * apply Hk. intro Hnil. now rewrite Hnil in He.
      * rewrite Forall_forall in Hf. now apply Hf.
Qed.

(** One row of the loop: the tracker registers the participants it did
    not know, then appends to each participant one result with the date of
    the row for every place field that holds its ID. *)
Lemma process_row_frames (r : Row) (t t' : Tracker) :
  NoDup (ids t) ->
  process_row r t = (inr tt, t') ->
  exists created,
    (forall k, In k created -> In k (present r) /\ ~ In k (ids t))
    /\ NoDup created
    /\ (forall k, In k (present r) -> In k (ids t) \/ In k created)
    /\ Forall2 (appended (row_date r) (fun k => times k (present r)))
               (player_df (register t created)) (player_df t')
    /\ elo t' = elo t
    /\ initial_player_rating t' = initial_player_rating t.
Proof.
  intros N H.
  destruct (get_or_create_all (present r) t N) as (players & created & E & C1 & C2 & C3 & _).
  destruct (register_fields created t) as [Fe Fi].
  pose proof (register_ids created t) as Pids.
  assert (N1 : NoDup (ids (register t created))).
  { apply (Permutation_NoDup (Permutation_sym Pids)).
    apply NoDup_app; [exact N|exact C2|].
    intros k Hk Hc. now destruct (C1 k Hc). }
  unfold process_row, bind in H. rewrite E in H. unfold gets at 1 in H.
  destruct (elo (register t created) (map rating players)) as [new_ratings|];
    [|discriminate].
  destruct (update_players (row_date r) new_ratings 0 (present r) (register t created))
    as [[e|[]] t2] eqn:U; [discriminate|].
  unfold gets, log, modify in H. injection H as <-. simpl.
  destruct (update_players_appended _ _ _ _ _ _ N1 U) as (F & Ue & Ui & _).
  exists created. repeat split; try assumption; try congruence.
  - now destruct (C1 k H).
  - now destruct (C1 k H).
Qed.

(** One row of the loop keeps the frame tracked. *)
Lemma process_row_tracked (r0 : float) (done : list Row) (r : Row) (t t' : Tracker) :
  initial_player_rating t = r0 ->
  tracked r0 done (player_df t) ->
  process_row r t = (inr tt, t') ->
  tracked r0 (done ++ [r]) (player_df t')
  /\ elo t' = elo t
  /\ initial_player_rating t' = r0.
Proof.
  intros I (N & Hids & Hh) H.
  destruct (process_row_frames r t t' N H) as (created & C1 & C2 & C3 & F & Fe & Fi).
  pose proof (register_ids created t) as Pids.
  pose proof (appended_keys _ _ _ _ F) as K.
  split; [|split; congruence].
  split; [|split].
  - rewrite K. fold (ids (register t created)).
    apply (Permutation_NoDup (Permutation_sym Pids)).
    apply NoDup_app; [exact N|exact C2|].
    intros k Hk Hc. now destruct (C1 k Hc).
  - intro k. rewrite K. fold (ids (register t created)). split.
    + intro Hk. apply (Permutation_in _ Pids), in_app_or in Hk.
      destruct Hk as [Hk|Hk].
      * apply Hids in Hk. destruct Hk as (r' & Hr' & Hk).
        exists r'. split; [apply in_or_app; now left|exact Hk].
      * exists r. split; [apply in_or_app; right; now left|].
        now destruct (C1 k Hk).
    + intros (r' & Hr' & Hk). apply (Permutation_in _ (Permutation_sym Pids)).
      apply in_or_app. apply in_app_or in Hr'. destruct Hr' as [Hr'|[<-|[]]].
      * left. apply Hids. eauto.
      * now apply C3.
  - apply (histories_appended r0 done r (player_df (register t created))); [|exact F].
    apply histories_register; [exact I|exact Hh|].
    intros k r' Hk Hr' Hin. destruct (C1 k Hk) as [_ Hout].
    apply Hout, Hids. eauto.
Qed.

(** The loop keeps the frame tracked. *)
Lemma process_rows_tracked (r0 : float) (rows : list Row) :
  forall (done : list Row) (t t' : Tracker),
    initial_player_rating t = r0 ->
    tracked r0 done (player_df t) ->
    process_rows rows t = (inr tt, t') ->
    tracked r0 (done ++ rows) (player_df t')
    /\ elo t' = elo t
    /\ initial_player_rating t' = r0.
Proof.
  induction rows as [|r rows IH]; intros done t t' I T H; simpl in H.
  - injection H as <-. rewrite app_nil_r. auto.
  - unfold bind in H.
    destruct (process_row r t) as [[e|[]] t1] eqn:E; [discriminate|].
    destruct (process_row_tracked r0 done r t t1 I T E) as (T1 & E1 & I1).
    destruct (IH (done ++ [r]) t1 t' I1 T1 H) as (T' & E' & I').
    rewrite <- app_assoc in T'. simpl in T'. split; [exact T'|]. split; congruence.
Qed.

Lemma empty_tracked (r0 : float) : tracked r0 [] [].
Proof.
  split; [constructor|]. split.
  - intro k. simpl. split; [tauto|]. intros (r & [] & _).
  - intros k p [].
Qed.

(** ** Tracker: a table processed from the start *)

Lemma present_all_na (r : Row) : all_na r = true -> present r = [].
Proof.
  unfold all_na, present. induction (places r) as [|x l IH]; simpl; [reflexivity|].
  destruct x; simpl; [discriminate|exact IH].
Qed.

Lemma present_dropna (rows : list Row) :
  flat_map present (dropna rows) = flat_map present rows.
Proof.
  induction rows as [|r rows IH]; simpl; [reflexivity|].
  destruct (all_na r) eqn:E; simpl.
  - now rewrite (present_all_na r E).
  - now rewrite IH.
Qed.

Lemma In_dropna (rows : list Row) (r : Row) (k : string) :
  In r (dropna rows) /\ In k (present r) <-> In r rows /\ In k (present r).
Proof.
  unfold dropna. rewrite filter_In. split; [tauto|].
  intros [H1 H2]. repeat split; auto.
  destruct (all_na r) eqn:E; [|reflexivity].
  rewrite (present_all_na r E) in H2. destruct H2.
Qed.

Lemma tracked_same_matchups (r0 : float) (done done' : list Row)
    (df : list (string * Player)) :
  (forall k r, In r done /\ In k (present r) <-> In r done' /\ In k (present r)) ->
  (forall k, times_listed k done = times_listed k done') ->
  tracked r0 done df -> tracked r0 done' df.
Proof.
  intros HI HT (N & Hids & Hh). split; [exact N|]. split.
  - intro k. rewrite Hids. split; intros (r & H); exists r; now apply HI.
  - intros k p Hin. destruct (Hh k p Hin) as (Hid & games & Hg & Hl & Hd).
    split; [exact Hid|]. exists games. split; [exact Hg|]. split; [now rewrite <- HT|].
    eapply Forall_impl; [|exact Hd]. intros e (r & Hr & Hk & He).
    exists r. destruct (proj1 (HI k r) (conj Hr Hk)). auto.
Qed.

(** After [process_data] on a tracker that started empty, the frame is
    tracked for the rows of the table, in whatever order they were given. *)
Lemma process_data_tracked (argsort_date : list date -> list nat) (rows : list Row)
    (elo_rater : list float -> option (list float)) (r0 : float) (t' : Tracker) :
  sorts date_le (map row_date rows) (argsort_date (map row_date rows)) ->
  process_data argsort_date rows (empty_tracker elo_rater r0) = (inr tt, t') ->
  tracked r0 rows (player_df t').
Proof.
  intros S H. destruct (sorts_take _ _ _ _ S) as [P _].
  unfold process_data in H.
  destruct (process_rows_tracked r0 _ [] (empty_tracker elo_rater r0) t'
              eq_refl (empty_tracked r0) H) as (T & _).
  simpl in T. revert T. apply tracked_same_matchups.
  - intros k r. rewrite In_dropna. split; intros [H1 H2]; split; auto.
    + now apply (Permutation_in _ P).
    + now apply (Permutation_in _ (Permutation_sym P)).
  - intro k. unfold times_listed, times. rewrite present_dropna.
    apply Permutation_length, filter_perm, Permutation_flat_map. exact P.
Qed.

Lemma times_NoDup (k : string) (names : list string) :
  NoDup names -> times k names = if mem k names then 1%nat else 0%nat.
Proof.
  unfold times, mem. induction 1 as [|x names Hx N IH]; simpl; [reflexivity|].
  destruct (String.eqb_spec k x) as [E|NE]; simpl.
  - subst x. fold (times k names). now rewrite times_absent.
  - exact IH.
Qed.

Lemma times_listed_games (k : string) (rows : list Row) :
  (forall r, In r rows -> NoDup (present r)) -> times_listed k rows = games_with k rows.
Proof.
  unfold times_listed, games_with, times.
  induction rows as [|r rows IH]; intro H; simpl; [reflexivity|].
  rewrite filter_app, length_app. fold (times k (present r)).
  rewrite (times_NoDup k (present r)) by (apply H; now left).
  rewrite IH by (intros r' Hr'; apply H; now right).
  now destruct (mem k (present r)).
Qed.

(** C5, as the code has it.  [count_games] is [len(rating_history) - 1].
    After a table was processed by a tracker that started empty, the players
    of the frame are the participants of the table, and the number of games
    of each is the number of place fields of the table that hold its ID;
    when no matchup lists an ID twice this is the number of matchups in which
    the ID appears. *)
Theorem C5_games_played (argsort_date : list date -> list nat) (rows : list Row)
    (elo_rater : list float -> option (list float)) (r0 : float) (t' : Tracker) :
  sorts date_le (map row_date rows) (argsort_date (map row_date rows)) ->
  process_data argsort_date rows (empty_tracker elo_rater r0) = (inr tt, t') ->
  (forall k, In k (ids t') <-> exists r, In r rows /\ In k (present r))
  /\ forall k p, In (k, p) (player_df t') ->
       count_games p = (Z.of_nat (List.length (rating_history p)) - 1)%Z
       /\ count_games p = Z.of_nat (times_listed k rows)
       /\ ((forall r, In r rows -> NoDup (present r)) ->
           count_games p = Z.of_nat (games_with k rows)).
Proof.
  intros S H. destruct (process_data_tracked _ _ _ _ _ S H) as (N & Hids & Hh).
  split; [exact Hids|]. intros k p Hin.
  destruct (Hh k p Hin) as (_ & games & Hg & Hl & _).
  assert (E : count_games p = Z.of_nat (times_listed k rows)).
  { unfold count_games, entry in *. rewrite Hg, <- Hl. simpl List.length. lia. }
  split; [reflexivity|]. split; [exact E|].
  intro Hn. now rewrite <- times_listed_games.
Qed.

(** C5 instantiated: A and B each took part in the two matchups of
    [latest_first] and have two games. *)
Lemma C5_games_played_witness :
  process_data stable_argsort_date latest_first (empty_tracker linear_elo 1000)
  = (inr tt, snd (process_data stable_argsort_date latest_first
                    (empty_tracker linear_elo 1000)))
  /\ map (fun row => (fst row, count_games (snd row), games_with (fst row) latest_first))
         (player_df (snd (process_data stable_argsort_date latest_first
                            (empty_tracker linear_elo 1000))))
     = [("A", 2%Z, 2%nat); ("B", 2%Z, 2%nat)]
  /\ forall k p,
       In (k, p) (player_df (snd (process_data stable_argsort_date latest_first
                                    (empty_tracker linear_elo 1000)))) ->
       count_games p = Z.of_nat (games_with k latest_first).
Proof.
  assert (Hs : sorts date_le (map row_date latest_first)
                 (stable_argsort_date (map row_date latest_first))).
  { split; vm_compute; [apply perm_swap|repeat constructor]. }
  assert (Hp : process_data stable_argsort_date latest_first (empty_tracker linear_elo 1000)
               = (inr tt, snd (process_data stable_argsort_date latest_first
                                 (empty_tracker linear_elo 1000)))).
  { rewrite (surjective_pairing (process_data _ _ _)) at 1. f_equal. }
  split; [exact Hp|]. split; [vm_compute; reflexivity|].
  intros k p Hin.
  destruct (C5_games_played stable_argsort_date latest_first linear_elo 1000 _ Hs Hp)
    as [_ H].
  apply (H k p Hin).
  intros r [<-|[<-|[]]]; simpl; repeat constructor; simpl; intuition discriminate.
Defined.

(** C5 as stated fails for a matchup that lists a player twice: one
    matchup, two games. *)
Lemma C5_counterexample :
  fst (process_data stable_argsort_date listed_twice (empty_tracker linear_elo 1000))
  = inr tt
  /\ map (fun row => (fst row, count_games (snd row)))
         (player_df (snd (process_data stable_argsort_date listed_twice
                            (empty_tracker linear_elo 1000))))
     = [("A", 2%Z)]
  /\ games_with "A" listed_twice = 1%nat
  /\ times_listed "A" listed_twice = 2%nat.
Proof. repeat split; vm_compute; reflexivity. Qed.

(** ** The order of dates *)

Lemma ascii_lt_trans (a b c : Ascii.ascii) :
  Ascii.compare a b = Lt -> Ascii.compare b c = Lt -> Ascii.compare a c = Lt.
Proof.
  unfold Ascii.compare. rewrite !N.compare_lt_iff. lia.
Qed.

Lemma string_lt_trans (s1 : string) :
  forall s2 s3,
    String.compare s1 s2 = Lt -> String.compare s2 s3 = Lt -> String.compare s1 s3 = Lt.
Proof.
  induction s1 as [|a s1 IH]; intros [|b s2] [|c s3]; simpl; try congruence.
  destruct (Ascii.compare a b) eqn:E1; try discriminate;
    destruct (Ascii.compare b c) eqn:E2; try discriminate; intros H1 H2.
  - apply Ascii.compare_eq_iff in E1. subst b. rewrite E2. eauto.
  - apply Ascii.compare_eq_iff in E1. subst b. now rewrite E2.
  - apply Ascii.compare_eq_iff in E2. subst c. now rewrite E1.
  - now rewrite (ascii_lt_trans a b c E1 E2).
Qed.

Lemma string_leb_trans (s1 s2 s3 : string) :
  (s1 <=? s2)%string = true -> (s2 <=? s3)%string = true -> (s1 <=? s3)%string = true.
Proof.
  unfold String.leb.
  destruct (String.compare s1 s2) eqn:E1; try discriminate;
    destruct (String.compare s2 s3) eqn:E2; try discriminate; intros _ _.
  - apply String.compare_eq_iff in E1. subst s2. now rewrite E2.
  - apply String.compare_eq_iff in E1. subst s2. now rewrite E2.
  - apply String.compare_eq_iff in E2. subst s3. now rewrite E1.
  - now rewrite (string_lt_trans s1 s2 s3 E1 E2).
Qed.


Lemma date_le_refl (d : date) : date_le d d.
Proof.
  destruct d as [| |s]; simpl; auto. now destruct (String.leb_total s s).
Qed.

Lemma sorted_app {A} (R : A -> A -> Prop) (l1 l2 : list A) :
  StronglySorted R l1 -> StronglySorted R l2 ->
  (forall x y, In x l1 -> In y l2 -> R x y) ->
  StronglySorted R (l1 ++ l2).
Proof.
  induction 1 as [|a l1 S IH F]; intros S2 H; simpl; [exact S2|].
  constructor.
  - apply IH; [exact S2|]. intros x y Hx Hy. apply H; [now right|exact Hy].
  - apply Forall_app. split; [exact F|].
    apply Forall_forall. intros y Hy. apply H; [now left|exact Hy].
Qed.

Lemma sorted_before {A} (R : A -> A -> Prop) (l1 l2 : list A) (x : A) :
  StronglySorted R (l1 ++ x :: l2) -> forall y, In y l1 -> R y x.
Proof.
  induction l1 as [|a l1 IH]; simpl; intros S y Hy; [destruct Hy|].
  inversion S as [|? ? S' F]; subst. destruct Hy as [<-|Hy].
  - rewrite Forall_forall in F. apply F. apply in_or_app. right. now left.
  - now apply IH.
Qed.

Lemma sorted_constant (d : date) (l : list date) :
  Forall (fun x => x = d) l -> StronglySorted date_le l.
Proof.
  induction 1 as [|x l Hx F IH]; constructor; [exact IH|].
  subst x. eapply Forall_impl; [|exact F]. intros y ->. apply date_le_refl.
Qed.

Lemma in_date_order_register (t : Tracker) (created : list string) :
  in_date_order (player_df t) -> in_date_order (player_df (register t created)).
Proof.
  intros H k p Hin.
  apply (Permutation_in _ (register_frame created t)) in Hin.
  apply in_app_or in Hin. destruct Hin as [Hin|Hin]; [now apply (H k)|].
  apply in_map_iff in Hin. destruct Hin as (k' & E & _). injection E as <- <-.
  simpl. constructor.
Qed.

Lemma process_row_in_order (r0 : float) (done : list Row) (r : Row) (t t' : Tracker) :
  initial_player_rating t = r0 ->
  tracked r0 done (player_df t) ->
  in_date_order (player_df t) ->
  (forall r', In r' done -> date_le (row_date r') (row_date r)) ->
  process_row r t = (inr tt, t') ->
  in_date_order (player_df t').
Proof.
  intros I (N & Hids & Hh) O B H.
  destruct (process_row_frames r t t' N H) as (created & C1 & _ & _ & F & _).
  assert (Hh1 : histories r0 done (player_df (register t created))).
  { apply histories_register; [exact I|exact Hh|].
    intros k r' Hk Hr' Hin. destruct (C1 k Hk) as [_ Hout].
    apply Hout, Hids. eauto. }
  pose proof (in_date_order_register t created O) as O1.
  intros k p' Hin.
  destruct (Forall2_In_r _ _ _ _ F Hin) as ([k1 p] & Hp & E & _ & added & Ha & _ & Hf).
  simpl in E, Ha. subst k1.
  destruct (Hh1 k p Hp) as (_ & games & Hg & _ & Hd).
  specialize (O1 k p Hp). rewrite Hg in O1. simpl in O1.
  rewrite Ha, Hg. simpl. rewrite map_app. apply sorted_app.
  - exact O1.
  - apply (sorted_constant (row_date r)).
    apply Forall_forall. intros x Hx. apply in_map_iff in Hx.
    destruct Hx as (e & <- & He). rewrite Forall_forall in Hf. now apply Hf.
  - intros x y Hx Hy. apply in_map_iff in Hx. destruct Hx as (e & <- & He).
    apply in_map_iff in Hy. destruct Hy as (e' & <- & He').
    rewrite Forall_forall in Hd, Hf. destruct (Hd e He) as (r' & Hr' & _ & ->).
    rewrite (Hf e' He'). now apply B.
Qed.

Lemma process_rows_in_order (r0 : float) (rows : list Row) :
  forall (done : list Row) (t t' : Tracker),
    initial_player_rating t = r0 ->
    tracked r0 done (player_df t) ->
    in_date_order (player_df t) ->
    StronglySorted (fun a b => date_le (row_date a) (row_date b)) (done ++ rows) ->
    process_rows rows t = (inr tt, t') ->
    in_date_order (player_df t').
Proof.
  induction rows as [|r rows IH]; intros done t t' I T O S H; simpl in H.
  - now injection H as <-.
  - unfold bind in H.
    destruct (process_row r t) as [[e|[]] t1] eqn:E; [discriminate|].
    destruct (process_row_tracked r0 done r t t1 I T E) as (T1 & _ & I1).
    apply (IH (done ++ [r]) t1 t' I1 T1); [| |exact H].
    + apply (process_row_in_order r0 done r t t1 I T O); [|exact E].
      exact (sorted_before (fun a b => date_le (row_date a) (row_date b))
               done rows r S).
    + now rewrite <- app_assoc.
Qed.

Lemma process_data_in_order (argsort_date : list date -> list nat) (rows : list Row)
    (elo_rater : list float -> option (list float)) (r0 : float) (t' : Tracker) :
  sorts date_le (map row_date rows) (argsort_date (map row_date rows)) ->
  process_data argsort_date rows (empty_tracker elo_rater r0) = (inr tt, t') ->
  in_date_order (player_df t').
Proof.
  intros S H. destruct (sorts_take _ _ _ _ S) as [_ St].
  unfold process_data in H.
  apply (process_rows_in_order r0 (dropna (sort_values_date argsort_date rows)) []
           (empty_tracker elo_rater r0) t' eq_refl (empty_tracked r0)); [| |exact H].
  - intros k p [].
  - simpl. apply (proj1 (StronglySorted_map row_date date_le _)).
    now apply sorted_dropna.
Qed.

(** ** Tracker: players created by the tracker *)

Lemma filter_all {A} (f : A -> bool) (l : list A) :
  (forall x, In x l -> f x = true) -> filter f l = l.
Proof.
  induction l as [|a l IH]; intro H; simpl; [reflexivity|].
  rewrite (H a (or_introl eq_refl)), IH; [reflexivity|].
  intros x Hx. apply H. now right.
Qed.

Lemma filter_none {A} (f : A -> bool) (l : list A) :
  (forall x, In x l -> f x = false) -> filter f l = [].
Proof.
  induction l as [|a l IH]; intro H; simpl; [reflexivity|].
  rewrite (H a (or_introl eq_refl)), IH; [reflexivity|].
  intros x Hx. apply H. now right.
Qed.

Lemma player_history_df_id (p : Player) (row : history_row) :
  In row (player_history_df p) -> fst (fst row) = id p.
Proof.
  unfold player_history_df. rewrite in_map_iff. now intros (e & <- & _).
Qed.

Lemma rows_of_export (k : string) (df : list (string * Player)) (p : Player) :
  NoDup (map fst df) ->
  (forall k' p', In (k', p') df -> id p' = k') ->
  In (k, p) df ->
  rows_of k (concat (map player_history_df (map snd df))) = player_history_df p.
Proof.
  unfold rows_of. induction df as [|[k' p'] df IH]; intros N Hid Hin; [destruct Hin|].
  simpl. rewrite filter_app. simpl in N. inversion N as [|? ? Nin N']; subst.
  assert (Hid' : forall k0 p0, In (k0, p0) df -> id p0 = k0)
    by (intros k0 p0 H0; apply Hid; now right).
  destruct Hin as [E|Hin].
  - injection E as -> ->.
    rewrite (filter_all _ (player_history_df p)),
      (filter_none _ (concat (map player_history_df (map snd df)))), app_nil_r;
      [reflexivity| |].
    + intros row Hrow. apply in_concat in Hrow. destruct Hrow as (frame & Hf & Hrow).
      apply in_map_iff in Hf. destruct Hf as (q & <- & Hq).
      apply in_map_iff in Hq. destruct Hq as ([k0 q0] & <- & Hq). simpl in Hrow.
      apply player_history_df_id in Hrow. rewrite Hrow, (Hid' k0 q0 Hq).
      apply String.eqb_neq. intros ->. apply Nin. now apply (in_map fst _ (k, q0)).
    + intros row Hrow. apply player_history_df_id in Hrow.
      rewrite Hrow, (Hid k p (or_introl eq_refl)). apply String.eqb_refl.
  - rewrite (filter_none _ (player_history_df p')); [now apply IH|].
    intros row Hrow. apply player_history_df_id in Hrow.
    rewrite Hrow, (Hid k' p' (or_introl eq_refl)).
    apply String.eqb_neq. intros ->. apply Nin. now apply (in_map fst _ (k, p)).
Qed.


(** ** Tracker: processing succeeds *)

Lemma update_players_ok (d : date) (new_ratings : list float) (names : list string) :
  forall (i : nat) (t : Tracker),
    i + List.length names <= List.length new_ratings ->
    exists t', update_players d new_ratings i names t = (inr tt, t').
Proof.
  induction names as [|k names IH]; intros i t H; simpl in *.
  - exists t. reflexivity.
  - destruct (nth_error new_ratings i) as [r|] eqn:E.
    + unfold bind, modify. apply IH. lia.
    + apply nth_error_None in E. lia.
Qed.

Lemma process_row_ids (r : Row) (t t' : Tracker) :
  NoDup (ids t) -> process_row r t = (inr tt, t') -> NoDup (ids t').
Proof.
  intros N H.
  destruct (process_row_frames r t t' N H) as (created & C1 & C2 & _ & F & _).
  unfold ids. rewrite (appended_keys _ _ _ _ F). fold (ids (register t created)).
  apply (Permutation_NoDup (Permutation_sym (register_ids created t))).
  apply NoDup_app; [exact N|exact C2|].
  intros k Hk Hc. now destruct (C1 k Hc).
Qed.

Lemma process_row_ok (r : Row) (t : Tracker) :
  NoDup (ids t) -> rates_matchups (elo t) -> 2 <= List.length (present r) ->
  exists t', process_row r t = (inr tt, t').
Proof.
  intros N R L.
  destruct (get_or_create_all (present r) t N) as (players & created & E & _ & _ & _ & Lp).
  destruct (register_fields created t) as [Fe _].
  destruct (R (map rating players)) as (new_ratings & Er & Ln).
  { now rewrite length_map, Lp. }
  destruct (update_players_ok (row_date r) new_ratings (present r) 0 (register t created))
    as (t2 & U).
  { rewrite Ln, length_map, Lp. simpl. lia. }
  unfold process_row, bind. rewrite E. unfold gets at 1. rewrite Fe, Er, U.
  unfold gets, log, modify. eauto.
Qed.

Lemma process_rows_ok (rows : list Row) :
  forall t, NoDup (ids t) -> rates_matchups (elo t) ->
    (forall r, In r rows -> 2 <= List.length (present r)) ->
    exists t', process_rows rows t = (inr tt, t').
Proof.
  induction rows as [|r rows IH]; intros t N R H; simpl.
  - exists t. reflexivity.
  - destruct (process_row_ok r t N R (H r (or_introl eq_refl))) as (t1 & E).
    unfold bind. rewrite E.
    destruct (process_row_frames r t t1 N E) as (_ & _ & _ & _ & _ & Fe & _).
    apply IH.
    + exact (process_row_ids r t t1 N E).
    + now rewrite Fe.
    + intros r' Hr'. apply H. now right.
Qed.

Lemma take_In {A} (rows : list A) (indexer : list nat) (r : A) :
  In r (take rows indexer) -> In r rows.
Proof.
  unfold take. rewrite in_flat_map. intros (i & _ & H).
  destruct (nth_error rows i) as [x|] eqn:E; [|destruct H].
  destruct H as [<-|[]]. now apply nth_error_In in E.
Qed.

Lemma rate_from_length (rest before : list float) :
  List.length (rate_from before rest) = List.length rest.
Proof.
  revert before; induction rest as [|r rest IH]; intro bef; simpl; [reflexivity|].
  now rewrite IH.
Qed.

Lemma linear_elo_rates_matchups : rates_matchups linear_elo.
Proof.
  intros ratings H. exists (rate_from [] ratings). unfold linear_elo.
  destruct (Nat.ltb_spec (List.length ratings) 2) as [L|_]; [lia|].
  split; [reflexivity|apply rate_from_length].
Qed.

(** ** Player: the lookup on a history with one entry per date *)

Lemma float_ltb_irrefl (x : float) : PrimFloat.ltb x x = false.
Proof.
  rewrite ltb_spec. unfold SFltb.
  destruct (Prim2SF x) as [s|s| |s m e]; simpl; try reflexivity.
  - now destruct s.
  - destruct s; rewrite Z.compare_refl, Pos.compare_cont_refl; reflexivity.
Qed.

Lemma in_group_dates (s : string) (g : entry) (h : list entry) :
  In g h -> in_group s g = true -> In s (dates_of h).
Proof.
  intros Hin Hg. unfold dates_of. apply in_flat_map. exists g. split; [exact Hin|].
  unfold in_group in Hg. destruct (fst g) as [| |s']; try discriminate.
  apply String.eqb_eq in Hg. subst. now left.
Qed.

Lemma dates_of_app (h1 h2 : list entry) : dates_of (h1 ++ h2) = dates_of h1 ++ dates_of h2.
Proof. unfold dates_of. apply flat_map_app. Qed.

(** With one entry per date, every dated entry has rank 1 in its group. *)
Lemma rank_column_alone (rest : list entry) :
  forall pre bef,
    (forall g, In g bef -> In g pre) ->
    NoDup (dates_of (pre ++ rest)) ->
    (forall e, In e rest -> PrimFloat.is_nan (snd e) = false) ->
    flat_map (fun row => match fst (fst row) with Date _ => [fst row] | _ => [] end)
             (filter r_is_1 (rank_column bef rest (pre ++ rest)))
    = filter (fun e => negb (isna (fst e))) rest.
Proof.
  induction rest as [|e rest IH]; intros pre bef Hb N Hn; [reflexivity|].
  assert (IH' : flat_map (fun row => match fst (fst row) with
                                     | Date _ => [fst row] | _ => [] end)
                  (filter r_is_1 (rank_column (e :: bef) rest (pre ++ e :: rest)))
                = filter (fun e => negb (isna (fst e))) rest).
  { replace (pre ++ e :: rest) with ((pre ++ [e]) ++ rest) in *
      by (now rewrite <- app_assoc).
    apply IH; [|exact N|intros x Hx; apply Hn; now right].
    intros g [<-|Hg]; apply in_or_app; [right; now left|left; now apply Hb]. }
  simpl. unfold group_rank at 1.
  destruct e as [[| |s] r]; simpl; try exact IH'.
  pose proof (Hn (Date s, r) (or_introl eq_refl)) as Hr. simpl in Hr. rewrite Hr.
  rewrite dates_of_app in N. simpl in N.
  apply NoDup_remove_2 in N.
  rewrite (filter_none (higher_in_group s r)), (filter_none (tied_in_group s r)).
  - simpl. now rewrite IH'.
  - intros g Hg. unfold tied_in_group. destruct (in_group s g) eqn:G; [|reflexivity].
    exfalso. apply N, in_or_app. left. exact (in_group_dates s g pre (Hb g Hg) G).
  - intros g Hg. unfold higher_in_group. destruct (in_group s g) eqn:G; [|reflexivity].
    apply in_app_or in Hg. destruct Hg as [Hg|[<-|Hg]].
    + exfalso. apply N, in_or_app. left. exact (in_group_dates s g pre Hg G).
    + simpl. apply float_ltb_irrefl.
    + exfalso. apply N, in_or_app. right. exact (in_group_dates s g rest Hg G).
Qed.

Lemma candidates_of_ranked (d : string) (rows : list (entry * option nat)) :
  flat_map (on_or_before d) rows
  = candidates d (flat_map (fun row => match fst (fst row) with
                                       | Date _ => [fst row] | _ => [] end) rows).
Proof.
  unfold candidates. induction rows as [|[[dt r] rk] rows IH]; simpl; [reflexivity|].
  rewrite IH. unfold on_or_before; simpl.
  destruct dt as [| |s]; reflexivity.
Qed.

Lemma candidates_dated (d : string) (h : list entry) :
  candidates d (filter (fun e => negb (isna (fst e))) h) = candidates d h.
Proof.
  unfold candidates. induction h as [|[dt r] h IH]; simpl; [reflexivity|].
  destruct dt as [| |s]; simpl; try exact IH. now rewrite IH.
Qed.

Lemma insert_date_desc_perm (x : string * float) (l : list (string * float)) :
  Permutation (insert_date_desc x l) (x :: l).
Proof.
  induction l as [|y l IH]; simpl; [reflexivity|].
  destruct (fst y <=? fst x)%string; [reflexivity|].
  rewrite IH. apply perm_swap.
Qed.

Lemma sort_date_desc_perm (l : list (string * float)) : Permutation (sort_date_desc l) l.
Proof.
  induction l as [|x l IH]; simpl; [reflexivity|].
  rewrite insert_date_desc_perm. now constructor.
Qed.

Lemma insert_date_desc_sorted (x : string * float) (l : list (string * float)) :
  StronglySorted (fun a b => (fst b <=? fst a)%string = true) l ->
  StronglySorted (fun a b => (fst b <=? fst a)%string = true) (insert_date_desc x l).
Proof.
  induction 1 as [|y l S IH F]; simpl; [repeat constructor|].
  destruct (fst y <=? fst x)%string eqn:E.
  - constructor; [now constructor|]. constructor; [exact E|].
    eapply Forall_impl; [|exact F]. intros z Hz. now apply (string_leb_trans _ (fst y)).
  - constructor; [exact IH|].
    apply Forall_forall. intros z Hz.
    apply (Permutation_in _ (insert_date_desc_perm x l)) in Hz.
    destruct Hz as [<-|Hz].
    + destruct (String.leb_total (fst x) (fst y)) as [H|H]; [exact H|congruence].
    + rewrite Forall_forall in F. now apply F.
Qed.

Lemma sort_date_desc_sorted (l : list (string * float)) :
  StronglySorted (fun a b => (fst b <=? fst a)%string = true) (sort_date_desc l).
Proof.
  induction l as [|x l IH]; simpl; [constructor|]. now apply insert_date_desc_sorted.
Qed.

Lemma candidates_In (d s : string) (r : float) (h : list entry) :
  In (s, r) (candidates d h) <-> In (Date s, r) h /\ (s <=? d)%string = true.
Proof.
  unfold candidates. rewrite in_flat_map. split.
  - intros ([dt x] & Hin & H). simpl in H. destruct dt as [| |s']; try destruct H.
    destruct (s' <=? d)%string eqn:E; [|destruct H].
    destruct H as [H|[]]. injection H as <- <-. auto.
  - intros [Hin E]. exists (Date s, r). split; [exact Hin|]. simpl. rewrite E. now left.
Qed.

Lemma dates_of_unique (h : list entry) (s : string) (r r' : float) :
  NoDup (dates_of h) -> In (Date s, r) h -> In (Date s, r') h -> r = r'.
Proof.
  induction h as [|[dt x] h IH]; intros N H1 H2; [destruct H1|].
  unfold dates_of in N. simpl in N. fold (dates_of h) in N.
  assert (Hs : forall y, In (Date s, y) h -> In s (dates_of h)).
  { intros y Hy. apply (in_group_dates s (Date s, y) h Hy).
    unfold in_group; simpl. apply String.eqb_refl. }
  destruct H1 as [E1|H1], H2 as [E2|H2].
  - congruence.
  - injection E1 as -> ->. simpl in N. inversion N; subst. exfalso. eauto.
  - injection E2 as -> ->. simpl in N. inversion N; subst. exfalso. eauto.
  - apply IH; auto. destruct dt; simpl in N; auto. now inversion N.
Qed.

(** The part of C1 the code keeps: on a history with at most one entry per
    date (and no nan rating), the lookup answers the rating of the latest
    entry dated on or before the query. *)
Lemma get_rating_as_of_date_latest (p : Player) (d : string) (default_rating : float)
    (s : string) (r : float) :
  NoDup (dates_of (rating_history p)) ->
  (forall e, In e (rating_history p) -> PrimFloat.is_nan (snd e) = false) ->
  In (Date s, r) (rating_history p) ->
  (s <=? d)%string = true ->
  (forall s' r', In (Date s', r') (rating_history p) -> (s' <=? d)%string = true ->
                 (s' <=? s)%string = true) ->
  get_rating_as_of_date p d default_rating = r.
Proof.
  intros N Hn Hin Hd Hmax. unfold get_rating_as_of_date. cbv zeta.
  pose proof (rank_column_alone (rating_history p) [] [] (fun g H => H) N Hn) as A.
  simpl app in A. unfold entry in *.
  rewrite candidates_of_ranked, A, candidates_dated.
  pose proof (sort_date_desc_perm (candidates d (rating_history p))) as P.
  pose proof (sort_date_desc_sorted (candidates d (rating_history p))) as S.
  assert (Hc : In (s, r) (sort_date_desc (candidates d (rating_history p)))).
  { apply (Permutation_in _ (Permutation_sym P)). apply candidates_In. auto. }
  destruct (sort_date_desc (candidates d (rating_history p))) as [|[s1 r1] l];
    [destruct Hc|].
  assert (H1 : In (s1, r1) (candidates d (rating_history p)))
    by (apply (Permutation_in _ P); now left).
  apply candidates_In in H1. destruct H1 as [H1 E1].
  assert (E : s1 = s).
  { apply String.leb_antisym; [now apply (Hmax s1 r1)|].
    destruct Hc as [Hc|Hc]; [injection Hc as -> _; now destruct (String.leb_total s s)|].
    inversion S as [|? ? _ F]; subst. rewrite Forall_forall in F.
    exact (F (s, r) Hc). }
  subst s1. exact (dates_of_unique _ s r1 r N H1 Hin).
Qed.

(** ** Player: comparison operators *)

Lemma sorted_after {A} (R : A -> A -> Prop) (l1 l2 : list A) (x : A) :
  StronglySorted R (l1 ++ x :: l2) -> forall y, In y l2 -> R x y.
Proof.
  induction l1 as [|a l1 IH]; simpl; intros S y Hy.
  - inversion S as [|? ? _ F]; subst. rewrite Forall_forall in F. now apply F.
  - inversion S as [|? ? S' _]; subst. now apply IH.
Qed.

(** In a sorted list, of two elements that are not in order the second is
    listed first. *)
Lemma listed_before {A} (R : A -> A -> Prop) (l : list A) (a b : A) :
  StronglySorted R l -> In a l -> In b l -> a <> b -> ~ R a b ->
  exists l1 l2 l3, l = l1 ++ b :: l2 ++ a :: l3.
Proof.
  intros S Ha Hb Hne Hr. apply in_split in Ha. destruct Ha as (l1 & l2 & ->).
  apply in_app_or in Hb. destruct Hb as [Hb|[Hb|Hb]].
  - apply in_split in Hb. destruct Hb as (m1 & m2 & ->).
    exists m1, m2, l2. now rewrite <- app_assoc.
  - now subst.
  - exfalso. apply Hr. exact (sorted_after R l1 l2 a S b Hb).
Qed.

(** C9, as the code has it.  [Player] defines [==], [<], [<=], [>] and [>=]
    against a bare number as the comparison of its rating with the number;
    against another player the same operators compare the two ratings, so
    comparing with a player and comparing with that player's rating agree,
    and [p < q] is [q > p]; ordering against any other object is unsupported.
    [get_current_ratings] sorts the column of players, that is with [<] on
    players: on a frame of at most 17 players without a nan rating, of two
    players of the frame with [p < q] the standings list [q] before [p]. *)
Theorem C9_player_comparisons (p q : Player) (x : float) (t : Tracker) (kp kq : string) :
  (Player_eq p (Num x) = Some (PrimFloat.eqb (rating p) x)
   /\ Player_lt p (Num x) = Some (PrimFloat.ltb (rating p) x)
   /\ Player_le p (Num x) = Some (PrimFloat.leb (rating p) x)
   /\ Player_gt p (Num x) = Some (PrimFloat.ltb x (rating p))
   /\ Player_ge p (Num x) = Some (PrimFloat.leb x (rating p)))
  /\ (Player_lt p (Obj q) = Player_lt p (Num (rating q))
      /\ Player_le p (Obj q) = Player_le p (Num (rating q))
      /\ Player_gt p (Obj q) = Player_gt p (Num (rating q))
      /\ Player_ge p (Obj q) = Player_ge p (Num (rating q))
      /\ Player_lt p (Obj q) = Player_gt q (Obj p)
      /\ Player_le p (Obj q) = Player_ge q (Obj p))
  /\ (Player_lt p Other = None /\ Player_le p Other = None
      /\ Player_gt p Other = None /\ Player_ge p Other = None)
  /\ (player_ge p q <-> PrimFloat.ltb (rating p) (rating q) = false)
  /\ (List.length (player_df t) <= 17 ->
      (forall k r, In (k, r) (player_df t) -> PrimFloat.is_nan (rating r) = false) ->
      In (kp, p) (player_df t) -> In (kq, q) (player_df t) ->
      Player_lt p (Obj q) = Some true ->
      exists l1 l2 l3,
        map (fun s => (player_id s, rating_col s))
            (get_current_ratings (nargsort_desc_small player_ltb) t)
        = l1 ++ (kq, rating q) :: l2 ++ (kp, rating p) :: l3).
Proof.
  split; [repeat split|split; [repeat split|split; [repeat split|split]]].
  - unfold player_ge, Player_lt. split; intro H.
    + now injection H.
    + now rewrite H.
  - intros _ Hn Hp Hq Hlt.
    assert (L : PrimFloat.ltb (rating p) (rating q) = true).
    { unfold Player_lt in Hlt.
      now destruct (PrimFloat.ltb (rating p) (rating q)). }
    destruct (sort_values_player (player_df t)) as (Pr & _ & So). specialize (So Hn).
    rewrite get_current_ratings_eq.
    set (rows := take (player_df t) (nargsort_desc_small player_ltb (map snd (player_df t))))
      in *.
    destruct (numbered_standings 1 rows) as (H1 & _ & _). simpl in H1.
    assert (E : map (fun s => (player_id s, rating_col s))
                  (map (fun ix : nat * (string * Player * float * Z) =>
                          {| rank := fst ix;
                             player_id := fst (fst (fst (snd ix)));
                             n_games := snd (snd ix);
                             rating_col := snd (fst (snd ix)) |})
                       (combine
                          (seq 1 (List.length
                                    (map (fun row => (row, rating (snd row),
                                                      count_games (snd row))) rows)))
                          (map (fun row => (row, rating (snd row), count_games (snd row)))
                               rows)))
                = map (fun row => (fst row, rating (snd row))) rows).
    { apply (f_equal (map (fun tr : string * Z * float => (fst (fst tr), snd tr)))) in H1.
      rewrite !map_map in H1. simpl in H1. rewrite map_map. exact H1. }
    rewrite E.
    destruct (listed_before _ rows (kp, p) (kq, q) So) as (l1 & l2 & l3 & Hl).
    + exact (Permutation_in _ (Permutation_sym Pr) Hp).
    + exact (Permutation_in _ (Permutation_sym Pr) Hq).
    + intro Heq. injection Heq as _ ->. rewrite float_ltb_irrefl in L. discriminate.
    + simpl. rewrite L. discriminate.
    + exists (map (fun row => (fst row, rating (snd row))) l1),
             (map (fun row => (fst row, rating (snd row))) l2),
             (map (fun row => (fst row, rating (snd row))) l3).
      rewrite Hl, map_app. simpl. rewrite map_app. reflexivity.
Qed.

(** C9 as stated fails: a player is ordered and compared against a bare
    number, by its operators. *)
Lemma C9_counterexample :
  Player_lt (Player_init "A" 1000 None PyNone) (Num 1500) = Some true
  /\ Player_ge (Player_init "A" 1000 None PyNone) (Num 1500) = Some false
  /\ Player_eq (Player_init "A" 1000 None PyNone) (Num 1000) = Some true.
Proof. repeat split. Qed.

(** * Further properties of the code *)

(** ** Tracker: construction and validation *)

Lemma insert_by_id_sorted (row : string * Player) (df : list (string * Player)) :
  StronglySorted (fun a b => (fst a <=? fst b)%string = true) df ->
  StronglySorted (fun a b => (fst a <=? fst b)%string = true) (insert_by_id row df).
Proof.
  induction 1 as [|y df S IH F]; simpl; [repeat constructor|].
  destruct (fst row <=? fst y)%string eqn:E.
  - constructor; [now constructor|]. constructor; [exact E|].
    eapply Forall_impl; [|exact F]. intros z Hz. now apply (string_leb_trans _ (fst y)).
  - constructor; [exact IH|].
    apply Forall_forall. intros z Hz.
    apply (Permutation_in _ (insert_by_id_perm row df)) in Hz.
    destruct Hz as [<-|Hz].
    + destruct (String.leb_total (fst row) (fst y)) as [H|H]; [congruence|exact H].
    + rewrite Forall_forall in F. now apply F.
Qed.

Lemma sort_by_id_sorted (df : list (string * Player)) :
  StronglySorted (fun a b => (fst a <=? fst b)%string = true) (sort_by_id df).
Proof.
  induction df as [|row df IH]; simpl; [constructor|]. now apply insert_by_id_sorted.
Qed.

Lemma sort_by_id_frame_ok (t : Tracker) (df : list (string * Player)) :
  NoDup (map fst df) -> frame_ok (set_player_df t (sort_by_id df)).
Proof.
  intro N. unfold frame_ok, ids; simpl. split.
  - apply (Permutation_NoDup (l := map fst df)); [|exact N].
    apply Permutation_map, Permutation_sym, sort_by_id_perm.
  - apply (proj2 (StronglySorted_map fst (fun a b => (a <=? b)%string = true) _)).
    apply sort_by_id_sorted.
Qed.

(** X1.  [Tracker(elo_rater, initial_rating, player_df)] raises "Player IDs
    must be unique" exactly when the frame it is given lists an ID twice.
    Otherwise the tracker holds the given rows, each once, in ascending
    order of ID, with the rater and the initial rating it was given and
    nothing logged; without a frame it starts empty. *)
Theorem Tracker_init_validates (elo_rater : list float -> option (list float))
    (initial_rating : float) (df : list (string * Player)) :
  (NoDup (map fst df) ->
   exists t, Tracker_init elo_rater initial_rating (Some df) = inr t
             /\ Permutation (player_df t) df
             /\ frame_ok t
             /\ elo t = elo_rater
             /\ initial_player_rating t = initial_rating
             /\ logger t = [])
  /\ ((NoDup (map fst df) -> False) ->
      Tracker_init elo_rater initial_rating (Some df) = inl IdsNotUnique)
  /\ Tracker_init elo_rater initial_rating None = inr (empty_tracker elo_rater initial_rating).
Proof.
  split; [|split; [|reflexivity]].
  - intro N. unfold Tracker_init, _validate_player_df.
    replace (is_unique _) with true by (symmetry; now apply is_unique_NoDup).
    eexists. split; [reflexivity|]. simpl. split; [apply sort_by_id_perm|].
    split; [|auto].
    exact (sort_by_id_frame_ok _ df N).
  - intro N. unfold Tracker_init, _validate_player_df.
    destruct (is_unique _) eqn:E; [|reflexivity].
    exfalso. apply N. now apply is_unique_NoDup.
Qed.

(** ** Tracker: registering and looking up *)

Lemma players_with_id_absent (k : string) (t : Tracker) :
  ~ In k (ids t) -> players_with_id k t = [].
Proof.
  unfold players_with_id, ids. intro H. rewrite filter_none; [reflexivity|].
  intros [k' p] Hin. simpl. apply String.eqb_neq. intros ->.
  apply H. now apply (in_map fst _ (k, p)).
Qed.

Lemma players_with_id_unique (k : string) (p : Player) (t : Tracker) :
  NoDup (ids t) -> In (k, p) (player_df t) -> players_with_id k t = [p].
Proof.
  unfold players_with_id, ids.
  induction (player_df t) as [|[k' p'] df IH]; intros N Hin; [destruct Hin|].
  simpl in N. inversion N as [|? ? Nin N']; subst. simpl.
  destruct Hin as [E|Hin].
  - injection E as -> ->. rewrite String.eqb_refl. simpl. f_equal.
    rewrite filter_none; [reflexivity|].
    intros [k0 p0] H0. simpl. apply String.eqb_neq. intros ->.
    apply Nin. now apply (in_map fst _ (k, p0)).
  - destruct (String.eqb_spec k' k) as [->|_]; [|now apply IH].
    exfalso. apply Nin. now apply (in_map fst _ (k, p)).
Qed.

Lemma players_with_id_new (k : string) (t : Tracker) :
  ~ In k (ids t) -> NoDup (ids t) ->
  players_with_id k (with_new_player t k) = [new_player t k]
  /\ forall k', k' <> k -> players_with_id k' (with_new_player t k) = players_with_id k' t.
Proof.
  intros Hout N.
  pose proof (ids_with_new_player t k) as P.
  assert (N1 : NoDup (ids (with_new_player t k))).
  { apply (Permutation_NoDup (Permutation_sym P)). now constructor. }
  assert (Pf : Permutation (player_df (with_new_player t k))
                 (player_df t ++ [(k, new_player t k)])) by apply sort_by_id_perm.
  split.
  - apply players_with_id_unique; [exact N1|].
    apply (Permutation_in _ (Permutation_sym Pf)), in_or_app. right. now left.
  - intros k' Hk'. destruct (in_dec string_dec k' (ids t)) as [Hin|Hout'].
    + destruct (players_with_id_found k' t Hin) as (p & rest & _ & Hp).
      rewrite (players_with_id_unique k' p t N Hp).
      apply players_with_id_unique; [exact N1|].
      apply (Permutation_in _ (Permutation_sym Pf)), in_or_app. now left.
    + rewrite (players_with_id_absent k' t Hout'). apply players_with_id_absent.
      intro H. apply (Permutation_in _ P) in H. destruct H as [H|H]; [now subst|tauto].
Qed.

Lemma retrieve_existing_player_eq (k : string) (t : Tracker) :
  retrieve_existing_player k t
  = (if mem k (ids t)
     then match players_with_id k t with
          | player :: _ => inr player
          | [] => inl IndexError
          end
     else inl (NoPlayerFound k), t).
Proof.
  unfold retrieve_existing_player, bind, gets, ret, raise.
  destruct (mem k (ids t)); [|reflexivity]. now destruct (players_with_id k t).
Qed.

(** X2.  In a frame with unique IDs, [_get_or_create_player] returns a
    player under the ID it was asked for; looking that ID up afterwards, or
    asking for it again, returns the same player and changes nothing more;
    and every other ID resolves as it did before. *)
Theorem get_or_create_then_retrieve (k : string) (t : Tracker) :
  NoDup (ids t) ->
  exists p t',
    _get_or_create_player k t = (inr p, t')
    /\ retrieve_existing_player k t' = (inr p, t')
    /\ _get_or_create_player k t' = (inr p, t')
    /\ NoDup (ids t')
    /\ forall k', k' <> k ->
         fst (retrieve_existing_player k' t') = fst (retrieve_existing_player k' t).
Proof.
  intro N. destruct (in_dec string_dec k (ids t)) as [Hin|Hout].
  - destruct (get_or_create_existing k t Hin) as (p & E & _).
    destruct (retrieve_existing_player_found k t Hin) as (p' & E' & _).
    assert (p' = p).
    { apply mem_In in Hin. unfold _get_or_create_player, bind, gets in E.
      rewrite Hin in E. congruence. }
    subst p'. exists p, t. auto.
  - exists (new_player t k), (with_new_player t k).
    pose proof (ids_with_new_player t k) as P.
    destruct (players_with_id_new k t Hout N) as [Hk Hothers].
    assert (Hin : In k (ids (with_new_player t k)))
      by (apply (Permutation_in _ (Permutation_sym P)); now left).
    assert (R : retrieve_existing_player k (with_new_player t k)
                = (inr (new_player t k), with_new_player t k)).
    { rewrite retrieve_existing_player_eq, Hk. apply mem_In in Hin. now rewrite Hin. }
    split; [now apply get_or_create_new|]. split; [exact R|]. split; [|split].
    + apply mem_In in Hin. unfold _get_or_create_player, bind, gets.
      now rewrite Hin.
    + apply (Permutation_NoDup (Permutation_sym P)). now constructor.
    + intros k' Hk'. rewrite !retrieve_existing_player_eq. simpl.
      rewrite (Hothers k' Hk').
      assert (M : mem k' (ids (with_new_player t k)) = mem k' (ids t)).
      { destruct (mem k' (ids t)) eqn:M.
        - apply mem_In. apply (Permutation_in _ (Permutation_sym P)). right.
          now apply mem_In.
        - apply mem_false. intro H. apply (Permutation_in _ P) in H.
          apply mem_false in M. destruct H as [H|H]; [now subst|tauto]. }
      now rewrite M.
Qed.

(** X2 on the frame of A and B: asking for C registers it, and A is found
    as before. *)
Lemma get_or_create_then_retrieve_witness :
  NoDup (ids two_tied)
  /\ exists p t',
       _get_or_create_player "C" two_tied = (inr p, t')
       /\ retrieve_existing_player "C" t' = (inr p, t')
       /\ _get_or_create_player "C" t' = (inr p, t')
       /\ NoDup (ids t')
       /\ forall k', k' <> "C" ->
            fst (retrieve_existing_player k' t') = fst (retrieve_existing_player k' two_tied).
Proof.
  assert (N : NoDup (ids two_tied)).
  { simpl. repeat constructor; simpl; intuition discriminate. }
  split; [exact N|]. exact (get_or_create_then_retrieve "C" two_tied N).
Defined.

(** ** Tracker: what processing keeps, whatever its outcome *)

Lemma record_results_app (p : Player) (a b : list (float * date)) :
  record_results (record_results p a) b = record_results p (a ++ b).
Proof. unfold record_results. now rewrite fold_left_app. Qed.

Lemma record_results_id (results : list (float * date)) (p : Player) :
  id (record_results p results) = id p.
Proof.
  revert p; induction results as [|u us IH]; intro p; simpl; [reflexivity|].
  unfold record_results in *. simpl. now rewrite IH.
Qed.

Lemma updated_refl (row : string * Player) : updated row row.
Proof. split; [reflexivity|]. now exists []. Qed.

Lemma updated_trans (a b c : string * Player) : updated a b -> updated b c -> updated a c.
Proof.
  intros [E1 (u1 & H1)] [E2 (u2 & H2)]. split; [congruence|].
  exists (u1 ++ u2). now rewrite H2, H1, record_results_app.
Qed.

Lemma updated_keys (df df' : list (string * Player)) :
  Forall2 updated df df' -> map fst df' = map fst df.
Proof.
  induction 1 as [|a b l l' Hab F IH]; simpl; [reflexivity|].
  destruct Hab as [E _]. now rewrite E, IH.
Qed.

Lemma Forall2_In_l {A} (R : A -> A -> Prop) (l l' : list A) (x : A) :
  Forall2 R l l' -> In x l -> exists y, In y l' /\ R x y.
Proof.
  induction 1 as [|a b l l' Hab F IH]; simpl; [tauto|].
  intros [E|H].
  - subst. eauto.
  - destruct (IH H) as (y & Hy & Hr). eauto.
Qed.

Lemma update_player_updated (k : string) (r : float) (d : date)
    (df : list (string * Player)) :
  Forall2 updated df (update_player k r d df).
Proof.
  induction df as [|row df IH]; simpl; [constructor|].
  destruct (String.eqb (fst row) k).
  - constructor.
    + split; [reflexivity|]. now exists [(r, d)].
    + apply Forall2_same. intros x _. apply updated_refl.
  - constructor; [apply updated_refl|exact IH].
Qed.

Lemma update_players_any (d : date) (new_ratings : list float) (names : list string) :
  forall (i : nat) (t : Tracker) res (t' : Tracker),
    update_players d new_ratings i names t = (res, t') ->
    Forall2 updated (player_df t) (player_df t')
    /\ elo t' = elo t
    /\ initial_player_rating t' = initial_player_rating t
    /\ logger t' = logger t.
Proof.
  induction names as [|k names IH]; intros i t res t' H; simpl in H.
  - injection H as _ <-. split; [|auto].
    apply Forall2_same. intros x _. apply updated_refl.
  - destruct (nth_error new_ratings i) as [r|].
    + unfold bind, modify in H. apply IH in H. simpl in H.
      destruct H as (F & H). split; [|exact H].
      eapply Forall2_compose; [exact updated_trans| |exact F].
      apply update_player_updated.
    + injection H as _ <-. split; [|auto].
      apply Forall2_same. intros x _. apply updated_refl.
Qed.

(** One row of the loop, whatever its outcome: the names the tracker did
    not know are registered, then results are recorded. *)
Lemma process_row_any (r : Row) (t : Tracker) res (t' : Tracker) :
  NoDup (ids t) ->
  process_row r t = (res, t') ->
  exists created,
    (forall k, In k created -> In k (present r) /\ ~ In k (ids t))
    /\ NoDup created
    /\ Forall2 updated (player_df (register t created)) (player_df t')
    /\ elo t' = elo t
    /\ initial_player_rating t' = initial_player_rating t.
Proof.
  intros N H.
  destruct (get_or_create_all (present r) t N) as (players & created & E & C1 & C2 & _).
  destruct (register_fields created t) as [Fe Fi].
  exists created. split; [exact C1|]. split; [exact C2|].
  unfold process_row, bind in H. rewrite E in H. unfold gets at 1 in H.
  destruct (elo (register t created) (map rating players)) as [new_ratings|].
  - destruct (update_players (row_date r) new_ratings 0 (present r) (register t created))
      as [res2 t2] eqn:U.
    destruct (update_players_any _ _ _ _ _ _ _ U) as (F & Ue & Ui & _).
    destruct res2 as [e|[]].
    + injection H as _ <-. split; [exact F|]. split; congruence.
    + unfold gets, log, modify in H. injection H as _ <-. simpl.
      split; [exact F|]. split; congruence.
  - injection H as _ <-. split; [|auto].
    apply Forall2_same. intros x _. apply updated_refl.
Qed.

Lemma register_frame_ok (created : list string) :
  forall t, frame_ok t -> NoDup created -> (forall k, In k created -> ~ In k (ids t)) ->
    frame_ok (register t created).
Proof.
  induction created as [|k created IH]; intros t F N H; simpl; [exact F|].
  inversion N as [|? ? Nin N']; subst.
  pose proof (ids_with_new_player t k) as P.
  apply IH; [|exact N'|].
  - destruct F as [Fn _]. unfold frame_ok, ids, with_new_player. simpl.
    apply (sort_by_id_frame_ok t).
    rewrite map_app. simpl.
    apply (Permutation_NoDup (l := k :: map fst (player_df t))).
    + rewrite Permutation_app_comm. reflexivity.
    + constructor; [|exact Fn]. apply H. now left.
  - intros k' Hk' Hin. apply (Permutation_in _ P) in Hin.
    destruct Hin as [<-|Hin]; [exact (Nin Hk')|]. apply (H k'); [now right|exact Hin].
Qed.

Lemma evolves_refl (t : Tracker) : evolves t t.
Proof.
  split; [reflexivity|]. split; [reflexivity|]. split.
  - intros k p H. now exists [].
  - intros k p H. exists p, []. auto.
Qed.

Lemma evolves_trans (t1 t2 t3 : Tracker) : evolves t1 t2 -> evolves t2 t3 -> evolves t1 t3.
Proof.
  intros (E1 & I1 & A1 & B1) (E2 & I2 & A2 & B2).
  split; [congruence|]. split; [congruence|]. split.
  - intros k p H. destruct (A1 k p H) as (u1 & H1). destruct (A2 _ _ H1) as (u2 & H2).
    exists (u1 ++ u2). now rewrite <- record_results_app.
  - intros k p3 H. destruct (B2 k p3 H) as (p2 & u2 & -> & [H2|[H2 ->]]).
    + destruct (B1 k p2 H2) as (p1 & u1 & -> & H1).
      exists p1, (u1 ++ u2). now rewrite record_results_app.
    + exists (new_player t1 k), u2. split.
      * unfold new_player. now rewrite I1.
      * right. split; [|reflexivity]. intro Hin. apply H2.
        unfold ids in *. apply in_map_iff in Hin. destruct Hin as ([k' p] & <- & Hp).
        destruct (A1 k' p Hp) as (u & Hu).
        exact (in_map fst _ (k', record_results p u) Hu).
Qed.

Lemma process_row_evolves (r : Row) (t : Tracker) res (t' : Tracker) :
  frame_ok t -> process_row r t = (res, t') -> frame_ok t' /\ evolves t t'.
Proof.
  intros F H. destruct (process_row_any r t res t' (proj1 F) H)
    as (created & C1 & C2 & U & Fe & Fi).
  pose proof (register_frame_ok created t F C2 (fun k Hk => proj2 (C1 k Hk))) as F1.
  pose proof (register_frame created t) as P.
  split.
  - unfold frame_ok, ids in *. now rewrite (updated_keys _ _ U).
  - split; [exact Fe|]. split; [exact Fi|]. split.
    + intros k p Hin.
      assert (H1 : In (k, p) (player_df (register t created)))
        by (apply (Permutation_in _ (Permutation_sym P)), in_or_app; now left).
      destruct (Forall2_In_l _ _ _ _ U H1) as ([k' p'] & Hp' & E & u & Hu).
      simpl in E, Hu. subst. now exists u.
    + intros k p' Hin.
      destruct (Forall2_In_r _ _ _ _ U Hin) as ([k1 p] & Hp & E & u & Hu).
      simpl in E, Hu. subst k1. exists p, u. split; [exact Hu|].
      apply (Permutation_in _ P), in_app_or in Hp. destruct Hp as [Hp|Hp]; [now left|].
      apply in_map_iff in Hp. destruct Hp as (k' & E & Hk'). injection E as -> <-.
      right. split; [now destruct (C1 k Hk')|reflexivity].
Qed.

Lemma process_rows_evolves (rows : list Row) :
  forall (t : Tracker) res (t' : Tracker),
    frame_ok t -> process_rows rows t = (res, t') -> frame_ok t' /\ evolves t t'.
Proof.
  induction rows as [|r rows IH]; intros t res t' F H; simpl in H.
  - injection H as _ <-. split; [exact F|apply evolves_refl].
  - unfold bind in H. destruct (process_row r t) as [res1 t1] eqn:E.
    destruct (process_row_evolves r t res1 t1 F E) as [F1 E1].
    destruct res1 as [e|[]].
    + injection H as _ <-. auto.
    + destruct (IH t1 res t' F1 H) as [F' E']. split; [exact F'|].
      now apply (evolves_trans t t1 t').
Qed.

Lemma process_data_evolves (argsort_date : list date -> list nat) (rows : list Row)
    (t : Tracker) res (t' : Tracker) :
  frame_ok t -> process_data argsort_date rows t = (res, t') ->
  frame_ok t' /\ evolves t t'.
Proof. intros F H. exact (process_rows_evolves _ t res t' F H). Qed.

(** Any number of calls, whatever they return. *)
Lemma processed_evolves (t0 t : Tracker) :
  frame_ok t0 -> processed t0 t -> frame_ok t /\ evolves t0 t.
Proof.
  intro F. induction 1 as [|argsort_date rows t P [F1 E1]].
  - split; [exact F|apply evolves_refl].
  - destruct (process_data_evolves argsort_date rows t _ _ F1 (surjective_pairing _))
      as [F2 E2].
    split; [exact F2|]. now apply (evolves_trans t0 t).
Qed.

Lemma empty_frame_ok (elo_rater : list float -> option (list float)) (r0 : float) :
  frame_ok (empty_tracker elo_rater r0).
Proof. split; constructor. Qed.

(** X3.  Whatever [process_data] returns, also when it stops on an
    exception, it leaves the frame with unique IDs in ascending order, with
    every ID it had, and leaves the rater and the initial rating as they
    were. *)
Theorem process_data_keeps_frame (argsort_date : list date -> list nat) (rows : list Row)
    (t : Tracker) (res : error + unit) (t' : Tracker) :
  frame_ok t ->
  process_data argsort_date rows t = (res, t') ->
  frame_ok t'
  /\ elo t' = elo t
  /\ initial_player_rating t' = initial_player_rating t
  /\ forall k, In k (ids t) -> In k (ids t').
Proof.
  intros F H. destruct (process_data_evolves _ _ _ _ _ F H) as (F' & E & I & A & _).
  split; [exact F'|]. split; [exact E|]. split; [exact I|].
  intros k Hk. unfold ids in *. apply in_map_iff in Hk.
  destruct Hk as ([k' p] & <- & Hp). destruct (A k' p Hp) as (u & Hu).
  exact (in_map fst _ (k', record_results p u) Hu).
Qed.

(** X3 on a run that stops: the second matchup has one player, the rater
    refuses it, and the frame is in order with A, B and C. *)
Lemma process_data_keeps_frame_witness :
  frame_ok (empty_tracker linear_elo 1000)
  /\ process_data stable_argsort_date refused_second (empty_tracker linear_elo 1000)
     = (inl RaterError,
        snd (process_data stable_argsort_date refused_second (empty_tracker linear_elo 1000)))
  /\ ids (snd (process_data stable_argsort_date refused_second
                 (empty_tracker linear_elo 1000)))
     = ["A"; "B"; "C"]
  /\ frame_ok (snd (process_data stable_argsort_date refused_second
                      (empty_tracker linear_elo 1000))).
Proof.
  assert (F : frame_ok (empty_tracker linear_elo 1000)) by (split; constructor).
  assert (H : process_data stable_argsort_date refused_second (empty_tracker linear_elo 1000)
              = (inl RaterError,
                 snd (process_data stable_argsort_date refused_second
                        (empty_tracker linear_elo 1000)))).
  { rewrite (surjective_pairing (process_data _ _ _)) at 1. f_equal. }
  split; [exact F|]. split; [exact H|]. split; [vm_compute; reflexivity|].
  exact (proj1 (process_data_keeps_frame _ _ _ _ _ F H)).
Defined.

(** X4.  [process_data] never removes a player and never removes or
    reorders a history entry, also when it stops on an exception: every
    player of the frame is still there afterwards, under its ID, and its
    history is the one it had followed by the entries recorded since. *)
Theorem process_data_appends_only (argsort_date : list date -> list nat) (rows : list Row)
    (t : Tracker) (res : error + unit) (t' : Tracker) :
  frame_ok t ->
  process_data argsort_date rows t = (res, t') ->
  forall k p, In (k, p) (player_df t) ->
    exists p' added,
      In (k, p') (player_df t')
      /\ id p' = id p
      /\ rating_history p' = rating_history p ++ added.
Proof.
  intros F H k p Hin.
  destruct (process_data_evolves _ _ _ _ _ F H) as (_ & _ & _ & A & _).
  destruct (A k p Hin) as (u & Hu).
  exists (record_results p u), (map (fun x => (snd x, fst x)) u).
  split; [exact Hu|]. split; [apply record_results_id|apply record_results_history].
Qed.

(** X4 on a frame with A and B and a run that stops on its second
    matchup: A and B keep their creation entry and have the result of the
    first matchup after it. *)
Lemma process_data_appends_only_witness :
  frame_ok two_tied
  /\ process_data stable_argsort_date refused_second two_tied
     = (inl RaterError, snd (process_data stable_argsort_date refused_second two_tied))
  /\ forall k p, In (k, p) (player_df two_tied) ->
       exists p' added,
         In (k, p') (player_df (snd (process_data stable_argsort_date refused_second two_tied)))
         /\ id p' = id p
         /\ rating_history p' = rating_history p ++ added.
Proof.
  assert (F : frame_ok two_tied).
  { split; simpl; repeat constructor; simpl; intuition discriminate. }
  assert (H : process_data stable_argsort_date refused_second two_tied
              = (inl RaterError,
                 snd (process_data stable_argsort_date refused_second two_tied))).
  { rewrite (surjective_pairing (process_data _ _ _)) at 1. f_equal. }
  split; [exact F|]. split; [exact H|].
  exact (process_data_appends_only _ _ _ _ _ F H).
Defined.

Lemma new_player_in_sync (t : Tracker) (k : string) : rating_in_sync (new_player t k).
Proof. reflexivity. Qed.

(** X5.  In a tracker that started empty, after any number of
    [process_data] calls, whatever they returned (also an exception), the
    live rating of every player is the rating of its last history entry. *)
Theorem process_data_keeps_sync (elo_rater : list float -> option (list float))
    (r0 : float) (t : Tracker) :
  processed (empty_tracker elo_rater r0) t ->
  forall k p, In (k, p) (player_df t) -> rating_in_sync p.
Proof.
  intros P k p Hin.
  destruct (processed_evolves _ t (empty_frame_ok elo_rater r0) P) as (_ & _ & _ & _ & B).
  destruct (B k p Hin) as (p0 & u & -> & [[]|[_ ->]]).
  apply record_results_in_sync, new_player_in_sync.
Qed.

(** X5 after a call that stops: the second matchup has one player and the
    rater refuses it. *)
Lemma process_data_keeps_sync_witness :
  processed (empty_tracker linear_elo 1000)
    (snd (process_data stable_argsort_date refused_second (empty_tracker linear_elo 1000)))
  /\ fst (process_data stable_argsort_date refused_second (empty_tracker linear_elo 1000))
     = inl RaterError
  /\ forall k p,
       In (k, p) (player_df (snd (process_data stable_argsort_date refused_second
                                    (empty_tracker linear_elo 1000)))) ->
       rating_in_sync p.
Proof.
  assert (P : processed (empty_tracker linear_elo 1000)
                (snd (process_data stable_argsort_date refused_second
                        (empty_tracker linear_elo 1000)))).
  { apply processed_table, processed_nothing. }
  split; [exact P|]. split; [reflexivity|].
  exact (process_data_keeps_sync linear_elo 1000 _ P).
Defined.

(** ** Tracker: what one matchup writes *)

Lemma rating_of_new (k k' : string) (t : Tracker) :
  ~ In k (ids t) -> NoDup (ids t) ->
  rating_of (with_new_player t k) k' = rating_of t k'.
Proof.
  intros Hout N. destruct (players_with_id_new k t Hout N) as [Hk Hothers].
  unfold rating_of. destruct (String.eqb_spec k' k) as [->|NE].
  - now rewrite Hk, (players_with_id_absent k t Hout).
  - now rewrite (Hothers k' NE).
Qed.

(** Resolving the participants of a row, with the ratings that are read. *)
Lemma get_or_create_all_ratings (names : list string) :
  forall t, NoDup (ids t) ->
    exists players created,
      mapM _get_or_create_player names t = (inr players, register t created)
      /\ (forall k, In k created -> In k names /\ ~ In k (ids t))
      /\ NoDup created
      /\ (forall k, In k names -> In k (ids t) \/ In k created)
      /\ map rating players = map (rating_of t) names.
Proof.
  induction names as [|k names IH]; intros t N.
  - exists [], []. simpl. repeat split; auto; try tauto. constructor.
  - destruct (in_dec string_dec k (ids t)) as [Hin|Hout].
    + destruct (get_or_create_existing k t Hin) as (p & E & _ & Hh).
      destruct (IH t N) as (players & created & E' & C1 & C2 & C3 & C4).
      exists (p :: players), created. simpl. unfold bind. rewrite E, E'.
      split; [reflexivity|]. split; [|split; [exact C2|split]].
      * intros k' Hk'. destruct (C1 k' Hk'). auto.
      * intros k' [<-|Hk']; auto.
      * rewrite C4. f_equal. unfold rating_of.
        destruct (players_with_id k t); simpl in Hh; congruence.
    + pose proof (get_or_create_new k t Hout N) as E.
      pose proof (ids_with_new_player t k) as P.
      assert (N1 : NoDup (ids (with_new_player t k))).
      { apply (Permutation_NoDup (Permutation_sym P)). now constructor. }
      destruct (IH _ N1) as (players & created & E' & C1 & C2 & C3 & C4).
      exists (new_player t k :: players), (k :: created). simpl. unfold bind.
      rewrite E, E'. split; [reflexivity|]. split; [|split; [|split]].
      * intros k' [<-|Hk']; [auto|].
        destruct (C1 k' Hk') as [H1 H2]. split; [auto|].
        intro H. apply H2. apply (Permutation_in _ (Permutation_sym P)). now right.
      * constructor; [|exact C2]. intro H. destruct (C1 k H) as [_ H2].
        apply H2. apply (Permutation_in _ (Permutation_sym P)). now left.
      * intros k' [<-|Hk']; [right; now left|].
        destruct (C3 k' Hk') as [H|H]; [|right; now right].
        apply (Permutation_in _ P) in H. destruct H as [<-|H]; [right; now left|now left].
      * rewrite C4. f_equal.
        -- unfold rating_of. now rewrite (players_with_id_absent k t Hout).
        -- apply map_ext. intro k'. now apply rating_of_new.
Qed.

Lemma register_lookup (created : list string) (t : Tracker) (k : string) :
  NoDup (ids t) -> NoDup created -> (forall k', In k' created -> ~ In k' (ids t)) ->
  NoDup (ids (register t created))
  /\ (In k created -> players_with_id k (register t created) = [new_player t k])
  /\ (~ In k created -> players_with_id k (register t created) = players_with_id k t).
Proof.
  intros N C2 C1.
  pose proof (register_frame created t) as P.
  assert (N1 : NoDup (ids (register t created))).
  { apply (Permutation_NoDup (Permutation_sym (register_ids created t))).
    apply NoDup_app; [exact N|exact C2|]. intros k' Hk' Hc. exact (C1 k' Hc Hk'). }
  split; [exact N1|]. split.
  - intro Hk. apply players_with_id_unique; [exact N1|].
    apply (Permutation_in _ (Permutation_sym P)), in_or_app. right.
    apply in_map_iff. now exists k.
  - intro Hk. destruct (in_dec string_dec k (ids t)) as [Hin|Hout].
    + destruct (players_with_id_found k t Hin) as (p & rest & _ & Hp).
      rewrite (players_with_id_unique k p t N Hp).
      apply players_with_id_unique; [exact N1|].
      apply (Permutation_in _ (Permutation_sym P)), in_or_app. now left.
    + rewrite (players_with_id_absent k t Hout). apply players_with_id_absent.
      intro H. apply (Permutation_in _ (register_ids created t)), in_app_or in H. tauto.
Qed.

Lemma update_player_written (k : string) (r : float) (d : date) (new_ratings : list float)
    (i : nat) (df : list (string * Player)) :
  NoDup (map fst df) -> nth_error new_ratings i = Some r ->
  Forall2 (written d new_ratings i [k]) df (update_player k r d df).
Proof.
  intros N Hr. induction df as [|row df IH]; simpl; [constructor|].
  inversion N as [|? ? Nin N']; subst.
  assert (Hother : forall x : string * Player, fst x <> k -> written d new_ratings i [k] x x).
  { intros x Hx. split; [reflexivity|]. left. split; [|reflexivity].
    intros [E|[]]. now apply Hx. }
  destruct (String.eqb_spec (fst row) k) as [E|NE].
  - constructor.
    + split; [reflexivity|]. right. exists 0%nat, r. simpl.
      rewrite E, Nat.add_0_r. auto.
    + apply Forall2_same. intros x Hx. apply Hother. intros Ex.
      apply Nin. rewrite E, <- Ex. now apply in_map.
  - constructor; [now apply Hother|now apply IH].
Qed.

Lemma written_step (d : date) (new_ratings : list float) (i : nat) (k : string)
    (names : list string) (a b c : string * Player) :
  ~ In k names ->
  written d new_ratings i [k] a b -> written d new_ratings (S i) names b c ->
  written d new_ratings i (k :: names) a c.
Proof.
  intros Hk [E1 H1] [E2 H2]. split; [congruence|].
  destruct H1 as [[Ha Hb]|(j & x & Hj & Hx & Hb)];
    destruct H2 as [[Hc Hd]|(j' & x' & Hj' & Hx' & Hd)].
  - left. split; [|congruence]. rewrite E1 in Hc. intros [E|H]; [|tauto].
    apply Ha. now left.
  - right. exists (S j'), x'. simpl. rewrite <- E1, Hj'.
    rewrite Nat.add_succ_r. split; [reflexivity|]. split; [exact Hx'|congruence].
  - right. exists j, x. destruct j as [|j]; [|destruct j; discriminate].
    simpl in *. split; [exact Hj|]. split; [exact Hx|congruence].
  - exfalso. destruct j as [|j]; [|destruct j; discriminate].
    simpl in Hj. injection Hj as Hj. apply Hk. rewrite Hj, <- E1.
    now apply (nth_error_In _ j').
Qed.

Lemma written_keys (d : date) (new_ratings : list float) (i : nat) (names : list string)
    (df df' : list (string * Player)) :
  Forall2 (written d new_ratings i names) df df' -> map fst df' = map fst df.
Proof.
  induction 1 as [|a b l l' Hab F IH]; simpl; [reflexivity|].
  destruct Hab as [E _]. now rewrite E, IH.
Qed.

Lemma update_players_written (d : date) (new_ratings : list float) (names : list string) :
  forall (i : nat) (t t' : Tracker),
    NoDup names -> NoDup (ids t) ->
    update_players d new_ratings i names t = (inr tt, t') ->
    Forall2 (written d new_ratings i names) (player_df t) (player_df t').
Proof.
  induction names as [|k names IH]; intros i t t' Nn N H; simpl in H.
  - injection H as <-. apply Forall2_same. intros x _.
    split; [reflexivity|]. left. auto.
  - inversion Nn as [|? ? Nin Nn']; subst.
    destruct (nth_error new_ratings i) as [r|] eqn:Er; [|discriminate].
    unfold bind, modify in H.
    pose proof (update_player_written k r d new_ratings i (player_df t) N Er) as F1.
    apply IH in H; [|exact Nn'|].
    + simpl in H. eapply Forall2_compose; [|exact F1|exact H].
      intros a b c. now apply written_step.
    + unfold ids; simpl. rewrite (written_keys _ _ _ _ _ _ F1). exact N.
Qed.

(** One matchup of the loop, in a frame with unique IDs of which every row
    holds a player of its own, for a row that lists no ID twice. *)
Lemma process_row_written (r : Row) (t : Tracker) (new_ratings : list float) :
  NoDup (ids t) ->
  NoDup (present r) ->
  elo t (map (rating_of t) (present r)) = Some new_ratings ->
  List.length (present r) <= List.length new_ratings ->
  exists t',
    process_row r t = (inr tt, t')
    /\ (forall i k, nth_error (present r) i = Some k ->
        exists x p',
          nth_error new_ratings i = Some x
          /\ players_with_id k t' = [p']
          /\ rating p' = x
          /\ rating_history p' = history_of t k ++ [(row_date r, x)])
    /\ (forall k, ~ In k (present r) -> players_with_id k t' = players_with_id k t).
Proof.
  intros N Nn Hr Hl.
  destruct (get_or_create_all_ratings (present r) t N)
    as (players & created & E & C1 & C2 & C3 & C4).
  destruct (register_fields created t) as [Fe _].
  destruct (update_players_ok (row_date r) new_ratings (present r) 0 (register t created))
    as (t2 & U); [simpl; lia|].
  pose proof (fun k => register_lookup created t k N C2 (fun k' H => proj2 (C1 k' H))) as L.
  destruct (L "") as [N1 _].
  pose proof (update_players_written _ _ _ _ _ _ Nn N1 U) as W.
  assert (N2 : NoDup (ids t2)).
  { unfold ids. rewrite (written_keys _ _ _ _ _ _ W). exact N1. }
  assert (In1 : forall k, In k (present r) -> In k (ids (register t created))).
  { intros k Hk. apply (Permutation_in _ (Permutation_sym (register_ids created t))).
    apply in_or_app. now apply C3. }
  eexists. split; [|split].
  - unfold process_row, bind. rewrite E. unfold gets at 1. rewrite Fe, C4, Hr, U.
    unfold gets, log, modify. reflexivity.
  - intros i k Hi. match goal with |- context [players_with_id k ?T] =>
      change (players_with_id k T) with (players_with_id k t2) end.
    assert (Hk : In k (present r)) by (now apply (nth_error_In _ i)).
    destruct (players_with_id_found k _ (In1 k Hk)) as (p1 & rest & _ & Hp1).
    destruct (Forall2_In_l _ _ _ _ W Hp1) as ([k' p'] & Hp' & Ek & Hw).
    simpl in Ek, Hw. subst k'.
    destruct Hw as [[Hout _]|(j & x & Hj & Hx & Hp)]; [tauto|].
    assert (j = i).
    { apply (proj1 (NoDup_nth_error (present r)) Nn).
      - apply nth_error_Some. congruence.
      - congruence. }
    subst j. simpl in Hx. exists x, p'. split; [exact Hx|].
    split; [now apply players_with_id_unique|]. rewrite Hp. split; [reflexivity|].
    simpl. f_equal.
    pose proof (players_with_id_unique k p1 _ N1 Hp1) as H1.
    destruct (L k) as (_ & Lc & Ln). unfold history_of.
    destruct (in_dec string_dec k created) as [Hc|Hc].
    + rewrite (Lc Hc) in H1. injection H1 as <-.
      now rewrite (players_with_id_absent k t (proj2 (C1 k Hc))).
    + rewrite (Ln Hc) in H1. now rewrite H1.
  - intros k Hk. match goal with |- context [players_with_id k ?T] =>
      change (players_with_id k T) with (players_with_id k t2) end.
    destruct (L k) as (_ & _ & Ln).
    rewrite <- Ln by (intro Hc; now destruct (C1 k Hc)).
    destruct (in_dec string_dec k (ids (register t created))) as [Hin|Hout].
    + destruct (players_with_id_found k _ Hin) as (p1 & rest & _ & Hp1).
      rewrite (players_with_id_unique k p1 _ N1 Hp1).
      destruct (Forall2_In_l _ _ _ _ W Hp1) as ([k' p'] & Hp' & Ek & Hw).
      simpl in Ek, Hw. subst k'.
      destruct Hw as [[_ ->]|(j & x & Hj & _)].
      * now apply players_with_id_unique.
      * exfalso. apply Hk. now apply (nth_error_In _ j).
    + rewrite (players_with_id_absent k _ Hout). apply players_with_id_absent.
      unfold ids in *. now rewrite (written_keys _ _ _ _ _ _ W).
Qed.

(** X6.  One matchup of the loop of [process_data], in a tracker that
    started empty and has processed any number of tables, for a row that
    lists no ID twice.  The rater is given the ratings of the participants
    in placing order, the initial rating for those the tracker does not know
    yet.  When it returns at least as many ratings as there are
    participants, the matchup succeeds; the participant at place [i] then
    has the [i]-th new rating as its live rating, and its history is the one
    it had (the creation entry, for a new player) followed by one entry with
    the date of the row and that rating; every other player is as it was. *)
Theorem process_row_writes_back (elo_rater : list float -> option (list float))
    (r0 : float) (r : Row) (t : Tracker) (new_ratings : list float) :
  processed (empty_tracker elo_rater r0) t ->
  NoDup (present r) ->
  elo t (map (rating_of t) (present r)) = Some new_ratings ->
  List.length (present r) <= List.length new_ratings ->
  exists t',
    process_row r t = (inr tt, t')
    /\ (forall i k, nth_error (present r) i = Some k ->
        exists x p',
          nth_error new_ratings i = Some x
          /\ players_with_id k t' = [p']
          /\ rating p' = x
          /\ rating_history p' = history_of t k ++ [(row_date r, x)])
    /\ (forall k, ~ In k (present r) -> players_with_id k t' = players_with_id k t).
Proof.
  intros P Nn Hr Hl.
  destruct (processed_evolves _ t (empty_frame_ok elo_rater r0) P) as ([N _] & _).
  exact (process_row_written r t new_ratings N Nn Hr Hl).
Qed.

(** X6 on the second matchup of a tracker that started empty: B beats A,
    after A beat B. *)
Lemma process_row_writes_back_witness :
  processed (empty_tracker linear_elo 1000)
    (snd (process_data stable_argsort_date [a_beats_b] (empty_tracker linear_elo 1000)))
  /\ NoDup (present b_beats_a)
  /\ exists new_ratings t',
       elo (snd (process_data stable_argsort_date [a_beats_b]
                   (empty_tracker linear_elo 1000)))
           (map (rating_of (snd (process_data stable_argsort_date [a_beats_b]
                                   (empty_tracker linear_elo 1000))))
                (present b_beats_a))
       = Some new_ratings
       /\ process_row b_beats_a
            (snd (process_data stable_argsort_date [a_beats_b]
                    (empty_tracker linear_elo 1000)))
          = (inr tt, t')
       /\ (forall i k, nth_error (present b_beats_a) i = Some k ->
           exists x p',
             nth_error new_ratings i = Some x
             /\ players_with_id k t' = [p']
             /\ rating p' = x
             /\ rating_history p'
                = history_of (snd (process_data stable_argsort_date [a_beats_b]
                                     (empty_tracker linear_elo 1000))) k
                  ++ [(row_date b_beats_a, x)]).
Proof.
  assert (P : processed (empty_tracker linear_elo 1000)
                (snd (process_data stable_argsort_date [a_beats_b]
                        (empty_tracker linear_elo 1000)))).
  { apply processed_table, processed_nothing. }
  assert (Nn : NoDup (present b_beats_a)).
  { simpl. repeat constructor; simpl; intuition discriminate. }
  split; [exact P|]. split; [exact Nn|].
  destruct (process_row_writes_back linear_elo 1000 b_beats_a _
              (rate_from [] (map (rating_of (snd (process_data stable_argsort_date [a_beats_b]
                                                    (empty_tracker linear_elo 1000))))
                                 (present b_beats_a)))
              P Nn eq_refl) as (t' & H1 & H2 & _).
  - rewrite rate_from_length, length_map. lia.
  - eexists. exists t'. split; [reflexivity|]. split; [exact H1|exact H2].
Defined.

Lemma update_players_short (d : date) (new_ratings : list float) (names : list string) :
  forall (i : nat) (t : Tracker),
    i <= List.length new_ratings ->
    List.length new_ratings < i + List.length names ->
    exists t', update_players d new_ratings i names t = (inl IndexError, t').
Proof.
  induction names as [|k names IH]; intros i t Hi H; simpl in *; [lia|].
  destruct (nth_error new_ratings i) as [x|] eqn:E.
  - unfold bind, modify. apply IH; [|lia].
    assert (i < List.length new_ratings) by (apply nth_error_Some; congruence). lia.
  - exists t. reflexivity.
Qed.

(** X7.  How one matchup of the loop fails, in a frame with unique IDs.
    When the rater raises, the matchup stops with that exception after the
    participants were resolved: the frame has the IDs it had and those of the
    participants, the players it had are untouched, and each new participant
    is registered with its creation entry only.  When the rater returns fewer
    ratings than there are participants, the matchup stops with an
    [IndexError]. *)
Theorem process_row_raises (r : Row) (t : Tracker) :
  NoDup (ids t) ->
  (elo t (map (rating_of t) (present r)) = None ->
   exists t',
     process_row r t = (inl RaterError, t')
     /\ (forall k, In k (ids t') <-> In k (ids t) \/ In k (present r))
     /\ (forall k, In k (ids t) -> players_with_id k t' = players_with_id k t)
     /\ (forall k, In k (present r) -> ~ In k (ids t) ->
         players_with_id k t' = [new_player t k])
     /\ elo t' = elo t)
  /\ (forall new_ratings,
      elo t (map (rating_of t) (present r)) = Some new_ratings ->
      List.length new_ratings < List.length (present r) ->
      exists t', process_row r t = (inl IndexError, t')).
Proof.
  intro N.
  destruct (get_or_create_all_ratings (present r) t N)
    as (players & created & E & C1 & C2 & C3 & C4).
  destruct (register_fields created t) as [Fe _].
  pose proof (fun k => register_lookup created t k N C2 (fun k' H => proj2 (C1 k' H))) as L.
  pose proof (register_ids created t) as P.
  split.
  - intro Hr. exists (register t created). split; [|split; [|split; [|split]]].
    + unfold process_row, bind. rewrite E. unfold gets at 1. now rewrite Fe, C4, Hr.
    + intro k. split.
      * intro Hk. apply (Permutation_in _ P), in_app_or in Hk.
        destruct Hk as [Hk|Hk]; [now left|right; now destruct (C1 k Hk)].
      * intro Hk. apply (Permutation_in _ (Permutation_sym P)), in_or_app.
        destruct Hk as [Hk|Hk]; [now left|now apply C3].
    + intros k Hk. destruct (L k) as (_ & _ & Ln). apply Ln.
      intro Hc. now destruct (C1 k Hc).
    + intros k Hk Hout. destruct (L k) as (_ & Lc & _). apply Lc.
      destruct (C3 k Hk); tauto.
    + exact Fe.
  - intros new_ratings Hr Hl.
    destruct (update_players_short (row_date r) new_ratings (present r) 0
                (register t created)) as (t2 & U); [lia|simpl; lia|].
    exists t2. unfold process_row, bind. rewrite E. unfold gets at 1.
    now rewrite Fe, C4, Hr, U.
Qed.

(** X7 on the frame of A and B: a matchup of C alone is refused by the
    rater; C is registered, A and B are as they were. *)
Lemma process_row_raises_witness :
  NoDup (ids two_tied)
  /\ elo two_tied (map (rating_of two_tied) (present one_player)) = None
  /\ exists t',
       process_row one_player two_tied = (inl RaterError, t')
       /\ (forall k, In k (ids t') <-> In k (ids two_tied) \/ In k (present one_player))
       /\ (forall k, In k (ids two_tied) ->
           players_with_id k t' = players_with_id k two_tied)
       /\ (forall k, In k (present one_player) -> ~ In k (ids two_tied) ->
           players_with_id k t' = [new_player two_tied k])
       /\ elo t' = elo two_tied.
Proof.
  assert (N : NoDup (ids two_tied)).
  { simpl. repeat constructor; simpl; intuition discriminate. }
  split; [exact N|]. split; [reflexivity|].
  exact (proj1 (process_row_raises one_player two_tied N) eq_refl).
Defined.

(** ** Tracker: tables in several calls, and tables without participants *)

Lemma process_rows_app (l1 l2 : list Row) (t : Tracker) :
  process_rows (l1 ++ l2) t = (process_rows l1 ;;; process_rows l2) t.
Proof.
  revert t; induction l1 as [|r l1 IH]; intro t; [reflexivity|].
  change (bind (process_row r) (fun _ => process_rows (l1 ++ l2)) t
          = bind (bind (process_row r) (fun _ => process_rows l1))
                 (fun _ => process_rows l2) t).
  unfold bind; fold (@bind unit unit).
  destruct (process_row r t) as [[e|u] t1]; [reflexivity|].
  exact (IH t1).
Qed.

(** X8.  Calling [process_data] on an earlier table and then on a later one
    is calling it once on the two together: when the rows with a participant
    carry pairwise different dates and none of the first table is dated after
    one of the second, the two calls in a row (the second is not made when
    the first raises) return what the single call returns and leave the same
    tracker. *)
Theorem process_data_in_batches (argsort_date : list date -> list nat)
    (rows1 rows2 : list Row) (t : Tracker) :
  sorts date_le (map row_date rows1) (argsort_date (map row_date rows1)) ->
  sorts date_le (map row_date rows2) (argsort_date (map row_date rows2)) ->
  sorts date_le (map row_date (rows1 ++ rows2))
        (argsort_date (map row_date (rows1 ++ rows2))) ->
  distinct_dates (rows1 ++ rows2) ->
  (forall r1 r2, In r1 rows1 -> In r2 rows2 -> all_na r1 = false -> all_na r2 = false ->
                 date_le (row_date r1) (row_date r2)) ->
  process_data argsort_date (rows1 ++ rows2) t
  = (process_data argsort_date rows1 ;;; process_data argsort_date rows2) t.
Proof.
  intros S1 S2 S N B.
  destruct (sorts_take _ _ _ _ S1) as [P1 St1].
  destruct (sorts_take _ _ _ _ S2) as [P2 St2].
  destruct (sorts_take _ _ _ _ S) as [P St].
  unfold process_data. rewrite <- process_rows_app. f_equal.
  assert (Pd : Permutation (dropna (sort_values_date argsort_date (rows1 ++ rows2)))
                 (dropna (rows1 ++ rows2))) by (now apply filter_perm).
  apply sorted_rows_unique.
  - now apply sorted_dropna.
  - rewrite map_app. apply sorted_app.
    + now apply sorted_dropna.
    + now apply sorted_dropna.
    + intros x y Hx Hy. apply in_map_iff in Hx. destruct Hx as (r1 & <- & H1).
      apply in_map_iff in Hy. destruct Hy as (r2 & <- & H2).
      apply filter_In in H1. destruct H1 as [H1 E1].
      apply filter_In in H2. destruct H2 as [H2 E2].
      apply B; [now apply take_In in H1|now apply take_In in H2| |];
        now apply negb_true_iff.
  - rewrite Pd. unfold dropna. rewrite filter_app.
    apply Permutation_app; apply filter_perm; now symmetry.
  - unfold distinct_dates in N. eapply Permutation_NoDup; [|exact N].
    apply Permutation_map. now symmetry.
Qed.

(** X8 on two matchups of consecutive days. *)
Lemma process_data_in_batches_witness :
  process_data stable_argsort_date ([a_beats_b] ++ next_day) (empty_tracker linear_elo 1000)
  = (process_data stable_argsort_date [a_beats_b] ;;;
     process_data stable_argsort_date next_day) (empty_tracker linear_elo 1000).
Proof.
  apply process_data_in_batches.
  - split; vm_compute; [reflexivity|repeat constructor].
  - split; vm_compute; [reflexivity|repeat constructor].
  - split; vm_compute; [reflexivity|repeat constructor].
  - unfold distinct_dates; simpl. repeat constructor; simpl; intuition discriminate.
  - intros r1 r2 [<-|[]] [<-|[]] _ _. reflexivity.
Defined.

(** X9.  A table without any participant (no row, or only rows whose place
    fields are all missing) leaves the tracker exactly as it was, log
    included, whatever its dates and whatever the sort does. *)
Theorem process_data_no_participants (argsort_date : list date -> list nat)
    (rows : list Row) (t : Tracker) :
  (forall r, In r rows -> all_na r = true) ->
  process_data argsort_date rows t = (inr tt, t).
Proof.
  intro H. unfold process_data, dropna. rewrite filter_none; [reflexivity|].
  intros r Hr. apply take_In in Hr. now rewrite (H r Hr).
Qed.

(** X9 on two rows of missing places, one of them without a date. *)
Lemma process_data_no_participants_witness :
  process_data stable_argsort_date nobody two_tied = (inr tt, two_tied).
Proof.
  apply process_data_no_participants.
  intros r [<-|[<-|[]]]; reflexivity.
Defined.

(** X10.  [process_data] on a tracker that starts empty returns without an
    exception, whatever the sort does, when the rater accepts every matchup
    of two players or more (returning one rating for each) and every row
    with a participant has at least two. *)
Theorem process_data_returns (argsort_date : list date -> list nat) (rows : list Row)
    (elo_rater : list float -> option (list float)) (r0 : float) :
  rates_matchups elo_rater ->
  (forall r, In r rows -> all_na r = false -> 2 <= List.length (present r)) ->
  exists t', process_data argsort_date rows (empty_tracker elo_rater r0) = (inr tt, t').
Proof.
  intros R H. unfold process_data. apply process_rows_ok.
  - constructor.
  - exact R.
  - intros r Hr. apply filter_In in Hr. destruct Hr as [Hr Hn].
    apply H; [now apply take_In in Hr|now apply negb_true_iff].
Qed.

(** X10 on the two matchups of [latest_first]. *)
Lemma process_data_returns_witness :
  rates_matchups linear_elo
  /\ exists t',
       process_data stable_argsort_date latest_first (empty_tracker linear_elo 1000)
       = (inr tt, t').
Proof.
  split; [exact linear_elo_rates_matchups|].
  apply process_data_returns; [exact linear_elo_rates_matchups|].
  intros r [<-|[<-|[]]] _; simpl; lia.
Defined.

(** ** The history export *)

(** X11.  After a table was processed by a tracker that started empty, the
    history export lists the rows of every player in the order of their
    dates, all of them under the ID of the player and with a date. *)
Theorem history_export_in_date_order (argsort_date : list date -> list nat)
    (rows : list Row) (elo_rater : list float -> option (list float)) (r0 : float)
    (t' : Tracker) :
  sorts date_le (map row_date rows) (argsort_date (map row_date rows)) ->
  process_data argsort_date rows (empty_tracker elo_rater r0) = (inr tt, t') ->
  exists export,
    fst (get_history_df t') = inr export
    /\ forall k, In k (ids t') ->
         StronglySorted date_le (map (fun row => snd (fst row)) (rows_of k export))
         /\ Forall (fun row => fst (fst row) = k /\ isna (snd (fst row)) = false)
                   (rows_of k export).
Proof.
  intros S H. destruct (process_data_tracked _ _ _ _ _ S H) as (N & _ & Hh).
  pose proof (process_data_in_order _ _ _ _ _ S H) as O.
  rewrite get_history_df_eq. eexists; split; [reflexivity|]. intros k Hk.
  unfold ids in Hk. apply in_map_iff in Hk. destruct Hk as ([k' p] & E & Hin).
  simpl in E; subst k'.
  rewrite (rows_of_export k _ p N (fun k' p' H' => proj1 (Hh k' p' H')) Hin).
  split.
  - destruct (Hh k p Hin) as (_ & games & Hg & _). specialize (O k p Hin).
    rewrite Hg in O; simpl in O. unfold player_history_df. rewrite Hg. simpl.
    rewrite map_map. simpl.
    apply (proj2 (StronglySorted_map fst date_le _)). apply sorted_filter.
    exact (proj1 (StronglySorted_map fst date_le games) O).
  - apply Forall_forall. intros row Hr. split.
    + rewrite (player_history_df_id p row Hr). exact (proj1 (Hh k p Hin)).
    + exact (player_history_df_dated p row Hr).
Qed.

(** X11 on a table that lists the later matchup first. *)
Lemma history_export_in_date_order_witness :
  sorts date_le (map row_date latest_first) (stable_argsort_date (map row_date latest_first))
  /\ exists export,
       fst (get_history_df
              (snd (process_data stable_argsort_date latest_first
                      (empty_tracker linear_elo 1000)))) = inr export
       /\ forall k,
            In k (ids (snd (process_data stable_argsort_date latest_first
                              (empty_tracker linear_elo 1000)))) ->
            StronglySorted date_le (map (fun row => snd (fst row)) (rows_of k export))
            /\ Forall (fun row => fst (fst row) = k /\ isna (snd (fst row)) = false)
                      (rows_of k export).
Proof.
  assert (S : sorts date_le (map row_date latest_first)
                (stable_argsort_date (map row_date latest_first))).
  { split; vm_compute; [apply perm_swap|repeat constructor]. }
  split; [exact S|].
  apply (history_export_in_date_order stable_argsort_date latest_first linear_elo 1000 _ S).
  rewrite (surjective_pairing (process_data _ _ _)) at 1. f_equal.
Defined.

(** X12.  [get_history_df] always returns, and only reads the players: the
    frame, the rater and the initial rating are as before, and a second call
    returns the same export.  The export holds exactly the history entries
    of the players of the frame whose date is not missing, each under the
    [id] of its player; the log grows by warnings only, one for each player
    that has an entry dated [None] after its first. *)
Theorem get_history_df_reads (t : Tracker) :
  exists export added,
    fst (get_history_df t) = inr export
    /\ player_df (snd (get_history_df t)) = player_df t
    /\ elo (snd (get_history_df t)) = elo t
    /\ initial_player_rating (snd (get_history_df t)) = initial_player_rating t
    /\ logger (snd (get_history_df t)) = logger t ++ added
    /\ (forall k d x,
          In (k, d, x) export
          <-> exists key p, In (key, p) (player_df t) /\ id p = k
                            /\ In (d, x) (rating_history p) /\ isna d = false)
    /\ (forall rec,
          In rec added
          <-> exists key p x, rec = Warning_missing_dates (id p)
                              /\ In (key, p) (player_df t)
                              /\ In (PyNone, x) (tl (rating_history p)))
    /\ fst (get_history_df (snd (get_history_df t))) = inr export.
Proof.
  exists (concat (map player_history_df (map snd (player_df t)))),
         (warnings (map snd (player_df t))).
  rewrite !get_history_df_eq. simpl. repeat split; try reflexivity.
  - intro H. apply in_concat in H. destruct H as (f & Hf & Hx).
    apply in_map_iff in Hf. destruct Hf as (p & <- & Hp).
    apply in_map_iff in Hp. destruct Hp as ([key p'] & E & Hin). simpl in E; subst p'.
    unfold player_history_df in Hx. apply in_map_iff in Hx.
    destruct Hx as ([d' x'] & E & He). simpl in E.
    apply filter_In in He. destruct He as [He Hd]. simpl in Hd.
    apply negb_true_iff in Hd.
    exists key, p. repeat split; try congruence.
  - intros (key & p & Hin & <- & He & Hd).
    apply in_concat. exists (player_history_df p). split.
    + apply in_map. exact (in_map snd _ (key, p) Hin).
    + unfold player_history_df.
      apply (in_map (fun e : entry => (id p, fst e, snd e)) _ (d, x)).
      apply filter_In. split; [exact He|]. simpl. now rewrite Hd.
  - unfold warnings. intro H. apply in_map_iff in H. destruct H as (p & <- & Hp).
    apply filter_In in Hp. destruct Hp as [Hp Hm].
    apply in_map_iff in Hp. destruct Hp as ([key p'] & E & Hin). simpl in E; subst p'.
    apply missing_dates_iff in Hm. destruct Hm as ([d x] & He & Hd). simpl in Hd; subst d.
    exists key, p, x. auto.
  - intros (key & p & x & -> & Hin & He). unfold warnings.
    apply (in_map (fun p => Warning_missing_dates (id p))).
    apply filter_In. split; [exact (in_map snd _ (key, p) Hin)|].
    apply missing_dates_iff. exists (PyNone, x). auto.
Qed.

(** ** The lookup on a history with one entry per date *)

Lemma latest_candidate (d : string) (h : list entry) :
  (forall s r, In (Date s, r) h -> (s <=? d)%string = false)
  \/ exists s r,
       In (Date s, r) h /\ (s <=? d)%string = true
       /\ forall s' r', In (Date s', r') h -> (s' <=? d)%string = true ->
                        (s' <=? s)%string = true.
Proof.
  pose proof (sort_date_desc_perm (candidates d h)) as P.
  pose proof (sort_date_desc_sorted (candidates d h)) as S.
  destruct (sort_date_desc (candidates d h)) as [|[s r] l].
  - left. intros s r Hin. destruct (s <=? d)%string eqn:E; [|reflexivity].
    assert (C : In (s, r) (candidates d h)) by (apply candidates_In; auto).
    apply (Permutation_in _ (Permutation_sym P)) in C. destruct C.
  - right. exists s, r.
    assert (C : In (s, r) (candidates d h)) by (apply (Permutation_in _ P); now left).
    apply candidates_In in C. destruct C as [C1 C2]. split; [exact C1|]. split; [exact C2|].
    intros s' r' Hin E.
    assert (C : In (s', r') (candidates d h)) by (apply candidates_In; auto).
    apply (Permutation_in _ (Permutation_sym P)) in C. destruct C as [C|C].
    + apply (f_equal fst) in C. simpl in C. subst s'.
      now destruct (String.leb_total s s).
    + inversion S as [|? ? _ F]; subst. rewrite Forall_forall in F.
      exact (F (s', r') C).
Qed.

(** X13.  On a history with at most one entry per date and no nan rating,
    the call [get_rating_as_of_date(d, default)] does one of three things.
    It raises [TypeError] when no entry has a string date and one has a nan
    date.  Otherwise it returns the default when no entry is dated on or
    before [d], and the rating of the latest entry dated on or before [d]
    when there is one. *)
Theorem get_rating_as_of_date_one_per_date (p : Player) (d : string)
    (default_rating : float) :
  NoDup (dates_of (rating_history p)) ->
  (forall e, In e (rating_history p) -> PrimFloat.is_nan (snd e) = false) ->
  (holds_string_date (rating_history p) = false
   /\ holds_nan_date (rating_history p) = true
   /\ get_rating_as_of_date_call p d default_rating = None)
  \/ ((holds_string_date (rating_history p) = true
       \/ holds_nan_date (rating_history p) = false)
      /\ (forall s r, In (Date s, r) (rating_history p) -> (s <=? d)%string = false)
      /\ get_rating_as_of_date_call p d default_rating = Some default_rating)
  \/ exists s r,
       In (Date s, r) (rating_history p)
       /\ (s <=? d)%string = true
       /\ (forall s' r', In (Date s', r') (rating_history p) -> (s' <=? d)%string = true ->
                         (s' <=? s)%string = true)
       /\ get_rating_as_of_date_call p d default_rating = Some r.
Proof.
  intros N Hn. unfold get_rating_as_of_date_call, date_column_is_object.
  destruct (holds_string_date (rating_history p)) eqn:Hs; simpl.
  - right.
    destruct (latest_candidate d (rating_history p)) as [H|(s & r & H1 & H2 & H3)].
    + left. split; [now left|]. split; [exact H|].
      f_equal. now apply get_rating_as_of_date_default.
    + right. exists s, r. split; [exact H1|]. split; [exact H2|]. split; [exact H3|].
      f_equal. exact (get_rating_as_of_date_latest p d default_rating s r N Hn H1 H2 H3).
  - destruct (holds_nan_date (rating_history p)) eqn:Hm; simpl.
    + left. auto.
    + right. left. split; [now right|].
      assert (H : forall s r, In (Date s, r) (rating_history p) -> (s <=? d)%string = false).
      { intros s r Hin. exfalso. unfold holds_string_date in Hs.
        assert (E : existsb (fun e : entry => match fst e with Date _ => true | _ => false end)
                      (rating_history p) = true)
          by (apply existsb_exists; exists (Date s, r); split; [exact Hin|reflexivity]).
        unfold entry in *. rewrite E in Hs. discriminate. }
      split; [exact H|]. f_equal. now apply get_rating_as_of_date_default.
Qed.

(** X13 between the two results of [two_results]. *)
Lemma get_rating_as_of_date_one_per_date_witness :
  NoDup (dates_of (rating_history two_results))
  /\ get_rating_as_of_date_call two_results "2024-01-02" 1500 = Some 1016%float
  /\ ((holds_string_date (rating_history two_results) = false
       /\ holds_nan_date (rating_history two_results) = true
       /\ get_rating_as_of_date_call two_results "2024-01-02" 1500 = None)
      \/ ((holds_string_date (rating_history two_results) = true
           \/ holds_nan_date (rating_history two_results) = false)
          /\ (forall s r, In (Date s, r) (rating_history two_results) ->
                          (s <=? "2024-01-02")%string = false)
          /\ get_rating_as_of_date_call two_results "2024-01-02" 1500 = Some 1500%float)
      \/ exists s r,
           In (Date s, r) (rating_history two_results)
           /\ (s <=? "2024-01-02")%string = true
           /\ (forall s' r', In (Date s', r') (rating_history two_results) ->
                             (s' <=? "2024-01-02")%string = true ->
                             (s' <=? s)%string = true)
           /\ get_rating_as_of_date_call two_results "2024-01-02" 1500 = Some r).
Proof.
  assert (N : NoDup (dates_of (rating_history two_results))).
  { simpl. repeat constructor; simpl; intuition discriminate. }
  split; [exact N|]. split; [vm_compute; reflexivity|].
  apply (get_rating_as_of_date_one_per_date two_results "2024-01-02" 1500 N).
  intros e [<-|[<-|[<-|[]]]]; reflexivity.
Defined.

(** ** What [process_data] sends to the logger *)

Lemma register_logger (created : list string) (t : Tracker) :
  logger (register t created) = logger t ++ map Info_created created.
Proof.
  revert t; induction created as [|k created IH]; intro t; simpl.
  - now rewrite app_nil_r.
  - unfold register in *. rewrite IH. simpl. now rewrite <- app_assoc.
Qed.

Lemma length_flat_map_one {A B} (f : A -> list B) (l : list A) :
  (forall x, In x l -> List.length (f x) = 1) ->
  List.length (flat_map f l) = List.length l.
Proof.
  induction l as [|a l IH]; intro H; simpl; [reflexivity|].
  rewrite length_app, (H a (or_introl eq_refl)), IH; [reflexivity|].
  intros x Hx. apply H. now right.
Qed.

Lemma matchups_logged_created (created : list string) :
  matchups_logged (map Info_created created) = [].
Proof. induction created; simpl; auto. Qed.

Lemma created_logged_created (created : list string) :
  created_logged (map Info_created created) = created.
Proof. induction created; simpl; congruence. Qed.

Lemma not_warning_created (created : list string) (k : string) :
  ~ In (Warning_missing_dates k) (map Info_created created).
Proof. rewrite in_map_iff. intros (x & E & _). discriminate. Qed.

(** One row of the loop: a creation record for every new player, then the
    matchup record, with one rating change for every participant. *)
Lemma process_row_log (r : Row) (t t' : Tracker) :
  NoDup (ids t) ->
  process_row r t = (inr tt, t') ->
  exists created changes,
    logger t' = logger t ++ map Info_created created ++ [Info_matchup (row_date r) changes]
    /\ List.length changes = List.length (present r)
    /\ Permutation (ids t') (ids t ++ created).
Proof.
  intros N H.
  destruct (get_or_create_all (present r) t N) as (players & created & E & C1 & C2 & C3 & Lp).
  pose proof (register_ids created t) as Pids.
  unfold process_row, bind in H. rewrite E in H. unfold gets at 1 in H.
  destruct (elo (register t created) (map rating players)) as [new_ratings|];
    [|discriminate H].
  destruct (update_players (row_date r) new_ratings 0 (present r) (register t created))
    as [res2 t2] eqn:U.
  destruct (update_players_any _ _ _ _ _ _ _ U) as (F & _ & _ & Ul).
  pose proof (updated_keys _ _ F) as K. fold (ids t2) in K. fold (ids (register t created)) in K.
  destruct res2 as [e|[]]; [discriminate H|].
  unfold gets, log, modify in H. injection H as <-. simpl.
  exists created. eexists. split; [|split].
  - rewrite Ul, register_logger, <- app_assoc. reflexivity.
  - rewrite length_flat_map_one.
    + rewrite length_combine, length_map, Lp. apply Nat.min_id.
    + intros [k x] Hk. apply in_combine_l in Hk. simpl.
      assert (Hin : In k (ids t2)).
      { rewrite K. apply (Permutation_in k (Permutation_sym Pids)).
        apply in_or_app. exact (C3 k Hk). }
      destruct (players_with_id_found k t2 Hin) as (p & rest & -> & _). reflexivity.
  - unfold ids at 1. simpl. fold (ids t2). now rewrite K.
Qed.

Lemma process_rows_log (rows : list Row) :
  forall t t', NoDup (ids t) ->
    process_rows rows t = (inr tt, t') ->
    exists added,
      logger t' = logger t ++ added
      /\ matchups_logged added = map matchup_size rows
      /\ Permutation (ids t') (ids t ++ created_logged added)
      /\ forall k, ~ In (Warning_missing_dates k) added.
Proof.
  induction rows as [|r rows IH]; intros t t' N H; simpl in H.
  - injection H as <-. exists []. simpl. rewrite !app_nil_r. auto.
  - unfold bind in H. destruct (process_row r t) as [[e|[]] t1] eqn:E; [discriminate H|].
    pose proof (process_row_ids r t t1 N E) as N1.
    destruct (process_row_log r t t1 N E) as (created & changes & L & Lc & P).
    destruct (IH t1 t' N1 H) as (added & L' & M' & P' & W').
    exists (map Info_created created ++ [Info_matchup (row_date r) changes] ++ added).
    split; [|split; [|split]].
    + rewrite L', L, <- !app_assoc. reflexivity.
    + unfold matchups_logged in *. rewrite !flat_map_app.
      fold (matchups_logged (map Info_created created)).
      rewrite matchups_logged_created, M'. simpl. unfold matchup_size at 2. now rewrite Lc.
    + unfold created_logged in *. rewrite !flat_map_app.
      fold (created_logged (map Info_created created)).
      rewrite created_logged_created. simpl. rewrite P', P, <- app_assoc. reflexivity.
    + intros k Hk. apply in_app_or in Hk. destruct Hk as [Hk|Hk].
      * exact (not_warning_created created k Hk).
      * apply in_app_or in Hk. destruct Hk as [[Hk|[]]|Hk]; [discriminate Hk|].
        exact (W' k Hk).
Qed.

(** X14.  A call of [process_data] that returns has sent the logger one
    matchup record for every row with a participant, in the order of the
    dates, each with the date of its row and one rating change for every
    participant, and one creation record for every player it added to the
    frame; it has sent no warning. *)
Theorem process_data_log (argsort_date : list date -> list nat) (rows : list Row)
    (t t' : Tracker) :
  NoDup (ids t) ->
  sorts date_le (map row_date rows) (argsort_date (map row_date rows)) ->
  process_data argsort_date rows t = (inr tt, t') ->
  exists added,
    logger t' = logger t ++ added
    /\ Permutation (matchups_logged added) (map matchup_size (dropna rows))
    /\ StronglySorted date_le (map fst (matchups_logged added))
    /\ Permutation (ids t') (ids t ++ created_logged added)
    /\ forall k, ~ In (Warning_missing_dates k) added.
Proof.
  intros N S H. destruct (sorts_take _ _ _ _ S) as [P St].
  unfold process_data in H.
  destruct (process_rows_log _ t t' N H) as (added & L & Ml & Pi & W).
  exists added. split; [exact L|]. rewrite Ml. split; [|split; [|split]].
  - apply Permutation_map. now apply filter_perm.
  - rewrite map_map. simpl. now apply sorted_dropna.
  - exact Pi.
  - exact W.
Qed.

(** X14 on the two matchups of [latest_first]: the record of the first of
    January comes first. *)
Lemma process_data_log_witness :
  NoDup (ids (empty_tracker linear_elo 1000))
  /\ sorts date_le (map row_date latest_first)
           (stable_argsort_date (map row_date latest_first))
  /\ exists added,
       logger (snd (process_data stable_argsort_date latest_first
                      (empty_tracker linear_elo 1000))) = added
       /\ matchups_logged added = [(Date "2024-01-01", 2); (Date "2024-01-02", 2)]
       /\ created_logged added = ["A"; "B"]
       /\ StronglySorted date_le (map fst (matchups_logged added)).
Proof.
  assert (N : NoDup (ids (empty_tracker linear_elo 1000))) by constructor.
  assert (S : sorts date_le (map row_date latest_first)
                (stable_argsort_date (map row_date latest_first))).
  { split; vm_compute; [apply perm_swap|repeat constructor]. }
  assert (H : process_data stable_argsort_date latest_first (empty_tracker linear_elo 1000)
              = (inr tt, snd (process_data stable_argsort_date latest_first
                                (empty_tracker linear_elo 1000)))).
  { rewrite (surjective_pairing (process_data _ _ _)) at 1. f_equal. }
  split; [exact N|]. split; [exact S|].
  destruct (process_data_log stable_argsort_date latest_first _ _ N S H)
    as (added & L & _ & St & _).
  exists added. simpl in L. split; [exact L|]. split; [|split; [|exact St]].
  - rewrite <- L. vm_compute. reflexivity.
  - rewrite <- L. vm_compute. reflexivity.
Defined.

(** ** The lookup and later results *)

Lemma holds_string_date_app (h1 h2 : list entry) :
  holds_string_date (h1 ++ h2) = holds_string_date h1 || holds_string_date h2.
Proof. unfold holds_string_date. apply existsb_app. Qed.

Lemma holds_nan_date_app (h1 h2 : list entry) :
  holds_nan_date (h1 ++ h2) = holds_nan_date h1 || holds_nan_date h2.
Proof. unfold holds_nan_date. apply existsb_app. Qed.

Lemma holds_nan_date_dated (added : list entry) :
  Forall (fun e => isna (fst e) = false) added -> holds_nan_date added = false.
Proof.
  induction 1 as [|[dt x] l H F IH]; [reflexivity|].
  unfold holds_nan_date in *. simpl in *. rewrite IH. now destruct dt.
Qed.

Lemma date_column_is_object_appended (h added : list entry) :
  date_column_is_object h = true ->
  holds_string_date h = true \/ holds_nan_date added = false ->
  date_column_is_object (h ++ added) = true.
Proof.
  unfold date_column_is_object. rewrite holds_string_date_app, holds_nan_date_app.
  intros H [E|E]; rewrite E.
  - reflexivity.
  - rewrite orb_false_r. destruct (holds_string_date h); [reflexivity|].
    simpl in *. rewrite H. apply orb_true_r.
Qed.

(** *** What a call appends, whatever its outcome *)

Section Extended.

Variable D : date -> Prop.

Lemma extended_refl (row : string * Player) : extended D row row.
Proof. split; [reflexivity|]. exists []. now rewrite app_nil_r. Qed.

Lemma extended_trans (a b c : string * Player) :
  extended D a b -> extended D b c -> extended D a c.
Proof.
  intros [E1 (u1 & H1 & F1)] [E2 (u2 & H2 & F2)]. split; [congruence|].
  exists (u1 ++ u2). split.
  - now rewrite H2, H1, app_assoc.
  - apply Forall_app. auto.
Qed.

Lemma update_player_extended (k : string) (r : float) (dt : date)
    (df : list (string * Player)) :
  D dt -> Forall2 (extended D) df (update_player k r dt df).
Proof.
  intro L. induction df as [|row df IH]; simpl; [constructor|].
  destruct (String.eqb (fst row) k).
  - constructor.
    + split; [reflexivity|]. exists [(dt, r)]. split; [reflexivity|].
      constructor; [exact L|constructor].
    + apply Forall2_same. intros x _. apply extended_refl.
  - constructor; [apply extended_refl|exact IH].
Qed.

Lemma update_players_extended (dt : date) (new_ratings : list float)
    (names : list string) :
  D dt ->
  forall (i : nat) (t : Tracker) res (t' : Tracker),
    update_players dt new_ratings i names t = (res, t') ->
    Forall2 (extended D) (player_df t) (player_df t').
Proof.
  intro L. induction names as [|k names IH]; intros i t res t' H; simpl in H.
  - injection H as _ <-. apply Forall2_same. intros x _. apply extended_refl.
  - destruct (nth_error new_ratings i) as [r|].
    + unfold bind, modify in H. apply IH in H. simpl in H.
      eapply Forall2_compose; [exact extended_trans| |exact H].
      now apply update_player_extended.
    + injection H as _ <-. apply Forall2_same. intros x _. apply extended_refl.
Qed.

Lemma process_row_extended (r : Row) (t : Tracker) res (t' : Tracker) :
  NoDup (ids t) ->
  D (row_date r) ->
  process_row r t = (res, t') ->
  exists created,
    (forall k, In k created -> In k (present r) /\ ~ In k (ids t))
    /\ Forall2 (extended D) (player_df (register t created)) (player_df t').
Proof.
  intros N L H.
  destruct (get_or_create_all (present r) t N) as (players & created & E & C1 & _).
  exists created. split; [exact C1|].
  unfold process_row, bind in H. rewrite E in H. unfold gets at 1 in H.
  destruct (elo (register t created) (map rating players)) as [new_ratings|].
  - destruct (update_players (row_date r) new_ratings 0 (present r) (register t created))
      as [res2 t2] eqn:U.
    pose proof (update_players_extended _ _ _ L _ _ _ _ U) as F.
    destruct res2 as [e|[]].
    + injection H as _ <-. exact F.
    + unfold gets, log, modify in H. injection H as _ <-. exact F.
  - injection H as _ <-. apply Forall2_same. intros x _. apply extended_refl.
Qed.

Lemma grows_refl (t : Tracker) : grows D t t.
Proof.
  split; [reflexivity|]. split.
  - intros k p H. exists p, []. rewrite app_nil_r. auto.
  - intros k p H. left. exists p, []. rewrite app_nil_r. auto.
Qed.

Lemma grows_ids (t t' : Tracker) (k : string) :
  grows D t t' -> In k (ids t) -> In k (ids t').
Proof.
  intros (_ & A & _) H. unfold ids in *. apply in_map_iff in H.
  destruct H as ([k' p] & <- & Hp). destruct (A k' p Hp) as (p' & u & Hp' & _).
  exact (in_map fst _ (k', p') Hp').
Qed.

Lemma grows_trans (t1 t2 t3 : Tracker) :
  grows D t1 t2 -> grows D t2 t3 -> grows D t1 t3.
Proof.
  intros G1 G2. pose proof G1 as (I1 & A1 & B1). pose proof G2 as (I2 & A2 & B2).
  split; [congruence|]. split.
  - intros k p H. destruct (A1 k p H) as (p2 & u1 & H2 & E2 & F2).
    destruct (A2 k p2 H2) as (p3 & u2 & H3 & E3 & F3).
    exists p3, (u1 ++ u2). split; [exact H3|]. split.
    + now rewrite E3, E2, app_assoc.
    + apply Forall_app. auto.
  - intros k p3 H. destruct (B2 k p3 H) as [(p2 & u2 & H2 & E2 & F2)|(N2 & u2 & E2 & F2)].
    + destruct (B1 k p2 H2) as [(p1 & u1 & H1 & E1 & F1)|(N1 & u1 & E1 & F1)].
      * left. exists p1, (u1 ++ u2). split; [exact H1|]. split.
        -- now rewrite E2, E1, app_assoc.
        -- apply Forall_app. auto.
      * right. split; [exact N1|]. exists (u1 ++ u2). split.
        -- now rewrite E2, E1.
        -- apply Forall_app. auto.
    + right. split.
      * intro Hin. apply N2. exact (grows_ids t1 t2 k G1 Hin).
      * exists u2. split; [now rewrite E2, I1|exact F2].
Qed.

Lemma process_row_grows (r : Row) (t : Tracker) res (t' : Tracker) :
  frame_ok t ->
  D (row_date r) ->
  process_row r t = (res, t') ->
  grows D t t'.
Proof.
  intros F L H.
  destruct (process_row_extended r t res t' (proj1 F) L H) as (created & C1 & U).
  destruct (process_row_any r t res t' (proj1 F) H) as (_ & _ & _ & _ & _ & I).
  pose proof (register_frame created t) as P. split; [exact I|]. split.
  - intros k p Hin.
    assert (H1 : In (k, p) (player_df (register t created)))
      by (apply (Permutation_in _ (Permutation_sym P)), in_or_app; now left).
    destruct (Forall2_In_l _ _ _ _ U H1) as ([k' p'] & Hp' & E & u & Hu & Fu).
    simpl in E, Hu. subst k'. now exists p', u.
  - intros k p' Hin.
    destruct (Forall2_In_r _ _ _ _ U Hin) as ([k1 p] & Hp & E & u & Hu & Fu).
    simpl in E, Hu. subst k1.
    apply (Permutation_in _ P), in_app_or in Hp. destruct Hp as [Hp|Hp].
    + left. now exists p, u.
    + apply in_map_iff in Hp. destruct Hp as (k' & E & Hk'). injection E as -> <-.
      right. split; [now destruct (C1 k Hk')|].
      exists u. split; [exact Hu|exact Fu].
Qed.

Lemma process_rows_grows (rows : list Row) :
  forall (t : Tracker) res (t' : Tracker),
    frame_ok t ->
    (forall r, In r rows -> D (row_date r)) ->
    process_rows rows t = (res, t') ->
    grows D t t'.
Proof.
  induction rows as [|r rows IH]; intros t res t' F L H; simpl in H.
  - injection H as _ <-. apply grows_refl.
  - unfold bind in H. destruct (process_row r t) as [res1 t1] eqn:E.
    pose proof (process_row_grows r t res1 t1 F (L r (or_introl eq_refl)) E) as K1.
    destruct (process_row_evolves r t res1 t1 F E) as [F1 _].
    destruct res1 as [e|[]].
    + injection H as _ <-. exact K1.
    + apply (grows_trans t t1 t' K1).
      apply (IH t1 res t' F1); [|exact H]. intros r' Hr'. apply L. now right.
Qed.

Lemma process_data_grows (argsort_date : list date -> list nat) (rows : list Row)
    (t : Tracker) res (t' : Tracker) :
  frame_ok t ->
  (forall r, In r rows -> all_na r = false -> D (row_date r)) ->
  process_data argsort_date rows t = (res, t') ->
  grows D t t'.
Proof.
  intros F L H. unfold process_data in H.
  apply (process_rows_grows (dropna (sort_values_date argsort_date rows)) t res t' F);
    [|exact H].
  intros r Hr. apply filter_In in Hr. destruct Hr as [Hr Hn].
  apply L; [now apply take_In in Hr|now apply negb_true_iff].
Qed.

End Extended.

(** *** Ratings of the past *)

Section Past.

Variable d : string.

Lemma in_group_until (s : string) (e : entry) :
  (s <=? d)%string = true -> in_group s e = true -> dated_until d e = true.
Proof.
  unfold in_group, dated_until. destruct (fst e); try discriminate.
  intros H E. apply String.eqb_eq in E. now subst.
Qed.

Lemma group_rank_until (bef all : list entry) (e : entry) :
  dated_until d e = true ->
  group_rank (filter (dated_until d) bef) (filter (dated_until d) all) e
  = group_rank bef all e.
Proof.
  intro K. unfold dated_until in K. unfold group_rank.
  destruct (fst e) as [| |s]; try reflexivity.
  destruct (PrimFloat.is_nan (snd e)); [reflexivity|].
  rewrite !filter_filter_implied; [reflexivity| |];
    intros x Hx; apply andb_true_iff in Hx; destruct Hx as [Hx _];
    exact (in_group_until s x K Hx).
Qed.

Lemma ranked_until (bef rest all : list entry) :
  flat_map (on_or_before d)
    (filter r_is_1 (rank_column (filter (dated_until d) bef) (filter (dated_until d) rest)
                      (filter (dated_until d) all)))
  = flat_map (on_or_before d) (filter r_is_1 (rank_column bef rest all)).
Proof.
  revert bef; induction rest as [|e rest IH]; intro bef; simpl; [reflexivity|].
  specialize (IH (e :: bef)). simpl in IH.
  destruct (dated_until d e) eqn:K; simpl.
  - rewrite (group_rank_until bef all e K).
    destruct (r_is_1 (e, group_rank bef all e)); simpl; now rewrite IH.
  - rewrite IH. destruct (r_is_1 (e, group_rank bef all e)); simpl; [|reflexivity].
    assert (E : on_or_before d (e, group_rank bef all e) = []).
    { unfold on_or_before; simpl. unfold dated_until in K.
      destruct (fst e); try reflexivity. now rewrite K. }
    now rewrite E.
Qed.

Lemma get_rating_as_of_date_until (h : list entry) (p : Player) (default_rating : float) :
  filter (dated_until d) h = filter (dated_until d) (rating_history p) ->
  get_rating_as_of_date {| id := id p; rating := rating p; rating_history := h |}
    d default_rating
  = get_rating_as_of_date p d default_rating.
Proof.
  intro E. unfold get_rating_as_of_date; simpl.
  rewrite <- (ranked_until [] h h), <- (ranked_until [] (rating_history p) (rating_history p)).
  now rewrite E.
Qed.

Lemma get_rating_as_of_date_appended (p p' : Player) (added : list entry)
    (default_rating : float) :
  rating_history p' = (rating_history p ++ added)%list ->
  Forall (fun e => later_or_missing d (fst e)) added ->
  get_rating_as_of_date p' d default_rating = get_rating_as_of_date p d default_rating.
Proof.
  intros H L. rewrite Forall_forall in L.
  rewrite <- (get_rating_as_of_date_until (rating_history p') p default_rating).
  - reflexivity.
  - rewrite H, filter_app, (filter_none (dated_until d) added), app_nil_r; [reflexivity|].
    intros e He. specialize (L e He). unfold later_or_missing in L. unfold dated_until.
    destruct (fst e); auto.
Qed.

(** Later entries and the call: it returns as before, when it returned
    before and the new entries do not turn the date column into floats. *)
Lemma get_rating_as_of_date_call_appended (p p' : Player) (added : list entry)
    (default_rating : float) :
  rating_history p' = (rating_history p ++ added)%list ->
  Forall (fun e => later_or_missing d (fst e)) added ->
  date_column_is_object (rating_history p) = true ->
  holds_string_date (rating_history p) = true \/ holds_nan_date added = false ->
  get_rating_as_of_date_call p' d default_rating
  = get_rating_as_of_date_call p d default_rating
  /\ get_rating_as_of_date_call p d default_rating
     = Some (get_rating_as_of_date p d default_rating).
Proof.
  intros H L O S. unfold get_rating_as_of_date_call.
  rewrite H, (date_column_is_object_appended _ _ O S), O.
  split; [|reflexivity]. f_equal. now apply (get_rating_as_of_date_appended p p' added).
Qed.

Lemma new_player_no_past (t : Tracker) (k : string) (default_rating : float) :
  get_rating_as_of_date_call (new_player t k) d default_rating = Some default_rating.
Proof. reflexivity. Qed.

(** X15.  Results recorded later do not change a rating of the past.  Let
    the call [get_rating_as_of_date(d, default)] return for a player (its
    date column is not of floats).  After any sequence of [update_rating]
    calls whose dates are after [d] or missing, the call returns the same,
    provided the history held a string date already or no new date is
    nan. *)
Theorem get_rating_as_of_date_past (p : Player) (results : list (float * date))
    (default_rating : float) :
  (forall r dt, In (r, dt) results -> later_or_missing d dt) ->
  date_column_is_object (rating_history p) = true ->
  (holds_string_date (rating_history p) = true
   \/ forall r dt, In (r, dt) results -> dt <> NaT) ->
  get_rating_as_of_date_call (record_results p results) d default_rating
  = get_rating_as_of_date_call p d default_rating
  /\ get_rating_as_of_date_call p d default_rating
     = Some (get_rating_as_of_date p d default_rating).
Proof.
  intros L O S.
  apply (get_rating_as_of_date_call_appended p _ (map (fun u => (snd u, fst u)) results)).
  - apply record_results_history.
  - apply Forall_forall. intros e He. apply in_map_iff in He.
    destruct He as ([r dt] & <- & Hu). exact (L r dt Hu).
  - exact O.
  - destruct S as [S|S]; [now left|right].
    unfold holds_nan_date. apply not_true_is_false. intro E.
    apply existsb_exists in E. destruct E as (e & He & E).
    apply in_map_iff in He. destruct He as ([r dt] & <- & Hu). simpl in E.
    destruct dt; try discriminate. exact (S r NaT Hu eq_refl).
Qed.

(** X16.  A table whose matchups are all dated after [d], or not dated,
    and the ratings as of [d], whatever [process_data] returns, also an
    exception.  Every player whose history held a string date is still in
    the frame, and the call [get_rating_as_of_date(d, default)] returns for
    it what it returned before.  When moreover every matchup with a
    participant has a date, this holds for every player for which the call
    returned, and for every player added the call returns its default. *)
Theorem process_data_keeps_past (argsort_date : list date -> list nat) (rows : list Row)
    (t : Tracker) (res : error + unit) (t' : Tracker) :
  frame_ok t ->
  (forall r, In r rows -> all_na r = false -> later_or_missing d (row_date r)) ->
  process_data argsort_date rows t = (res, t') ->
  (forall k p, In (k, p) (player_df t) ->
     holds_string_date (rating_history p) = true ->
     exists p', In (k, p') (player_df t')
                /\ forall default_rating,
                     get_rating_as_of_date_call p' d default_rating
                     = get_rating_as_of_date_call p d default_rating
                     /\ get_rating_as_of_date_call p d default_rating
                        = Some (get_rating_as_of_date p d default_rating))
  /\ ((forall r, In r rows -> all_na r = false -> isna (row_date r) = false) ->
      (forall k p, In (k, p) (player_df t) ->
         exists p', In (k, p') (player_df t')
                    /\ forall default_rating x,
                         get_rating_as_of_date_call p d default_rating = Some x ->
                         get_rating_as_of_date_call p' d default_rating = Some x)
      /\ (forall k p', In (k, p') (player_df t') -> ~ In k (ids t) ->
            forall default_rating,
              get_rating_as_of_date_call p' d default_rating = Some default_rating)).
Proof.
  intros F L H. split.
  - intros k p Hin Hs.
    destruct (process_data_grows (later_or_missing d) _ _ _ _ _ F L H) as (_ & A & _).
    destruct (A k p Hin) as (p' & added & Hp' & E & Fa).
    exists p'. split; [exact Hp'|]. intro x.
    apply (get_rating_as_of_date_call_appended p p' added x E Fa); [|now left].
    unfold date_column_is_object. now rewrite Hs.
  - intro Hd.
    destruct (process_data_grows
                (fun dt => later_or_missing d dt /\ isna dt = false) _ _ _ _ _ F
                (fun r Hr Hn => conj (L r Hr Hn) (Hd r Hr Hn)) H) as (_ & A & B).
    assert (Split : forall added : list entry,
               Forall (fun e => later_or_missing d (fst e) /\ isna (fst e) = false) added ->
               Forall (fun e => later_or_missing d (fst e)) added
               /\ holds_nan_date added = false).
    { intros added Fa. split.
      - eapply Forall_impl; [|exact Fa]. now intros e [H1 _].
      - apply holds_nan_date_dated. eapply Forall_impl; [|exact Fa]. now intros e [_ H2]. }
    split.
    + intros k p Hin. destruct (A k p Hin) as (p' & added & Hp' & E & Fa).
      destruct (Split added Fa) as [Fl Fn].
      exists p'. split; [exact Hp'|]. intros x y Hy.
      assert (O : date_column_is_object (rating_history p) = true).
      { unfold get_rating_as_of_date_call in Hy.
        destruct (date_column_is_object (rating_history p)); [reflexivity|discriminate]. }
      destruct (get_rating_as_of_date_call_appended p p' added x E Fl O (or_intror Fn))
        as [E1 _].
      now rewrite E1.
    + intros k p' Hin Hout x.
      destruct (B k p' Hin) as [(p & added & Hp & _)|(_ & added & E & Fa)].
      * exfalso. apply Hout. exact (in_map fst _ (k, p) Hp).
      * destruct (Split added Fa) as [Fl Fn].
        destruct (get_rating_as_of_date_call_appended (new_player t k) p' added x E Fl
                    eq_refl (or_intror Fn)) as [E1 _].
        rewrite E1. apply new_player_no_past.
Qed.

End Past.

(** X15 on [two_results]: the result of the third of January does not
    change the rating as of the second. *)
Lemma get_rating_as_of_date_past_witness :
  date_column_is_object
    (rating_history
       (update_rating (Player_init "A" 1000 None PyNone) 1016 (Date "2024-01-01"))) = true
  /\ get_rating_as_of_date_call
       (record_results
          (update_rating (Player_init "A" 1000 None PyNone) 1016 (Date "2024-01-01"))
          [(990%float, Date "2024-01-03")])
       "2024-01-02" 1500
     = Some 1016%float
  /\ get_rating_as_of_date_call
       (record_results
          (update_rating (Player_init "A" 1000 None PyNone) 1016 (Date "2024-01-01"))
          [(990%float, Date "2024-01-03")])
       "2024-01-02" 1500
     = get_rating_as_of_date_call
         (update_rating (Player_init "A" 1000 None PyNone) 1016 (Date "2024-01-01"))
         "2024-01-02" 1500.
Proof.
  split; [reflexivity|]. split; [vm_compute; reflexivity|].
  apply (get_rating_as_of_date_past "2024-01-02"
           (update_rating (Player_init "A" 1000 None PyNone) 1016 (Date "2024-01-01"))
           [(990%float, Date "2024-01-03")] 1500).
  - intros r dt [E|[]]. apply (f_equal snd) in E. simpl in E. subst dt. reflexivity.
  - reflexivity.
  - left. reflexivity.
Defined.

(** X16 on the tracker after one matchup of the first of January, and a
    table of the second: the ratings as of the first are what they were. *)
Lemma process_data_keeps_past_witness :
  frame_ok after_one_matchup
  /\ forall k p, In (k, p) (player_df after_one_matchup) ->
       holds_string_date (rating_history p) = true ->
       exists p',
         In (k, p') (player_df (snd (process_data stable_argsort_date next_day
                                       after_one_matchup)))
         /\ forall default_rating,
              get_rating_as_of_date_call p' "2024-01-01" default_rating
              = get_rating_as_of_date_call p "2024-01-01" default_rating
              /\ get_rating_as_of_date_call p "2024-01-01" default_rating
                 = Some (get_rating_as_of_date p "2024-01-01" default_rating).
Proof.
  assert (F : frame_ok after_one_matchup).
  { assert (E : ids after_one_matchup = ["A"; "B"; "C"]) by (vm_compute; reflexivity).
    unfold frame_ok. rewrite E.
    split; repeat constructor; simpl; intuition discriminate. }
  split; [exact F|].
  refine (proj1 (process_data_keeps_past "2024-01-01" stable_argsort_date next_day
                   after_one_matchup _ _ F _ (surjective_pairing _))).
  intros r [<-|[]] _. reflexivity.
Defined.

(** ** Tracker: players created by the tracker *)





